(** * Block play of go-ibax: packages/block/play.go

    A shallow embedding of [PlaySafe], [ProcessTxs], [serialExecuteTxs],
    [groupUtxoTxs] and [groupTransferSelfTxs], the properties of the
    block-play specification stated over it, and further properties of
    the five functions.

    Conventions of the embedding:
    - Go [int64] values (key ids, timestamps, block ids) are [Z]; none of
      the code modelled here does arithmetic on them.
    - Go [[]byte] values (hashes, raw transactions) are [string]s, one
      character per byte.
    - Go maps are stdpp [gmap]s; the order in which [range] visits a map,
      and the order in which the goroutines of a phase obtain the lock, is
      chosen by the environment.
    - Every call into another package is an [Event] appended to a trace;
      what the call returns is supplied by an [Env], as a function of the
      trace so far. *)

From stdpp Require Import gmap strings list pretty.
From Stdlib Require Import ZArith Lia Ascii.

#[local] Set Warnings "-clear-no-such-hyp".

Local Open Scope Z_scope.

(** * The program *)

(** ** Transactions *)

Abbreviation bytes := string (only parsing).

(** The part of [transaction.Transaction] the block package reads through
    [Hash()], [KeyID()], [FullData], [Timestamp()], [IsSmartContract()] and
    [SmartContract()]. *)
Record Transaction : Type := mkTx {
  Hash : bytes;
  KeyID : Z;
  FullData : bytes;
  Timestamp : Z;
  IsSmartContract : bool;
  EcosystemID : Z;                (* SmartContract().TxSmart.EcosystemID *)
  TxContractName : option string; (* SmartContract().TxContract: nil or its Name *)
  ToID : Z                        (* SmartContract().TxSmart.UTXO.ToID *)
}.

#[global] Instance Transaction_eq_dec : EqDecision Transaction.
Proof. solve_decision. Defined.

(** ** The grouper *)

(** [strconv.Itoa(int(serial))] for a [uint16] serial. *)
Definition Itoa (n : Z) : string := pretty n.

(** [serial++] on a [uint16]. *)
Definition incSerial (n : Z) : Z := (n + 1) mod 65536.

(** [walletAddress[k] != 0]: a Go map read yields the zero value for a
    missing key. *)
Definition walletHas (walletAddress : gmap Z Z) (k : Z) : bool :=
  negb (default 0 (walletAddress !! k) =? 0).

(** The package-level variables of one grouper: [utxoTxsGroupMap],
    [utxoGroupTxsList], [utxoGroupSerial], and their [transferSelf]
    namesakes. *)
Record GroupVars : Type := mkGroupVars {
  TxsGroupMap : gmap string (list Transaction);
  GroupTxsList : list Transaction;
  GroupSerial : Z
}.

(** Their values at package initialisation, to which [ProcessTxs] resets
    them after each phase. *)
Definition initGroupVars : GroupVars := mkGroupVars ∅ [] 1.

Section GroupTxs.

(** The two groupers are the same text up to the condition of the second
    [if] and the writes into [walletAddress]. *)
Variable hit : gmap Z Z → Transaction → bool.
Variable note : gmap Z Z → Transaction → gmap Z Z.

(** The [for i := 0; i < size; i++] loop. [n] bounds the number of
    iterations; [length txs - i] decreases at each one, so [length txs]
    is enough (see [sweep_fuel]).  The result is the final [txs],
    [walletAddress] and group list. *)
Fixpoint sweep (n i : nat) (txs : list Transaction) (walletAddress : gmap Z Z)
    (groupTxsList : list Transaction)
    : list Transaction * gmap Z Z * list Transaction :=
  match n with
  | O => (txs, walletAddress, groupTxsList)
  | S n' =>
    match txs !! i with
    | None => (txs, walletAddress, groupTxsList)           (* i >= size *)
    | Some t =>
      if decide (size walletAddress = 0%nat) then
        (* txs = txs[1:]; i--; continue *)
        sweep n' i (drop 1 txs) (note walletAddress t) (groupTxsList ++ [t])
      else if hit walletAddress t then
        (* txs = append(txs[:i], txs[i+1:]...); i-- *)
        sweep n' i (take i txs ++ drop (S i) txs) (note walletAddress t)
              (groupTxsList ++ [t])
      else
        sweep n' (S i) txs walletAddress groupTxsList
    end
  end.

(** The recursive function.  [None] stands for "fuel exhausted"; see
    [groupTxs_total] for the fuel that always suffices. *)
Fixpoint groupTxs (fuel : nat) (txs : list Transaction) (walletAddress : gmap Z Z)
    (v : GroupVars) : option GroupVars :=
  match fuel with
  | O => None
  | S fuel' =>
    if decide (length txs = 0%nat) then Some v
    else
      let crrentGroupTxsSize := length (GroupTxsList v) in
      let '(txs', walletAddress', groupTxsList') :=
        sweep (length txs) 0 txs walletAddress (GroupTxsList v) in
      if decide (crrentGroupTxsSize < length groupTxsList')%nat then
        if decide (length txs' = 0%nat) then
          Some (mkGroupVars
                  (<[Itoa (GroupSerial v) := groupTxsList']> (TxsGroupMap v))
                  groupTxsList' (GroupSerial v))
        else
          groupTxs fuel' txs' walletAddress'
                   (mkGroupVars (TxsGroupMap v) groupTxsList' (GroupSerial v))
      else if decide (0 < length groupTxsList')%nat then
        groupTxs fuel' txs' ∅
                 (mkGroupVars
                    (<[Itoa (GroupSerial v) := groupTxsList']> (TxsGroupMap v))
                    [] (incSerial (GroupSerial v)))
      else
        groupTxs fuel' txs' walletAddress'
                 (mkGroupVars (TxsGroupMap v) groupTxsList' (GroupSerial v))
  end.

(** A call as [ProcessTxs] makes it: fresh [walletAddress], given
    package variables. *)
Definition groupFuel (txs : list Transaction) : nat := 2 * length txs + 2.

Definition groupCall (txs : list Transaction) (v : GroupVars) : option GroupVars :=
  groupTxs (groupFuel txs) txs ∅ v.
End GroupTxs.

(** [groupUtxoTxs]: both the sender and the recipient count. *)
Definition utxoHit (walletAddress : gmap Z Z) (t : Transaction) : bool :=
  walletHas walletAddress (KeyID t) || walletHas walletAddress (ToID t).

Definition utxoNote (walletAddress : gmap Z Z) (t : Transaction) : gmap Z Z :=
  <[ToID t := ToID t]> (<[KeyID t := KeyID t]> walletAddress).

Definition groupUtxoTxs := groupTxs utxoHit utxoNote.

Definition groupUtxoCall := groupCall utxoHit utxoNote.

(** [groupTransferSelfTxs]: only the sender counts. *)
Definition selfHit (walletAddress : gmap Z Z) (t : Transaction) : bool :=
  walletHas walletAddress (KeyID t).

Definition selfNote (walletAddress : gmap Z Z) (t : Transaction) : gmap Z Z :=
  <[KeyID t := KeyID t]> walletAddress.

Definition groupTransferSelfTxs := groupTxs selfHit selfNote.

Definition groupTransferSelfCall := groupCall selfHit selfNote.

(** ** Errors *)

(** Go [error] values as far as the block package tells them apart: the
    sentinels it compares with, errors known by their message only,
    errors that expose a cause to [errors.Cause], and the three
    [fmt.Errorf] forms of play.go. *)
Inductive error : Type :=
| ErrNetworkStopping                         (* transaction.ErrNetworkStopping *)
| ErrLimitStop                               (* transaction.ErrLimitStop *)
| ErrVMTimeLimit                             (* script.ErrVMTimeLimit *)
| ErrEmptyBlock                              (* block.ErrEmptyBlock *)
| ErrNew (msg : string)                      (* errors.New(msg), or any plain error *)
| ErrWithCause (msg : string) (cause : error) (* errors.Wrap and the like *)
| ErrComposed (e1 e2 : error)                (* fmt.Errorf("%v; %w", e1, e2) *)
| ErrUpdatingSyspar (e : error)              (* fmt.Errorf("updating syspar: %w", e) *)
| ErrParseTransaction (e : error).           (* fmt.Errorf("parse transaction error(%s)", e) *)

#[global] Instance error_eq_dec : EqDecision error.
Proof. solve_decision. Defined.

(** [errors.Cause] of github.com/pkg/errors: follows [Cause()] as long as
    the error has one; the values of [fmt.Errorf] have none. *)
Fixpoint Cause (e : error) : error :=
  match e with
  | ErrWithCause _ c => Cause c
  | _ => e
  end.

(** The messages of the four sentinels, which other packages define. *)
Record Messages : Type := mkMessages {
  msgNetworkStopping : string;
  msgLimitStop : string;
  msgVMTimeLimit : string;
  msgEmptyBlock : string
}.

(** [err.Error()]. *)
Fixpoint Error (ms : Messages) (e : error) : string :=
  match e with
  | ErrNetworkStopping => msgNetworkStopping ms
  | ErrLimitStop => msgLimitStop ms
  | ErrVMTimeLimit => msgVMTimeLimit ms
  | ErrEmptyBlock => msgEmptyBlock ms
  | ErrNew msg => msg
  | ErrWithCause msg _ => msg
  | ErrComposed e1 e2 => Error ms e1 +:+ "; " +:+ Error ms e2
  | ErrUpdatingSyspar e => "updating syspar: " +:+ Error ms e
  | ErrParseTransaction e => "parse transaction error(" +:+ Error ms e +:+ ")"
  end.

(** [strings.Contains]. *)
Fixpoint Contains (s substr : string) : bool :=
  String.prefix substr s
  || match s with
     | EmptyString => false
     | String _ s' => Contains s' substr
     end.

(** ** Data of a block play *)

(** A [notificator.Queue], as the notifications it holds. *)
Abbreviation Queue := (list string).

(** [pbgo.TxResult]. *)
Record TxResult : Type := mkTxResult {
  Code : Z;
  ResultBody : string
}.

(** [types.RollbackTx], by its content. *)
Abbreviation RollbackTx := string (only parsing).

(** [types.LogTransaction]. *)
Record LogTransaction : Type := mkLogTransaction {
  LtBlock : Z;
  LtHash : bytes;
  LtTxData : bytes;
  LtTimestamp : Z;
  LtAddress : Z;
  LtEcosystemId : Z;
  LtContractName : string;
  LtInvokeStatus : Z
}.

(** [types.AfterTx] and [types.AfterTxs]. *)
Record AfterTx : Type := mkAfterTx {
  UsedTx : bytes;
  Lts : LogTransaction;
  UpdTxStatus : TxResult
}.

Record AfterTxs : Type := mkAfterTxs {
  Rts : list RollbackTx;
  Txs : list AfterTx;
  TxBinLogSql : list bytes
}.

(** Modelled from the spec: the keys of [ClassifyTxsMap] and [txsMap],
    whose constants package types declares outside src/; the spec gives
    the transaction kinds as this closed set. *)
Inductive TxKind : Type :=
| StopNetworkTxType | FirstBlockTxType | DelayTxType
| TransferSelfTxType | UtxoTxType | SmartContractTxType.

#[global] Instance TxKind_eq_dec : EqDecision TxKind.
Proof. solve_decision. Defined.

(** The fields of [Block] that play reads and never writes.
    [ClassifyTxsMap] is given by its entries, in the order in which
    [range] visits them. *)
Record Block : Type := mkBlock {
  GenBlock : bool;
  IsGenesis : bool;
  Transactions : list Transaction;
  ClassifyTxsMap : list (TxKind * list bytes)
}.

(** What [transaction.UnmarshallTransaction] returns: a transaction, or
    an error together with the hash of the partial transaction when
    [t != nil && t.Hash() != nil]. *)
Inductive Unmarshalled : Type :=
| Parsed (t : Transaction)
| ParseFailed (err : error) (hash : option bytes).

(** What [t.Play()] returns and leaves in [t] for the executor to read. *)
Record Played : Type := mkPlayed {
  playErr : option error;
  tSysUpdate : bool;            (* t.SysUpdate *)
  tNotifications : Queue;       (* t.Notifications *)
  tTxResult : TxResult;         (* t.TxResult *)
  tRollBackTx : list RollbackTx;(* t.RollBackTx *)
  tBinLogSql : list bytes;      (* t.DbTransaction.BinLogSql *)
  tBlockId : Z                  (* t.BlockHeader.BlockId *)
}.

(** ** Calls into other packages *)

Inductive Event : Type :=
| EvStartTransaction                       (* sqldb.StartTransaction() *)
| EvRollback                               (* dbTx.Rollback() *)
| EvCommit                                 (* dbTx.Commit() *)
| EvInsertIntoBlockchain                   (* b.InsertIntoBlockchain(dbTx) *)
| EvSend (q : Queue)                       (* q.Send() *)
| EvUnmarshallTransaction (data : bytes)
| EvMarkTransactionBad (hash : bytes) (msg : string)
| EvBadTxForBan (keyID : Z)
| EvGetTxOutputs (keyIds : list Z)
| EvPutAllOutputsMap
| EvSavepoint (name : string)
| EvRollbackSavepoint (name : string)
| EvWithOption (t : Transaction)
| EvPlay (t : Transaction)
| EvPauseNodeActivity
| EvSysUpdate
| EvAfterPlayTxs
| EvUpdateTxInputs (hash : bytes)
| EvInsertTxOutputs (hash : bytes).

#[global] Instance Event_eq_dec : EqDecision Event.
Proof. solve_decision. Defined.

(** The other packages: what each call returns, given the calls made so
    far.  [schedule] is the order in which the goroutines of a parallel
    phase, one per entry of the group map, get hold of the lock. *)
Record Env : Type := mkEnv {
  messages : Messages;
  StartTransaction : list Event → option error;
  Commit : list Event → option error;
  InsertIntoBlockchain : list Event → option error;
  UnmarshallTransaction : bytes → list Event → Unmarshalled;
  MarkTransactionBad : bytes → string → list Event → option error;
  GetTxOutputs : list Z → list Event → option error;
  Savepoint : string → list Event → option error;
  RollbackSavepoint : string → list Event → option error;
  WithOption : Transaction → list Event → option error;
  Play : Transaction → list Event → Played;
  SysUpdate : list Event → option error;
  AfterPlayTxs : list Event → option error;
  BlockSyncMethodIsSQLDML : bool;   (* conf.Config.BlockSyncMethod.Method == SQLDML *)
  SetSavePointMarkBlock : string → string;
  schedule : list (string * list Transaction) → list (string * list Transaction)
}.

(** ** State *)

(** The state a block play works on: the calls made so far, the fields of
    [Block] that play writes, the locals [afters] and [processedTx] of
    [ProcessTxs] that [serialExecuteTxs] updates through pointers, and the
    package-level variables of the two groupers. *)
Record World : Type := mkWorld {
  trace : list Event;
  bTxFullData : list bytes;
  bAfterTxs : option AfterTxs;
  bSysUpdate : bool;
  bNotifications : list Queue;
  afters : AfterTxs;
  processedTx : list bytes;
  utxoVars : GroupVars;
  transferSelfVars : GroupVars
}.

Definition emit (e : Event) (w : World) : World :=
  mkWorld (trace w ++ [e]) (bTxFullData w) (bAfterTxs w) (bSysUpdate w)
          (bNotifications w) (afters w) (processedTx w) (utxoVars w)
          (transferSelfVars w).

Definition setTxFullData (x : list bytes) (w : World) : World :=
  mkWorld (trace w) x (bAfterTxs w) (bSysUpdate w) (bNotifications w) (afters w)
          (processedTx w) (utxoVars w) (transferSelfVars w).

Definition setAfterTxs (x : option AfterTxs) (w : World) : World :=
  mkWorld (trace w) (bTxFullData w) x (bSysUpdate w) (bNotifications w) (afters w)
          (processedTx w) (utxoVars w) (transferSelfVars w).

Definition setSysUpdate (x : bool) (w : World) : World :=
  mkWorld (trace w) (bTxFullData w) (bAfterTxs w) x (bNotifications w) (afters w)
          (processedTx w) (utxoVars w) (transferSelfVars w).

Definition setNotifications (x : list Queue) (w : World) : World :=
  mkWorld (trace w) (bTxFullData w) (bAfterTxs w) (bSysUpdate w) x (afters w)
          (processedTx w) (utxoVars w) (transferSelfVars w).

Definition setAfters (x : AfterTxs) (w : World) : World :=
  mkWorld (trace w) (bTxFullData w) (bAfterTxs w) (bSysUpdate w) (bNotifications w) x
          (processedTx w) (utxoVars w) (transferSelfVars w).

Definition setProcessedTx (x : list bytes) (w : World) : World :=
  mkWorld (trace w) (bTxFullData w) (bAfterTxs w) (bSysUpdate w) (bNotifications w)
          (afters w) x (utxoVars w) (transferSelfVars w).

Definition setUtxoVars (x : GroupVars) (w : World) : World :=
  mkWorld (trace w) (bTxFullData w) (bAfterTxs w) (bSysUpdate w) (bNotifications w)
          (afters w) (processedTx w) x (transferSelfVars w).

Definition setTransferSelfVars (x : GroupVars) (w : World) : World :=
  mkWorld (trace w) (bTxFullData w) (bAfterTxs w) (bSysUpdate w) (bNotifications w)
          (afters w) (processedTx w) (utxoVars w) x.

(** Several calls in a row. *)
Definition emitAll (l : list Event) (w : World) : World :=
  mkWorld (trace w ++ l) (bTxFullData w) (bAfterTxs w) (bSysUpdate w)
          (bNotifications w) (afters w) (processedTx w) (utxoVars w)
          (transferSelfVars w).

(** A call whose result is used: the result for the calls so far, and the
    world with the call recorded. *)
Definition ask {A : Type} (f : list Event → A) (e : Event) (w : World) : A * World :=
  (f (trace w), emit e w).

(** [hex.EncodeToString]. *)
Definition hexDigit (n : N) : Ascii.ascii :=
  match n with
  | 0 => "0" | 1 => "1" | 2 => "2" | 3 => "3" | 4 => "4" | 5 => "5" | 6 => "6"
  | 7 => "7" | 8 => "8" | 9 => "9" | 10 => "a" | 11 => "b" | 12 => "c"
  | 13 => "d" | 14 => "e" | _ => "f"
  end%N%char.

Fixpoint EncodeToString (src : bytes) : string :=
  match src with
  | EmptyString => EmptyString
  | String c s =>
    String (hexDigit (Ascii.N_of_ascii c / 16)%N)
           (String (hexDigit (Ascii.N_of_ascii c mod 16)%N) (EncodeToString s))
  end.

(** ** serialExecuteTxs *)

Section Play.

Variable env : Env.
Variable b : Block.

(** [consts.SetSavePointMarkBlock(hex.EncodeToString(t.Hash()))]. *)
Definition savePointName (t : Transaction) : string :=
  SetSavePointMarkBlock env (EncodeToString (Hash t)).

(** The [after] record of an accepted transaction and the appends to
    [afters] (lines 304 to 331). *)
Definition afterOf (t : Transaction) (p : Played) : AfterTx :=
  let eco := if IsSmartContract t then EcosystemID t else 0 in
  let code := if IsSmartContract t then Code (tTxResult p) else 0 in
  let contract :=
    if IsSmartContract t then default EmptyString (TxContractName t)
    else EmptyString in
  mkAfterTx (Hash t)
            (mkLogTransaction (tBlockId p) (Hash t) (FullData t) (Timestamp t)
                              (KeyID t) eco contract code)
            (tTxResult p).

Definition appendAfters (t : Transaction) (p : Played) (a : AfterTxs) : AfterTxs :=
  mkAfterTxs (Rts a ++ tRollBackTx p) (Txs a ++ [afterOf t p])
             (TxBinLogSql a ++ tBinLogSql p).

(** What the loop body does with a transaction whose [Play] succeeded
    (lines 295 to 335). *)
Definition accept (t : Transaction) (p : Played) (w : World) : World :=
  let w := if tSysUpdate p then setSysUpdate true w else w in
  let w :=
    if decide (0 < length (tNotifications p))%nat
    then setNotifications (bNotifications w ++ [tNotifications p]) w else w in
  let w := setAfters (appendAfters t p (afters w)) w in
  let w := setProcessedTx (processedTx w ++ [FullData t]) w in
  let w := emit (EvUpdateTxInputs (Hash t)) w in
  emit (EvInsertTxOutputs (Hash t)) w.

(** The [for curTx := 0; curTx < len(txs); curTx++] loop, on the
    transactions from index [curTx] on.  [genBErr] is the parameter of
    [serialExecuteTxs] of that name: the loop assigns to it, and the
    function returns its [error] result only.  The lock is held from the
    first iteration to the return, so the iterations of one call are not
    interleaved with those of another. *)
Fixpoint serialLoop (curTx : nat) (txs : list Transaction) (genBErr : option error)
    (w : World) : option error * World :=
  match txs with
  | [] => (None, w)
  | t :: rest =>
    let '(err, w) :=
      ask (Savepoint env (savePointName t)) (EvSavepoint (savePointName t)) w in
    match err with
    | Some err => (Some err, w)
    | None =>
      let '(err, w) := ask (WithOption env t) (EvWithOption t) w in
      match err with
      | Some err => (Some err, w)
      | None =>
        let '(p, w) := ask (Play env t) (EvPlay t) w in
        match playErr p with
        | Some err =>
          if decide (err = ErrNetworkStopping) then
            (Some err, emit EvPauseNodeActivity w)
          else
            let '(errRoll, w) :=
              ask (RollbackSavepoint env (savePointName t))
                  (EvRollbackSavepoint (savePointName t)) w in
            match errRoll with
            | Some errRoll => (Some (ErrComposed err errRoll), w)
            | None =>
              if GenBlock b && bool_decide (Cause err = ErrLimitStop) then
                if decide (curTx = 0%nat) then (Some err, w)
                else (None, w)                                    (* break *)
              else
                let err :=
                  if GenBlock b
                     && Contains (Error (messages env) err)
                                 (Error (messages env) ErrVMTimeLimit)
                  then ErrVMTimeLimit else err in
                let w :=
                  if IsSmartContract t then emit (EvBadTxForBan (KeyID t)) w else w in
                let w :=
                  emit (EvMarkTransactionBad (Hash t) (Error (messages env) err)) w in
                let '(errSys, w) :=
                  if tSysUpdate p then ask (SysUpdate env) EvSysUpdate w
                  else (None, w) in
                match errSys with
                | Some errSys => (Some (ErrUpdatingSyspar errSys), w)
                | None =>
                  if GenBlock b then
                    (* genBErr = err; continue *)
                    serialLoop (S curTx) rest (Some err) w
                  else (Some err, w)
                end
            end
        | None => serialLoop (S curTx) rest genBErr (accept t p w)
        end
      end
    end
  end.

Definition serialExecuteTxs (txs : list Transaction) (genBErr : option error)
    (w : World) : option error * World :=
  serialLoop 0 txs genBErr w.

(** ** ProcessTxs *)

(** The inner loop of lines 89 to 99: the transactions of one class that
    unmarshal; the others are marked bad when their hash is known. *)
Fixpoint unmarshalClass (txs : list bytes) (w : World) : list Transaction * World :=
  match txs with
  | [] => ([], w)
  | txBytes :: rest =>
    let '(r, w) := ask (UnmarshallTransaction env txBytes)
                       (EvUnmarshallTransaction txBytes) w in
    match r with
    | ParseFailed err hash =>
      let w := match hash with
               | Some h => emit (EvMarkTransactionBad h (Error (messages env) err)) w
               | None => w
               end in
      unmarshalClass rest w
    | Parsed t =>
      let '(ts, w) := unmarshalClass rest w in (t :: ts, w)
    end
  end.

(** [txsMap]: a Go map read yields the empty list for a missing key. *)
Definition TxsMap : Type := TxKind → list Transaction.

Definition setKind (k : TxKind) (txs : list Transaction) (m : TxsMap) : TxsMap :=
  λ k', if decide (k' = k) then txs else m k'.

(** [delete(txsMap, k)]. *)
Definition deleteKind (k : TxKind) (m : TxsMap) : TxsMap := setKind k [] m.

(** The outer loop of lines 87 to 101. *)
Fixpoint unmarshalClasses (classes : list (TxKind * list bytes)) (m : TxsMap)
    (w : World) : TxsMap * World :=
  match classes with
  | [] => (m, w)
  | (k, txs) :: rest =>
    let '(transactions, w) := unmarshalClass txs w in
    unmarshalClasses rest (setKind k transactions m) w
  end.

(** The loop of the genesis phase (lines 161 to 170): the first
    transaction that does not unmarshal ends [ProcessTxs]. *)
Fixpoint unmarshalGenesis (txs : list Transaction) (w : World)
    : (error + list Transaction) * World :=
  match txs with
  | [] => (inr [], w)
  | tx :: rest =>
    let '(r, w) := ask (UnmarshallTransaction env (FullData tx))
                       (EvUnmarshallTransaction (FullData tx)) w in
    match r with
    | ParseFailed err hash =>
      let w := match hash with
               | Some h => emit (EvMarkTransactionBad h (Error (messages env) err)) w
               | None => w
               end in
      (inl (ErrParseTransaction err), w)
    | Parsed t =>
      let '(r', w) := unmarshalGenesis rest w in
      match r' with
      | inl e => (inl e, w)
      | inr ts => (inr (t :: ts), w)
      end
    end
  end.

(** The goroutines of a parallel phase, in the order in which they get
    the lock.  Each runs [serialExecuteTxs] on its group and drops the
    error it returns. *)
Fixpoint runGroups (groups : list (string * list Transaction)) (genBErr : option error)
    (w : World) : World :=
  match groups with
  | [] => w
  | (_, transactions) :: rest =>
    let '(_, w) := serialExecuteTxs transactions genBErr w in
    runGroups rest genBErr w
  end.

(** A call of a grouper from [ProcessTxs], which always returns
    ([groupCall_total]). *)
Definition groupTransferSelfRun (txs : list Transaction) (v : GroupVars) : GroupVars :=
  default v (groupTransferSelfCall txs v).

Definition groupUtxoRun (txs : list Transaction) (v : GroupVars) : GroupVars :=
  default v (groupUtxoCall txs v).

(** A serial phase (lines 149 to 156 and 179 to 186). *)
Definition serialPhase (k : TxKind) (genBErr : option error) (m : TxsMap) (w : World)
    : option error * TxsMap * World :=
  if decide (0 < length (m k))%nat then
    let '(err, w) := serialExecuteTxs (m k) genBErr w in
    (err, deleteKind k m, w)
  else (None, m, w).

(** The genesis phase (lines 159 to 176). *)
Definition genesisPhase (genBErr : option error) (w : World) : option error * World :=
  if IsGenesis b then
    let '(r, w) := unmarshalGenesis (Transactions b) w in
    match r with
    | inl e => (Some e, w)
    | inr transactions => serialExecuteTxs transactions genBErr w
    end
  else (None, w).

(** The TransferSelf phase (lines 189 to 209). *)
Definition transferSelfPhase (genBErr : option error) (m : TxsMap) (w : World)
    : TxsMap * World :=
  if decide (0 < length (m TransferSelfTxType))%nat then
    let vars := groupTransferSelfRun (m TransferSelfTxType) (transferSelfVars w) in
    let w := setTransferSelfVars vars w in
    let w := runGroups (schedule env (map_to_list (TxsGroupMap vars))) genBErr w in
    (deleteKind TransferSelfTxType m, setTransferSelfVars initGroupVars w)
  else (m, w).

(** The UTXO and smart-contract phase (lines 212 to 236). *)
Definition utxoPhase (genBErr : option error) (m : TxsMap) (w : World)
    : TxsMap * World :=
  if bool_decide (0 < length (m UtxoTxType))%nat
     || bool_decide (0 < length (m SmartContractTxType))%nat then
    let vars := groupUtxoRun (m UtxoTxType) (utxoVars w) in
    let vars :=
      if decide (0 < length (m SmartContractTxType))%nat then
        mkGroupVars (<[Itoa 0 := m SmartContractTxType]> (TxsGroupMap vars))
                    (GroupTxsList vars) (GroupSerial vars)
      else vars in
    let w := setUtxoVars vars w in
    let w := runGroups (schedule env (map_to_list (TxsGroupMap vars))) genBErr w in
    (deleteKind SmartContractTxType (deleteKind UtxoTxType m),
     setUtxoVars initGroupVars w)
  else (m, w).

(** Lines 125 to 238: the body of [ProcessTxs] after its [defer]. *)
Definition processBody (genBErr : option error) (m : TxsMap) (w : World)
    : option error * World :=
  if negb (GenBlock b) && negb (IsGenesis b) && BlockSyncMethodIsSQLDML env then
    if bSysUpdate w then
      let '(err, w) := ask (SysUpdate env) EvSysUpdate w in
      match err with
      | Some err => (Some (ErrUpdatingSyspar err), w)
      | None => (None, w)
      end
    else (None, w)
  else
    let keyIds := map KeyID (Transactions b) in
    let '(err, w) := ask (GetTxOutputs env keyIds) (EvGetTxOutputs keyIds) w in
    match err with
    | Some err => (Some err, w)
    | None =>
      let w := emit EvPutAllOutputsMap w in
      let '(err, m, w) := serialPhase StopNetworkTxType genBErr m w in
      match err with
      | Some err => (Some err, w)
      | None =>
        let '(err, w) := genesisPhase genBErr w in
        match err with
        | Some err => (Some err, w)
        | None =>
          let '(err, m, w) := serialPhase DelayTxType genBErr m w in
          match err with
          | Some err => (Some err, w)
          | None =>
            let '(m, w) := transferSelfPhase genBErr m w in
            let '(m, w) := utxoPhase genBErr m w in
            (None, w)
          end
        end
      end
    end.

(** The deferred function of [ProcessTxs] (lines 106 to 124), applied to
    the named result [err] when the body returns. *)
Definition processDeferred (genBErr : option error) (r : option error * World)
    : option error * World :=
  let '(err, w) := r in
  let w := if IsGenesis b || GenBlock b then setAfterTxs (Some (afters w)) w else w in
  let w := if GenBlock b then setTxFullData (processedTx w) w else w in
  let err := match genBErr with Some e => Some e | None => err end in
  let '(errA, w) := ask (AfterPlayTxs env) EvAfterPlayTxs w in
  match errA with
  | Some errA =>
    match err with
    | None => (Some errA, w)
    | Some err => (Some (ErrComposed err errA), w)
    end
  | None => (err, w)
  end.

(** Lines 81 to 105: [afters], [txsMap] and [processedTx]. *)
Definition processPrelude (w : World) : TxsMap * World :=
  let w := setAfters (mkAfterTxs [] [] []) w in
  let '(txsMap, w) := unmarshalClasses (ClassifyTxsMap b) (λ _, []) w in
  (txsMap, setProcessedTx [] w).

Definition ProcessTxs (w : World) : option error * World :=
  let '(txsMap, w) := processPrelude w in
  let genBErr : option error := None in          (* var genBErr error *)
  processDeferred genBErr (processBody genBErr txsMap w).

(** ** PlaySafe *)

(** [strconv.FormatInt(k, 10)]. *)
Definition FormatInt (k : Z) : string := pretty k.

(** The loop of lines 46 to 56.  [msg] is [err.Error()] of the error of
    [ProcessTxs]; the result is the error of [MarkTransactionBad] that
    ends [PlaySafe], if any. *)
Fixpoint banLoop (msg : string) (inputTx : list Transaction) (banK : gset string)
    (w : World) : option error * World :=
  match inputTx with
  | [] => (None, w)
  | t :: rest =>
    let k := FormatInt (KeyID t) in
    if bool_decide (k ∉ banK) && IsSmartContract t then
      banLoop msg rest ({[k]} ∪ banK) (emit (EvBadTxForBan (KeyID t)) w)
    else
      let '(err, w) := ask (MarkTransactionBad env (Hash t) msg)
                           (EvMarkTransactionBad (Hash t) msg) w in
      match err with
      | Some err => (Some err, w)
      | None => banLoop msg rest banK w
      end
  end.

(** [q.Send()] for each queue of [b.Notifications]. *)
Definition sendAll (w : World) : World :=
  foldl (λ w q, emit (EvSend q) w) w (bNotifications w).

Definition PlaySafe (w : World) : option error * World :=
  let '(err, w) := ask (StartTransaction env) EvStartTransaction w in
  match err with
  | Some err => (Some err, w)
  | None =>
    let inputTx := Transactions b in
    let '(err, w) := ProcessTxs w in
    match err with
    | Some err =>
      let w := emit EvRollback w in
      if GenBlock b && bool_decide (length (bTxFullData w) = 0%nat) then
        let '(errMark, w) := banLoop (Error (messages env) err) inputTx ∅ w in
        match errMark with
        | Some errMark => (Some errMark, w)
        | None => (Some err, w)
        end
      else (Some err, w)
    | None =>
      if GenBlock b && bool_decide (length (bTxFullData w) = 0%nat) then
        (Some ErrEmptyBlock, emit EvCommit w)
      else
        let '(err, w) := ask (InsertIntoBlockchain env) EvInsertIntoBlockchain w in
        match err with
        | Some err => (Some err, emit EvRollback w)
        | None =>
          let '(err, w) := ask (Commit env) EvCommit w in
          match err with
          | Some err => (Some err, w)
          | None => (None, sendAll w)
          end
        end
    end
  end.
End Play.

(** * The vocabulary of the properties *)

(** ** The sweep, read off the list *)

Section SweepSpec.
Variable hit : gmap Z Z → Transaction → bool.
Variable note : gmap Z Z → Transaction → gmap Z Z.

(** The sweep over a non-empty [walletAddress], read off the list:
    [kept] are the transactions already passed over. *)
Fixpoint pick (rest : list Transaction) (wa : gmap Z Z)
    (grp kept : list Transaction)
    : list Transaction * gmap Z Z * list Transaction :=
  match rest with
  | [] => (kept, wa, grp)
  | t :: r =>
    if hit wa t then pick r (note wa t) (grp ++ [t]) kept
    else pick r wa grp (kept ++ [t])
  end.

(** [walletAddress] after the writes for the transactions [l]. *)
Definition notes (wa : gmap Z Z) (l : list Transaction) : gmap Z Z :=
  foldl note wa l.
End SweepSpec.

(** The measure that decreases from call to call when a non-empty
    [walletAddress] comes with a non-empty current group. *)
Definition groupMeasure (txs l : list Transaction) : nat :=
  2 * length txs + (if decide (l = []) then 0 else 1).

(** ** Order inside a group *)

(** What holds of the order in any group, for both groupers: the group
    starts with its seed, and the rest of the group comes from the
    transactions after the seed in the input. *)
Definition seedFirst (inp grp : list Transaction) : Prop :=
  ∃ t r rest, grp = t :: rest ∧ (t :: r) `sublist_of` inp ∧ rest ⊆+ r.

(** The invariants of the recursion behind the order of a group, for
    the input [inp]: of either grouper, and of the TransferSelf grouper. *)
Definition orderInv (inp txs : list Transaction) (wa : gmap Z Z) (v : GroupVars)
    : Prop :=
  txs `sublist_of` inp
  ∧ (∀ g grp, TxsGroupMap v !! g = Some grp → seedFirst inp grp)
  ∧ ((GroupTxsList v = [] ∧ size wa = 0%nat)
     ∨ (size wa ≠ 0%nat
        ∧ ∃ t r rest, GroupTxsList v = t :: rest
                      ∧ (t :: r) `sublist_of` inp ∧ rest ++ txs ⊆+ r)).

Definition selfInv (inp txs : list Transaction) (wa : gmap Z Z) (v : GroupVars)
    : Prop :=
  txs `sublist_of` inp
  ∧ (∀ g grp, TxsGroupMap v !! g = Some grp → grp `sublist_of` inp)
  ∧ ((GroupTxsList v = [] ∧ wa = ∅)
     ∨ (∃ k, wa = {[k := k]} ∧ GroupTxsList v `sublist_of` inp
             ∧ Forall (λ t, selfHit wa t = false) txs)).

Section SweepOrder.
Variable hit : gmap Z Z → Transaction → bool.
Variable note : gmap Z Z → Transaction → gmap Z Z.

(** The sweeps [ss], made one after the other over the transactions
    [rem] from the [walletAddress] [wa], leave [left].  A sweep goes
    through the transactions in the order of the list and picks those
    that hit the [walletAddress] as it stands when the sweep gets to
    them; the next sweep goes through what the sweep left. *)
Fixpoint sweepsTo (wa : gmap Z Z) (rem : list Transaction)
    (ss : list (list Transaction)) (left : list Transaction) : Prop :=
  match ss with
  | [] => left = rem
  | s :: ss' =>
    ∃ mid, pick hit note rem wa [] [] = (mid, notes note wa s, s)
           ∧ sweepsTo (notes note wa s) mid ss' left
  end.

(** What holds of the order in a group: the group is its seed followed
    by what the successive sweeps picked, sweep after sweep, from the
    transactions [rem] that were left after the seed when the group was
    started, until no transaction left hits the [walletAddress].  Every
    sweep lists its transactions in input order. *)
Definition sweepOrder (inp grp : list Transaction) : Prop :=
  ∃ seed rem ss left,
    grp = seed :: mjoin ss
    ∧ (seed :: rem) `sublist_of` inp
    ∧ sweepsTo (note ∅ seed) rem ss left
    ∧ Forall (λ t, hit (notes note (note ∅ seed) (mjoin ss)) t = false) left
    ∧ Forall (λ s, s `sublist_of` rem) ss.

(** The invariant of the recursion behind [sweepOrder], for the input
    [inp]. *)
Definition sweepInv (inp txs : list Transaction) (wa : gmap Z Z) (v : GroupVars)
    : Prop :=
  txs `sublist_of` inp
  ∧ (∀ g grp, TxsGroupMap v !! g = Some grp → sweepOrder inp grp)
  ∧ ((GroupTxsList v = [] ∧ size wa = 0%nat)
     ∨ (∃ seed rem ss,
          GroupTxsList v = seed :: mjoin ss
          ∧ (seed :: rem) `sublist_of` inp
          ∧ wa = notes note (note ∅ seed) (mjoin ss)
          ∧ sweepsTo (note ∅ seed) rem ss txs)).
End SweepOrder.

(** C8 as it was stated: every group is a subsequence of the input. *)
Definition orderPreserved (inp : list Transaction)
    (m : gmap string (list Transaction)) : Prop :=
  ∀ g grp, m !! g = Some grp → grp `sublist_of` inp.

(** ** Account sets of groups *)

Section AccountSpec.
(** The accounts a grouper looks at in a transaction. *)
Variable accounts : Transaction → list Z.

(** [k] is an account of the transaction list [grp]. *)
Definition accountOf (grp : list Transaction) (k : Z) : Prop :=
  ∃ t, t ∈ grp ∧ k ∈ accounts t.

Definition disjointGroups (grp grp' : list Transaction) : Prop :=
  ∀ k, accountOf grp k → ¬ accountOf grp' k.

(** Any two groups stored under different keys have disjoint account
    sets. *)
Definition pairwiseDisjoint (m : gmap string (list Transaction)) : Prop :=
  ∀ g g' grp grp', g ≠ g' → m !! g = Some grp → m !! g' = Some grp' →
    disjointGroups grp grp'.

(** The invariant of the recursion: [walletAddress] covers the accounts
    of the current group, and the stored groups share no account with
    each other, with the current group or with the remaining
    transactions. *)
Definition disjInv (txs : list Transaction) (wa : gmap Z Z) (v : GroupVars) : Prop :=
  (∀ k, accountOf (GroupTxsList v) k → wa !! k = Some k)
  ∧ (∀ k, accountOf txs k → k ≠ 0)
  ∧ (∀ g grp, TxsGroupMap v !! g = Some grp →
       disjointGroups grp (GroupTxsList v ++ txs))
  ∧ pairwiseDisjoint (TxsGroupMap v).
End AccountSpec.

Definition utxoAccounts (t : Transaction) : list Z := [KeyID t; ToID t].

Definition selfAccounts (t : Transaction) : list Z := [KeyID t].

(** ** Traces *)

(** The calls [ProcessTxs] and the functions below it can make: all but
    those of [PlaySafe] itself. *)
Definition playEvent (e : Event) : bool :=
  match e with
  | EvStartTransaction | EvRollback | EvCommit | EvInsertIntoBlockchain | EvSend _ => false
  | _ => true
  end.

(** [w'] comes from [w] by calls that satisfy [P]. *)
Definition grows (P : Event → bool) (w w' : World) : Prop :=
  ∃ l, trace w' = trace w ++ l ∧ forallb P l = true.

(** The calls a block play made, from the world it started in. *)
Definition newEvents (w w' : World) : list Event :=
  drop (length (trace w)) (trace w').

(** The calls that open an iteration. *)
Definition enterEvents (env : Env) (t : Transaction) : list Event :=
  [EvSavepoint (savePointName env t); EvWithOption t; EvPlay t].

(** In world [w], the iteration for [t] gets as far as [t.Play()], which
    leaves [p]. *)
Definition reachesPlay (env : Env) (t : Transaction) (w : World) (p : Played) : Prop :=
  Savepoint env (savePointName env t) (trace w) = None
  ∧ WithOption env t (trace w ++ [EvSavepoint (savePointName env t)]) = None
  ∧ Play env t (trace w ++ [EvSavepoint (savePointName env t); EvWithOption t]) = p.

(** The calls of the failure path after the savepoint rollback, for a
    transaction that is marked bad with the error [err]. *)
Definition rejectEvents (env : Env) (t : Transaction) (err : error) : list Event :=
  (if IsSmartContract t then [EvBadTxForBan (KeyID t)] else [])
  ++ [EvMarkTransactionBad (Hash t) (Error (messages env) err)].

(** The error a rejected transaction is marked bad with in generation
    mode (lines 274 to 276). *)
Definition normalized (env : Env) (err : error) : error :=
  if Contains (Error (messages env) err) (Error (messages env) ErrVMTimeLimit)
  then ErrVMTimeLimit else err.





(** The calls of a block play that accepts [tx_ok], rejects [tx_bad] for
    the error [e] and accepts [tx_ok2], in order; [sys] is the parameter
    update of the failing transaction, made when it has [SysUpdate] set. *)
Definition scenarioEvents (env : Env) (tx_ok tx_bad tx_ok2 : Transaction) (e : error)
    (sys : list Event) (sends : list Queue) : list Event :=
  [EvStartTransaction;
   EvUnmarshallTransaction (FullData tx_ok);
   EvUnmarshallTransaction (FullData tx_bad);
   EvUnmarshallTransaction (FullData tx_ok2);
   EvGetTxOutputs [KeyID tx_ok; KeyID tx_bad; KeyID tx_ok2];
   EvPutAllOutputsMap]
  ++ enterEvents env tx_ok
  ++ [EvUpdateTxInputs (Hash tx_ok); EvInsertTxOutputs (Hash tx_ok)]
  ++ enterEvents env tx_bad
  ++ [EvRollbackSavepoint (savePointName env tx_bad); EvBadTxForBan (KeyID tx_bad);
      EvMarkTransactionBad (Hash tx_bad) (Error (messages env) (normalized env e))]
  ++ sys ++ enterEvents env tx_ok2
  ++ [EvUpdateTxInputs (Hash tx_ok2); EvInsertTxOutputs (Hash tx_ok2);
      EvAfterPlayTxs; EvInsertIntoBlockchain; EvCommit]
  ++ (EvSend <$> sends).

(** ** The ban pass of PlaySafe *)

(** The calls of the ban pass as the specification words them: the
    sender of a smart-contract transaction is registered for banning
    unless an earlier transaction of the pass already had it registered,
    and every transaction that registers nothing is marked bad.  [banned]
    are the senders registered so far. *)
Fixpoint banPassEvents (msg : string) (banned : list Z) (inputTx : list Transaction)
    : list Event :=
  match inputTx with
  | [] => []
  | t :: rest =>
    if IsSmartContract t && bool_decide (KeyID t ∉ banned)
    then EvBadTxForBan (KeyID t) :: banPassEvents msg (KeyID t :: banned) rest
    else EvMarkTransactionBad (Hash t) msg :: banPassEvents msg banned rest
  end.

(** The senders registered after the pass over [inputTx]. *)
Fixpoint bannedBy (banned : list Z) (inputTx : list Transaction) : list Z :=
  match inputTx with
  | [] => banned
  | t :: rest =>
    if IsSmartContract t && bool_decide (KeyID t ∉ banned)
    then bannedBy (KeyID t :: banned) rest
    else bannedBy banned rest
  end.

(** The senders of the [BadTxForBan] calls in a trace. *)
Definition bannedKeys (evs : list Event) : list Z :=
  omap (λ e, match e with EvBadTxForBan k => Some k | _ => None end) evs.

(** [t], at index [i] of [inputTx], is the first smart-contract
    transaction of its sender. *)
Definition firstOfSender (inputTx : list Transaction) (i : nat) (t : Transaction) : bool :=
  IsSmartContract t
  && bool_decide (Forall (λ t', ¬ (IsSmartContract t' = true ∧ KeyID t' = KeyID t))
                         (take i inputTx)).

(** The [banK] of the code for the senders [banned]. *)
Definition banSet (banned : list Z) : gset string :=
  list_to_set (FormatInt <$> banned).

(** Every [MarkTransactionBad] that the ban pass makes for the
    transactions [pre], after the calls [h], succeeds when it is made. *)
Definition marksSucceed (env : Env) (msg : string) (h : list Event)
    (pre : list Transaction) : Prop :=
  ∀ p1 t p2, pre = p1 ++ t :: p2 →
    firstOfSender pre (length p1) t = false →
    MarkTransactionBad env (Hash t) msg (h ++ banPassEvents msg [] p1) = None.

(** ** The package variables of the groupers between block plays *)

(** [w'] has the package variables of [w]. *)
Definition keepsVars (w w' : World) : Prop :=
  utxoVars w' = utxoVars w ∧ transferSelfVars w' = transferSelfVars w.

(** The package variables are at their initial values. *)
Definition varsReset (w : World) : Prop :=
  utxoVars w = initGroupVars ∧ transferSelfVars w = initGroupVars.

(** ** The groups as a partition of the input *)

(** The transactions of all groups of a group map. *)
Definition grouped (m : gmap string (list Transaction)) : list Transaction :=
  mjoin ((map_to_list m).*2).

(** The keys of [m] are the decimal numerals of 1 to [n]. *)
Definition keysUpTo (m : gmap string (list Transaction)) (n : Z) : Prop :=
  ∀ g, is_Some (m !! g) ↔ ∃ s, g = Itoa s ∧ 1 ≤ s ≤ n.

(** The invariant of the recursion behind the partition, for the input
    [inp]: the stored groups, the current group and the remaining
    transactions make up the input, the stored groups have the serials
    below the current one, and there are enough serials left. *)
Definition partInv (inp txs : list Transaction) (v : GroupVars) : Prop :=
  grouped (TxsGroupMap v) ++ GroupTxsList v ++ txs ≡ₚ inp
  ∧ keysUpTo (TxsGroupMap v) (GroupSerial v - 1)
  ∧ (∀ g grp, TxsGroupMap v !! g = Some grp → grp ≠ [])
  ∧ 1 ≤ GroupSerial v
  ∧ GroupSerial v - 1 + (if decide (GroupTxsList v = []) then 0 else 1)
    + Z.of_nat (length txs) ≤ Z.of_nat (length inp)
  ∧ (txs = [] → GroupTxsList v = []).

(** The groups of [m] are stored under the serials 1 to [n], for an [n]
    that is at most the length of the input, and none is empty. *)
Definition serialKeyed (inp : list Transaction) (m : gmap string (list Transaction))
    : Prop :=
  (∃ n, 0 ≤ n ≤ Z.of_nat (length inp) ∧ keysUpTo m n)
  ∧ (∀ g grp, m !! g = Some grp → grp ≠ []).

(** What a call returns for the input [inp]. *)
Definition partitioned (inp : list Transaction) (m : gmap string (list Transaction))
    : Prop :=
  grouped m ≡ₚ inp ∧ serialKeyed inp m.

(** ** Why a transaction is in its group *)

Section LinkSpec.
Variable accounts : Transaction → list Z.

(** Every transaction of [grp] but the first shares an account other
    than 0 with a transaction before it in [grp]. *)
Definition linked (grp : list Transaction) : Prop :=
  ∀ pre t post, grp = pre ++ t :: post → pre ≠ [] →
    ∃ k, k ≠ 0 ∧ k ∈ accounts t ∧ accountOf accounts pre k.
End LinkSpec.

Section JoinSpec.
Variable hit : gmap Z Z → Transaction → bool.
Variable note : gmap Z Z → Transaction → gmap Z Z.

(** Every transaction of [grp] but the first passed the test of the
    sweep on the [walletAddress] written for those before it. *)
Definition joinedBy (grp : list Transaction) : Prop :=
  ∀ pre t post, grp = pre ++ t :: post → pre ≠ [] →
    hit (notes note ∅ pre) t = true.

(** The invariant of the recursion for [joinedBy]: it holds of the current
    group, whose notes are the [walletAddress], and of every stored
    group. *)
Definition joinInv (wa : gmap Z Z) (v : GroupVars) : Prop :=
  wa = notes note ∅ (GroupTxsList v)
  ∧ joinedBy (GroupTxsList v)
  ∧ ∀ g grp, TxsGroupMap v !! g = Some grp → joinedBy grp.
End JoinSpec.

(** ** The serial of a group is a uint16 *)

(** The group map after one group per transaction of [txs] was stored,
    from the serial [s] on. *)
Fixpoint storeSingles (s : Z) (txs : list Transaction)
    (m : gmap string (list Transaction)) : gmap string (list Transaction) :=
  match txs with
  | [] => m
  | t :: r => storeSingles (incSerial s) r (<[Itoa s := [t]]> m)
  end.

(** The invariant of the recursion of the TransferSelf grouper on
    transactions of different senders, none of them 0: the current group
    holds at most one transaction, and storing it and the remaining
    transactions one by one gives the map [final]. *)
Definition singlesInv (final : gmap string (list Transaction))
    (txs : list Transaction) (wa : gmap Z Z) (v : GroupVars) : Prop :=
  NoDup (KeyID <$> GroupTxsList v ++ txs)
  ∧ Forall (λ t, KeyID t ≠ 0) (GroupTxsList v ++ txs)
  ∧ ((GroupTxsList v = [] ∧ wa = ∅)
     ∨ (∃ t, GroupTxsList v = [t] ∧ wa = {[KeyID t := KeyID t]}))
  ∧ storeSingles (GroupSerial v) (GroupTxsList v ++ txs) (TxsGroupMap v) = final
  ∧ (txs = [] → GroupTxsList v = []).

(** ** The calls of one iteration of the executor *)

(** The calls of the failure path that follow the savepoint rollback. *)
Definition markEvent (e : Event) : bool :=
  match e with
  | EvBadTxForBan _ | EvMarkTransactionBad _ _ | EvSysUpdate => true
  | _ => false
  end.

(** The calls of an iteration that rolls back to the savepoint of [t]. *)
Definition failCalls (env : Env) (t : Transaction) (tail : list Event) : list Event :=
  enterEvents env t ++ EvRollbackSavepoint (savePointName env t) :: tail.

(** The calls of an iteration that accepts [t]. *)
Definition acceptCalls (env : Env) (t : Transaction) : list Event :=
  enterEvents env t ++ [EvUpdateTxInputs (Hash t); EvInsertTxOutputs (Hash t)].

(** The calls one iteration for [t] can make. *)
Definition callsOf (env : Env) (t : Transaction) (l : list Event) : Prop :=
  l = [EvSavepoint (savePointName env t)]
  ∨ l = [EvSavepoint (savePointName env t); EvWithOption t]
  ∨ l = enterEvents env t ++ [EvPauseNodeActivity]
  ∨ l = acceptCalls env t
  ∨ ∃ tail, l = failCalls env t tail ∧ forallb markEvent tail = true.

(** The calls [l] of the iteration for [t] that starts after the calls
    [h], as the results of [Savepoint], [WithOption] and [Play] there
    decide them; [go] tells whether the loop goes on with the next
    transaction.  A failing [Savepoint] or [WithOption] and
    [ErrNetworkStopping] end the call, a [Play] that succeeds does not;
    after the rollback of a failed [Play] either happens. *)
Definition callsAt (env : Env) (h : list Event) (t : Transaction)
    (l : list Event) (go : bool) : Prop :=
  let name := savePointName env t in
  match Savepoint env name h with
  | Some _ => l = [EvSavepoint name] ∧ go = false
  | None =>
    match WithOption env t (h ++ [EvSavepoint name]) with
    | Some _ => l = [EvSavepoint name; EvWithOption t] ∧ go = false
    | None =>
      match playErr (Play env t (h ++ [EvSavepoint name; EvWithOption t])) with
      | None => l = acceptCalls env t ∧ go = true
      | Some err =>
        if decide (err = ErrNetworkStopping)
        then l = enterEvents env t ++ [EvPauseNodeActivity] ∧ go = false
        else ∃ tail, l = failCalls env t tail ∧ forallb markEvent tail = true
      end
    end
  end.

(** The calls of a loop over [txs] that starts after the calls [h], one
    list of calls per transaction the loop got to. *)
Fixpoint callsFrom (env : Env) (h : list Event) (txs : list Transaction)
    (ls : list (list Event)) : Prop :=
  match txs, ls with
  | [], [] => True
  | t :: txs', l :: ls' =>
    ∃ go, callsAt env h t l go
          ∧ if go then callsFrom env (h ++ l) txs' ls' else ls' = []
  | _, _ => False
  end.

(** The transaction of a [Play] call, and the hash of a
    [MarkTransactionBad] call. *)
Definition playedTx (e : Event) : option Transaction :=
  match e with
  | EvPlay t => Some t
  | _ => None
  end.

Definition markedHash (e : Event) : option bytes :=
  match e with
  | EvMarkTransactionBad h _ => Some h
  | _ => None
  end.

(** ** What the body of ProcessTxs leaves alone *)

(** The calls of [ProcessTxs] before its deferred function runs. *)
Definition execEvent (e : Event) : bool :=
  match e with
  | EvAfterPlayTxs => false
  | _ => playEvent e
  end.

(** [w'] comes from [w] by what the prelude and the body of [ProcessTxs]
    can do: calls other than [AfterPlayTxs] and those of [PlaySafe],
    no write to [b.TxFullData] or [b.AfterTxs], and non-empty queues
    appended to [b.Notifications]. *)
Definition bodyStep (w w' : World) : Prop :=
  grows execEvent w w'
  ∧ bTxFullData w' = bTxFullData w
  ∧ bAfterTxs w' = bAfterTxs w
  ∧ ∃ qs, bNotifications w' = bNotifications w ++ qs ∧ Forall (λ q, q ≠ []) qs.

(** What the body of [ProcessTxs] (lines 81 to 238) returns and leaves
    when the deferred function starts. *)
Definition bodyOf (env : Env) (b : Block) (w : World) : option error * World :=
  let '(txsMap, w) := processPrelude env b w in
  processBody env b None txsMap w.

(** ** Unmarshalling *)

(** The calls around one unmarshalling with the result [r]: the call
    itself, and the marking of a transaction that failed with a known
    hash. *)
Definition parseCalls (env : Env) (r : Unmarshalled) (d : bytes) : list Event :=
  EvUnmarshallTransaction d
  :: match r with
     | ParseFailed err (Some h) => [EvMarkTransactionBad h (Error (messages env) err)]
     | _ => []
     end.

(** The transaction of a result, if it has one. *)
Definition parsed (r : Unmarshalled) : option Transaction :=
  match r with
  | Parsed t => Some t
  | ParseFailed _ _ => None
  end.

(** The calls of the prelude of [ProcessTxs]. *)
Definition parseEvent (e : Event) : bool :=
  match e with
  | EvUnmarshallTransaction _ | EvMarkTransactionBad _ _ => true
  | _ => false
  end.

(** [w'] comes from [w] by the calls of unmarshalling, with [b.SysUpdate]
    as it was. *)
Definition parseStep (w w' : World) : Prop :=
  grows parseEvent w w' ∧ bSysUpdate w' = bSysUpdate w.

(** Two class maps that differ at most in the class [FirstBlockTxType]. *)
Definition sameButFirstBlock (m m' : TxsMap) : Prop :=
  ∀ k, k ≠ FirstBlockTxType → m k = m' k.

(** ** The paths of PlaySafe *)

(** The calls that end the outer database transaction. *)
Definition closeEvent (e : Event) : bool :=
  match e with
  | EvRollback | EvCommit => true
  | _ => false
  end.

(** The calls of [PlaySafe] after those of [ProcessTxs], and whether it
    then returns nil, on each of its paths. *)
Definition playSafeTail (sends : list Queue) (tail : list Event) (r : option error)
    : Prop :=
  (∃ marks, tail = EvRollback :: marks ∧ forallb playEvent marks = true ∧ r ≠ None)
  ∨ (tail = [EvCommit] ∧ r = Some ErrEmptyBlock)
  ∨ (tail = [EvInsertIntoBlockchain; EvRollback] ∧ r ≠ None)
  ∨ (tail = [EvInsertIntoBlockchain; EvCommit] ∧ r ≠ None)
  ∨ (tail = [EvInsertIntoBlockchain; EvCommit] ++ (EvSend <$> sends) ∧ r = None).

(** * Sample inputs *)

(** Test transactions: a transfer from [k] to [to], named by [h]. *)
Definition utx (h : string) (k to : Z) : Transaction :=
  mkTx h k h 0 false 0 None to.

Definition sampleMessages : Messages :=
  mkMessages "network is stopping" "limit stop" "time limit exceeded" "block is empty".

(** The result of a [Play] that touches nothing but its error. *)
Definition played (err : option error) : Played :=
  mkPlayed err false [] (mkTxResult 0 "") [] [] 1.

(** A [Play] that succeeds and queues one notification. *)
Definition playedNotifying (n : string) : Played :=
  mkPlayed None false [n] (mkTxResult 0 "") [] [] 1.

Definition unmarshalKnown (known : list Transaction) (data : bytes) : Unmarshalled :=
  match list_find (λ t, FullData t = data) known with
  | Some (_, t) => Parsed t
  | None => ParseFailed (ErrNew "malformed transaction") None
  end.

(** An environment in which the database never fails, the transactions
    of [known] unmarshal from their [FullData], [Play] is [plays], and
    the goroutines get the lock in the order of the group keys. *)
Definition sampleEnv (known : list Transaction) (plays : Transaction → Played)
    (getOutputs afterPlay : option error) (markBad : bytes → option error)
    (commit : option error) : Env :=
  mkEnv sampleMessages (λ _, None) (λ _, commit) (λ _, None)
        (λ data _, unmarshalKnown known data)
        (λ hash _ _, markBad hash) (λ _ _, getOutputs)
        (λ _ _, None) (λ _ _, None) (λ _ _, None)
        (λ t _, plays t) (λ _, None) (λ _, afterPlay)
        false (λ s, "block_" +:+ s) id.

Definition calmEnv (known : list Transaction) (plays : Transaction → Played) : Env :=
  sampleEnv known plays None None (λ _, None) None.

(** The world in which a node starts its first block play. *)
Definition newWorld : World :=
  mkWorld [] [] None false [] (mkAfterTxs [] [] []) [] initGroupVars initGroupVars.

(** A smart-contract transaction of sender [k], with hash and raw bytes
    [h]. *)
Definition sctx (h : string) (k : Z) : Transaction :=
  mkTx h k h 0 true 1 (Some "Contract") 0.

(** A transaction of another kind. *)
Definition plaintx (h : string) (k : Z) : Transaction :=
  mkTx h k h 0 false 0 None 0.

Definition generating (txs : list Transaction) (classes : list (TxKind * list bytes)) : Block :=
  mkBlock true false txs classes.

Definition validating (txs : list Transaction) (classes : list (TxKind * list bytes)) : Block :=
  mkBlock false false txs classes.

Definition limitTx : Transaction := sctx "t7" 7.

Definition limitEnv : Env := calmEnv [limitTx] (λ _, played (Some ErrLimitStop)).

Definition emptyBlock : Block := generating [] [].

Definition notifyingTx : Transaction := sctx "n" 5.

Definition notifyingEnv : Env := calmEnv [notifyingTx] (λ _, playedNotifying "hello").

Definition notifyingBlock : Block :=
  validating [notifyingTx] [(SmartContractTxType, ["n"])].

(** A generation that fails before anything is executed: the outputs of
    the senders cannot be read. *)
Definition outageEnv (known : list Transaction) : Env :=
  sampleEnv known (λ _, played None) (Some (ErrNew "db down")) None (λ _, None) None.

Definition threeSenders : list Transaction :=
  [sctx "a" 7; plaintx "b" 7; sctx "c" 7; sctx "d" 8].

Definition outageBlock : Block :=
  generating threeSenders [(SmartContractTxType, ["a"; "c"; "d"]); (DelayTxType, ["b"])].

(** The second transaction cannot be marked bad. *)
Definition stuckEnv : Env :=
  sampleEnv threeSenders (λ _, played None) (Some (ErrNew "db down")) None
            (λ hash, if decide (hash = "b") then Some (ErrNew "queue closed") else None)
            None.

(** [MarkTransactionBad] works once: it fails when a transaction was
    marked bad before. *)
Definition markOnceEnv : Env :=
  mkEnv sampleMessages (λ _, None) (λ _, None) (λ _, None)
        (λ data _, unmarshalKnown threeSenders data)
        (λ _ _ h,
           if existsb (λ e, match e with EvMarkTransactionBad _ _ => true | _ => false end) h
           then Some (ErrNew "queue closed") else None)
        (λ _ _, Some (ErrNew "db down"))
        (λ _ _, None) (λ _ _, None) (λ _ _, None)
        (λ _ _, played None) (λ _, None) (λ _, None)
        false (λ s, "block_" +:+ s) id.

Definition okTx : Transaction := sctx "a" 1.

Definition badTx : Transaction := sctx "b" 2.

Definition ok2Tx : Transaction := sctx "c" 3.

Definition oneFailingEnv : Env :=
  calmEnv [okTx; badTx; ok2Tx]
          (λ t, if decide (t = badTx) then played (Some (ErrNew "boom")) else played None).

Definition oneFailingBlock : Block :=
  generating [okTx; badTx; ok2Tx] [(SmartContractTxType, ["a"; "b"; "c"])].

(** The second of three transactions runs into the limits of the block. *)
Definition softStopEnv : Env :=
  calmEnv [okTx; limitTx; ok2Tx]
          (λ t, if decide (t = limitTx) then played (Some ErrLimitStop) else played None).

Definition softStopBlock : Block :=
  generating [okTx; limitTx; ok2Tx] [(DelayTxType, ["a"; "t7"; "c"])].

(** A transaction that cannot be played while its block is generated. *)
Definition boomTx : Transaction := plaintx "x" 9.

Definition boomEnv : Env :=
  calmEnv [boomTx] (λ _, played (Some (ErrNew "boom"))).

Definition boomBlock : Block := generating [boomTx] [(DelayTxType, ["x"])].

(** A block with a transaction that stops the network. *)
Definition stopTx : Transaction := plaintx "s" 4.

Definition stopEnv (afterPlay : option error) : Env :=
  sampleEnv [stopTx; sctx "k" 6]
            (λ _, played (Some ErrNetworkStopping)) None afterPlay (λ _, None) None.

Definition stopBlock : Block := validating [stopTx] [(StopNetworkTxType, ["s"])].

(** Transfers 1 to 2, 3 to 4 and 4 to 2: the third joins the group of the
    first in the first sweep, the second in the second sweep. *)
Definition chainInput : list Transaction :=
  [utx "a" 1 2; utx "b" 3 4; utx "c" 4 2].

(** Two senders, the first of which sends twice. *)
Definition selfInput : list Transaction :=
  [utx "a" 1 0; utx "b" 2 0; utx "c" 1 0].

(** An environment like [calmEnv] in which blocks are synchronised by
    SQL DML. *)
Definition sqldmlEnv (known : list Transaction) (plays : Transaction → Played) : Env :=
  mkEnv sampleMessages (λ _, None) (λ _, None) (λ _, None)
        (λ data _, unmarshalKnown known data)
        (λ _ _ _, None) (λ _ _, None)
        (λ _ _, None) (λ _ _, None) (λ _ _, None)
        (λ t _, plays t) (λ _, None) (λ _, None)
        true (λ s, "block_" +:+ s) id.

(** A genesis block whose second transaction does not unmarshal. *)
Definition brokenGenesis : Block :=
  mkBlock false true [plaintx "g" 1; plaintx "h" 2; plaintx "i" 3] [].

(** * Lemmas and theorems *)

(** ** Properties of the sweep *)

Section SweepFacts.

Variable hit : gmap Z Z → Transaction → bool.
Variable note : gmap Z Z → Transaction → gmap Z Z.
Hypothesis note_nonempty : ∀ wa t, size (note wa t) ≠ 0%nat.

Lemma sweep_pick rest : ∀ n kept wa grp,
  size wa ≠ 0%nat → (length rest ≤ n)%nat →
  sweep hit note n (length kept) (kept ++ rest) wa grp = pick hit note rest wa grp kept.
Proof.
  induction rest as [|t r IH]; intros n kept wa grp Hwa Hn.
  - rewrite app_nil_r. destruct n as [|n]; simpl; [done|].
    by rewrite lookup_ge_None_2.
  - destruct n as [|n]; simpl in Hn; [lia|]. simpl.
    rewrite list_lookup_middle by done.
    destruct (decide (size wa = 0%nat)) as [|_]; [done|].
    destruct (hit wa t).
    + rewrite take_app_length, (cons_middle t kept r), app_assoc.
      rewrite drop_app_length'; [|rewrite length_app; simpl; lia].
      apply IH; [apply note_nonempty | lia].
    + replace (S (length kept)) with (length (kept ++ [t]))
        by (rewrite length_app; simpl; lia).
      rewrite (cons_middle t kept r), app_assoc. apply IH; [done | lia].
Qed.

(** The loop never stops for want of iterations. *)
Lemma sweep_fuel txs wa grp n :
  (length txs ≤ n)%nat →
  sweep hit note n 0 txs wa grp = sweep hit note (length txs) 0 txs wa grp.
Proof.
  intros Hn. destruct txs as [|t r]; [by destruct n|].
  destruct n as [|n]; simpl in Hn; [lia|]. simpl.
  destruct (decide (size wa = 0%nat)).
  - rewrite drop_0.
    rewrite (sweep_pick r n [] _ _ (note_nonempty _ _)) by lia.
    by rewrite (sweep_pick r (length r) [] _ _ (note_nonempty _ _)).
  - destruct (hit wa t).
    + rewrite drop_0.
      rewrite (sweep_pick r n [] _ _ (note_nonempty _ _)) by lia.
      by rewrite (sweep_pick r (length r) [] _ _ (note_nonempty _ _)).
    + rewrite (sweep_pick r n [t]) by (done || lia).
      by rewrite (sweep_pick r (length r) [t]).
Qed.

(** What one call of the grouper sweeps: the first transaction seeds an
    empty [walletAddress]. *)
Lemma sweep_seed t r grp (wa : gmap Z Z) :
  size wa = 0%nat →
  sweep hit note (length (t :: r)) 0 (t :: r) wa grp
  = pick hit note r (note wa t) (grp ++ [t]) [].
Proof.
  intros Hwa. simpl. destruct (decide (size wa = 0%nat)); [|done].
  rewrite drop_0. by apply (sweep_pick r (length r) []).
Qed.

Lemma sweep_resweep txs grp (wa : gmap Z Z) :
  size wa ≠ 0%nat →
  sweep hit note (length txs) 0 txs wa grp = pick hit note txs wa grp [].
Proof. intros Hwa. by apply (sweep_pick txs (length txs) []). Qed.

Lemma notes_nonempty l wa : size wa ≠ 0%nat → size (notes note wa l) ≠ 0%nat.
Proof.
  revert wa. induction l as [|t l IH]; intros wa Hwa; simpl; [done|].
  apply IH, note_nonempty.
Qed.

(** A sweep splits [rest] into the picked and the left transactions. *)
Lemma pick_split rest : ∀ wa grp kept, ∃ picked left,
  pick hit note rest wa grp kept = (kept ++ left, notes note wa picked, grp ++ picked)
  ∧ picked `sublist_of` rest ∧ left `sublist_of` rest
  ∧ rest ≡ₚ picked ++ left
  ∧ (picked = [] → left = rest ∧ Forall (λ t, hit wa t = false) rest).
Proof.
  induction rest as [|t r IH]; intros wa grp kept; simpl.
  - exists [], []. rewrite !app_nil_r. by split_and!.
  - destruct (hit wa t) eqn:Hh.
    + destruct (IH (note wa t) (grp ++ [t]) kept) as (p & l & -> & Hp & Hl & Hperm & _).
      exists (t :: p), l. rewrite <- app_assoc. simpl. split_and!.
      * done.
      * by apply sublist_skip.
      * by apply sublist_cons.
      * by rewrite Hperm.
      * done.
    + destruct (IH wa grp (kept ++ [t])) as (p & l & -> & Hp & Hl & Hperm & Hnil).
      exists p, (t :: l). rewrite <- app_assoc. simpl. split_and!.
      * done.
      * by apply sublist_cons.
      * by apply sublist_skip.
      * rewrite Hperm. by rewrite Permutation_middle.
      * intros Hpn. destruct (Hnil Hpn) as [-> HF]. split; [done|]. by constructor.
Qed.

(** One sweep of a grouper call, in either of its two forms. *)
Lemma sweep_cases txs (wa : gmap Z Z) grp :
  txs ≠ [] → ∃ picked left,
    sweep hit note (length txs) 0 txs wa grp = (left, notes note wa picked, grp ++ picked)
    ∧ picked `sublist_of` txs ∧ left `sublist_of` txs ∧ txs ≡ₚ picked ++ left
    ∧ (size wa = 0%nat → ∃ t p r, txs = t :: r ∧ picked = t :: p
                                  ∧ p ++ left ≡ₚ r)
    ∧ (size wa ≠ 0%nat → picked = [] →
         left = txs ∧ Forall (λ t, hit wa t = false) txs).
Proof.
  intros Htxs. destruct (decide (size wa = 0%nat)) as [Hwa|Hwa].
  - destruct txs as [|t r]; [done|]. rewrite sweep_seed by done.
    destruct (pick_split r (note wa t) (grp ++ [t]) [])
      as (p & l & -> & Hp & Hl & Hperm & _).
    exists (t :: p), l. rewrite <- app_assoc. simpl. split_and!.
    + done.
    + by apply sublist_skip.
    + by apply sublist_cons.
    + by rewrite Hperm.
    + intros _. by exists t, p, r.
    + done.
  - rewrite sweep_resweep by done.
    destruct (pick_split txs wa grp []) as (p & l & -> & Hp & Hl & Hperm & Hnil).
    exists p, l. split_and!; try done.
Qed.

(** When hitting transactions leave [walletAddress] as it is, a sweep is
    a filter. *)
Lemma pick_stable rest (wa : gmap Z Z) :
  (∀ t, hit wa t = true → note wa t = wa) →
  ∀ grp kept,
    pick hit note rest wa grp kept
    = (kept ++ filter (λ t, hit wa t = false) rest, wa,
       grp ++ filter (λ t, hit wa t = true) rest).
Proof.
  intros Hst. induction rest as [|t r IH]; intros grp kept; simpl.
  - by rewrite !app_nil_r.
  - destruct (hit wa t) eqn:Hh.
    + rewrite (Hst t Hh), IH.
      rewrite filter_cons_False by (rewrite Hh; done).
      rewrite filter_cons_True by done. by rewrite <- app_assoc.
    + rewrite IH.
      rewrite filter_cons_True by done.
      rewrite filter_cons_False by (rewrite Hh; done). by rewrite <- app_assoc.
Qed.

(** *** Reasoning about the recursion *)

(** An invariant [I] of the calls and a property [Q] of the returned
    variables: the four ways a call can end. *)
Lemma groupTxs_rule
    (I : list Transaction → gmap Z Z → GroupVars → Prop) (Q : GroupVars → Prop) :
  (∀ wa v, I [] wa v → Q v) →
  (∀ txs wa m l s txs' wa' l',
     txs ≠ [] → I txs wa (mkGroupVars m l s) →
     sweep hit note (length txs) 0 txs wa l = (txs', wa', l') →
     (length l < length l')%nat →
     (txs' = [] → Q (mkGroupVars (<[Itoa s := l']> m) l' s))
     ∧ (txs' ≠ [] → I txs' wa' (mkGroupVars m l' s))) →
  (∀ txs wa m l s txs' wa' l',
     txs ≠ [] → I txs wa (mkGroupVars m l s) →
     sweep hit note (length txs) 0 txs wa l = (txs', wa', l') →
     ¬ (length l < length l')%nat →
     ((0 < length l')%nat →
        I txs' ∅ (mkGroupVars (<[Itoa s := l']> m) [] (incSerial s)))
     ∧ (¬ (0 < length l')%nat → I txs' wa' (mkGroupVars m l' s))) →
  ∀ fuel txs wa v v',
    groupTxs hit note fuel txs wa v = Some v' → I txs wa v → Q v'.
Proof.
  intros Hret Hgrow Hsame. induction fuel as [|fuel IH]; intros txs wa v v'; [done|].
  simpl. destruct (decide (length txs = 0%nat)) as [Hlen|Hlen].
  - intros [= <-] HI. apply (Hret wa). by destruct txs.
  - assert (txs ≠ []) as Hne by (by intros ->).
    destruct v as [m l s]. simpl.
    destruct (sweep hit note (length txs) 0 txs wa l) as [[txs' wa'] l'] eqn:Hsw.
    intros Hrun HI.
    destruct (decide (length l < length l')%nat) as [Hlt|Hlt].
    + destruct (Hgrow _ _ _ _ _ _ _ _ Hne HI Hsw Hlt) as [HQ HI'].
      destruct (decide (length txs' = 0%nat)) as [Hl'|Hl'].
      * injection Hrun as <-. apply HQ. by destruct txs'.
      * apply (IH _ _ _ _ Hrun), HI'. by intros ->.
    + destruct (Hsame _ _ _ _ _ _ _ _ Hne HI Hsw Hlt) as [HI1 HI2].
      destruct (decide (0 < length l')%nat) as [Hpos|Hpos].
      * by apply (IH _ _ _ _ Hrun), HI1.
      * by apply (IH _ _ _ _ Hrun), HI2.
Qed.

(** *** Termination *)

Lemma groupTxs_total fuel : ∀ txs (wa : gmap Z Z) v,
  (size wa ≠ 0%nat → GroupTxsList v ≠ []) →
  (groupMeasure txs (GroupTxsList v) < fuel)%nat →
  is_Some (groupTxs hit note fuel txs wa v).
Proof.
  unfold groupMeasure.
  induction fuel as [|fuel IH]; intros txs wa [m l s] Hwl Hfuel; simpl in *; [lia|].
  destruct (decide (length txs = 0%nat)) as [Hlen|Hlen]; [done|].
  assert (txs ≠ []) as Hne by (by intros ->).
  destruct (sweep_cases txs wa l Hne)
    as (p & left & -> & Hp & Hl & Hperm & Hseed & Hre).
  assert (length txs = length p + length left)%nat as Hsz
    by (by rewrite Hperm, length_app).
  rewrite length_app.
  destruct (decide (length l < length l + length p)%nat) as [Hlt|Hlt].
  - destruct (decide (length left = 0%nat)); [done|].
    apply IH; simpl.
    + intros _. destruct l, p; simpl in *; done || lia.
    + destruct (decide (l ++ p = [])); destruct (decide (l = [])); lia.
  - assert (p = []) as -> by (destruct p; simpl in *; [done | lia]).
    destruct (decide (size wa = 0%nat)) as [Hwa|Hwa].
    { destruct (Hseed Hwa) as (? & ? & ? & _ & ? & _). done. }
    specialize (Hwl Hwa). change (length (@nil Transaction)) with 0%nat.
    rewrite Nat.add_0_r.
    destruct (decide (0 < length l)%nat) as [Hpos|Hpos].
    + apply IH; simpl; [by rewrite map_size_empty|].
      destruct (decide (l = [])); [done|].
      destruct (decide (@nil Transaction = [])); [|done]. simpl in *. lia.
    + destruct l; simpl in *; [done | lia].
Qed.

(** A call from [ProcessTxs] returns, whatever the package variables. *)
Lemma groupCall_total txs v : is_Some (groupCall hit note txs v).
Proof.
  apply groupTxs_total.
  - by rewrite map_size_empty.
  - unfold groupMeasure, groupFuel. destruct (decide (GroupTxsList v = [])); lia.
Qed.
End SweepFacts.

Section GroupOrder.

Variable hit : gmap Z Z → Transaction → bool.
Variable note : gmap Z Z → Transaction → gmap Z Z.
Hypothesis note_nonempty : ∀ wa t, size (note wa t) ≠ 0%nat.
Variable inp : list Transaction.

Lemma groupTxs_seedFirst fuel txs wa v v' :
  groupTxs hit note fuel txs wa v = Some v' →
  orderInv inp txs wa v →
  ∀ g grp, TxsGroupMap v' !! g = Some grp → seedFirst inp grp.
Proof.
  apply (groupTxs_rule hit note (orderInv inp)
           (λ v', ∀ g grp, TxsGroupMap v' !! g = Some grp → seedFirst inp grp)).
  - by intros wa0 v0 (_ & Hm & _).
  - intros txs0 wa0 m l s txs' wa' l' Hne (Hsub & Hm & Hcur) Hsw Hlt.
    destruct (sweep_cases hit note note_nonempty txs0 wa0 l Hne)
      as (p & left & Hsw' & Hp & Hl & Hperm & Hseed & _).
    rewrite Hsw' in Hsw. injection Hsw as <- <- <-. simpl in *.
    assert (size (notes note wa0 p) ≠ 0%nat
            ∧ ∃ t r rest, l ++ p = t :: rest
                          ∧ (t :: r) `sublist_of` inp ∧ rest ++ left ⊆+ r)
      as [Hwa' Hcur'].
    { destruct Hcur as [[-> Hwa]|[Hwa (t & r & rest & -> & Hin & Hrest)]].
      - destruct (Hseed Hwa) as (t & p' & r & -> & -> & Hr). split.
        + simpl. by apply notes_nonempty.
        + exists t, r, p'. simpl. split_and!; [done..|].
          by apply Permutation_submseteq.
      - split; [by apply notes_nonempty|].
        exists t, r, (rest ++ p). split_and!; [done..|].
        rewrite <- app_assoc, <- Hperm. done. }
    split.
    + intros -> g grp. simpl. destruct (decide (Itoa s = g)) as [<-|Hg].
      * rewrite lookup_insert_eq. intros [= <-].
        destruct Hcur' as (t & r & rest & -> & Hin & Hrest).
        exists t, r, rest. split_and!; [done..|]. by rewrite app_nil_r in Hrest.
      * rewrite lookup_insert_ne by done. apply Hm.
    + intros _. split_and!; [by trans txs0 | done | by right].
  - intros txs0 wa0 m l s txs' wa' l' Hne (Hsub & Hm & Hcur) Hsw Hlt.
    destruct (sweep_cases hit note note_nonempty txs0 wa0 l Hne)
      as (p & left & Hsw' & Hp & Hl & Hperm & Hseed & Hre).
    rewrite Hsw' in Hsw. injection Hsw as <- <- <-. simpl in *.
    assert (p = []) as ->.
    { destruct p; [done|]. rewrite length_app in Hlt. simpl in Hlt. lia. }
    rewrite app_nil_r in *.
    destruct Hcur as [[-> Hwa]|[Hwa (t & r & rest & -> & Hin & Hrest)]].
    { by destruct (Hseed Hwa) as (? & ? & ? & _ & ? & _). }
    destruct (Hre Hwa eq_refl) as [-> _]. split; [|simpl; lia].
    intros _. split_and!; [done| |left; by rewrite map_size_empty].
    intros g grp. simpl. destruct (decide (Itoa s = g)) as [<-|Hg].
    + rewrite lookup_insert_eq. intros [= <-].
      exists t, r, rest. split_and!; [done..|].
      trans (rest ++ txs0); [|done]. by apply submseteq_inserts_r.
    + rewrite lookup_insert_ne by done. apply Hm.
Qed.
End GroupOrder.

(** *** The order of the sweeps *)

Section SweepOrderFacts.
Variable hit : gmap Z Z → Transaction → bool.
Variable note : gmap Z Z → Transaction → gmap Z Z.
Hypothesis note_nonempty : ∀ wa t, size (note wa t) ≠ 0%nat.

Lemma notes_app wa l1 l2 : notes note wa (l1 ++ l2) = notes note (notes note wa l1) l2.
Proof. apply foldl_app. Qed.

(** The accumulators of [pick] are prefixes of its results. *)
Lemma pick_acc rest : ∀ wa grp kept,
  pick hit note rest wa grp kept
  = let '(k, wa', g) := pick hit note rest wa [] [] in (kept ++ k, wa', grp ++ g).
Proof.
  induction rest as [|t r IH]; intros wa grp kept; simpl.
  - by rewrite !app_nil_r.
  - destruct (hit wa t).
    + rewrite (IH _ (grp ++ [t])), (IH _ [t]).
      destruct (pick hit note r (note wa t) [] []) as [[k wa'] g].
      by rewrite <- app_assoc.
    + rewrite (IH _ _ (kept ++ [t])), (IH _ _ [t]).
      destruct (pick hit note r wa [] []) as [[k wa'] g].
      by rewrite <- app_assoc.
Qed.

(** One sweep, from empty accumulators. *)
Lemma pick_alone rest wa : ∃ picked left,
  pick hit note rest wa [] [] = (left, notes note wa picked, picked)
  ∧ picked `sublist_of` rest ∧ left `sublist_of` rest
  ∧ (picked = [] → left = rest ∧ Forall (λ t, hit wa t = false) rest).
Proof.
  destruct (pick_split hit note rest wa [] []) as (p & l & Hp & H1 & H2 & _ & H3).
  by exists p, l.
Qed.

Lemma sweepsTo_snoc ss : ∀ wa rem mid s left,
  sweepsTo hit note wa rem ss mid →
  pick hit note mid (notes note wa (mjoin ss)) [] []
  = (left, notes note (notes note wa (mjoin ss)) s, s) →
  sweepsTo hit note wa rem (ss ++ [s]) left.
Proof.
  induction ss as [|s0 ss IH]; intros wa rem mid s left; simpl.
  - intros -> Hp. by exists left.
  - intros (mid0 & Hp0 & Hrest) Hp. exists mid0. split; [done|].
    apply (IH _ _ mid); [done|]. by rewrite <- notes_app.
Qed.

Lemma sweepsTo_sublist ss : ∀ wa rem left,
  sweepsTo hit note wa rem ss left →
  left `sublist_of` rem ∧ Forall (λ s, s `sublist_of` rem) ss.
Proof.
  induction ss as [|s ss IH]; intros wa rem left; simpl.
  - by intros ->.
  - intros (mid & Hp & Hrest).
    destruct (pick_alone rem wa) as (p & l & Hp' & Hps & Hls & _).
    rewrite Hp' in Hp. injection Hp as <- _ <-.
    destruct (IH _ _ _ Hrest) as [Hleft Hss]. split; [by trans l|].
    constructor; [done|].
    eapply Forall_impl; [exact Hss|]. intros s' Hs'. by trans l.
Qed.

(** A sweep that picks nothing changes nothing, so the sweeps after it
    pick nothing either. *)
Lemma sweepsTo_idle ss : ∀ wa rem left,
  Forall (λ t, hit wa t = false) rem →
  sweepsTo hit note wa rem ss left → mjoin ss = [] ∧ left = rem.
Proof.
  induction ss as [|s ss IH]; intros wa rem left Hno; simpl; [done|].
  intros (mid & Hp & Hrest).
  assert (pick hit note rem wa [] [] = (rem, wa, [])) as Hidle.
  { clear -Hno. assert (∀ kept, pick hit note rem wa [] kept = (kept ++ rem, wa, [])) as H.
    { induction Hno as [|t r Ht _ IHr]; intros kept; simpl; [by rewrite app_nil_r|].
      rewrite Ht, IHr. by rewrite <- app_assoc. }
    apply (H []). }
  rewrite Hidle in Hp. injection Hp as <- _ <-. simpl in Hrest.
  by apply (IH wa rem left Hno).
Qed.

(** The seed and the transactions left after it determine the group. *)
Lemma sweepsTo_determined ss1 : ∀ wa rem ss2 l1 l2,
  sweepsTo hit note wa rem ss1 l1 →
  Forall (λ t, hit (notes note wa (mjoin ss1)) t = false) l1 →
  sweepsTo hit note wa rem ss2 l2 →
  Forall (λ t, hit (notes note wa (mjoin ss2)) t = false) l2 →
  mjoin ss1 = mjoin ss2.
Proof.
  induction ss1 as [|s1 ss1 IH]; intros wa rem ss2 l1 l2; simpl.
  - intros -> Hno H2 _. by destruct (sweepsTo_idle ss2 wa rem l2 Hno H2) as [-> _].
  - intros (mid & Hp & Hrest) Hno1 H2 Hno2. destruct ss2 as [|s2 ss2]; simpl in *.
    + subst l2.
      destruct (sweepsTo_idle (s1 :: ss1) wa rem l1 Hno2) as [Hj _]; [|done].
      exists mid. by split.
    + destruct H2 as (mid2 & Hp2 & Hrest2). rewrite Hp in Hp2.
      injection Hp2 as <- _ <-. f_equal.
      rewrite notes_app in Hno1, Hno2.
      by apply (IH (notes note wa s1) mid ss2 l1 l2).
Qed.

Variable inp : list Transaction.

Lemma groupTxs_sweepOrder fuel txs wa v v' :
  groupTxs hit note fuel txs wa v = Some v' →
  sweepInv hit note inp txs wa v →
  ∀ g grp, TxsGroupMap v' !! g = Some grp → sweepOrder hit note inp grp.
Proof.
  apply (groupTxs_rule hit note (sweepInv hit note inp)
           (λ v', ∀ g grp, TxsGroupMap v' !! g = Some grp → sweepOrder hit note inp grp)).
  - by intros wa0 v0 (_ & Hm & _).
  - intros txs0 wa0 m l s txs' wa' l' Hne (Hsub & Hm & Hcur) Hsw Hlt. simpl in *.
    assert (txs' `sublist_of` inp
            ∧ ∃ seed rem ss,
                l' = seed :: mjoin ss ∧ (seed :: rem) `sublist_of` inp
                ∧ wa' = notes note (note ∅ seed) (mjoin ss)
                ∧ sweepsTo hit note (note ∅ seed) rem ss txs') as [Hsub' Hcur'].
    { destruct Hcur as [[-> Hwa]|(seed & rem & ss & -> & Hin & -> & Hss)].
      - destruct txs0 as [|t r]; [done|].
        rewrite (sweep_seed _ _ note_nonempty) in Hsw by done.
        apply map_size_empty_inv in Hwa as ->.
        rewrite pick_acc in Hsw.
        destruct (pick_alone r (note ∅ t)) as (p & lf & Hp & Hps & Hls & _).
        rewrite Hp in Hsw. injection Hsw as <- <- <-. split.
        + trans (t :: r); [by apply sublist_cons | done].
        + exists t, r, [p]. simpl. rewrite app_nil_r. split_and!; [done..|].
          by exists lf.
      - rewrite (sweep_resweep _ _ note_nonempty) in Hsw
          by apply (notes_nonempty _ note_nonempty), note_nonempty.
        rewrite pick_acc in Hsw.
        destruct (pick_alone txs0 (notes note (note ∅ seed) (mjoin ss)))
          as (p & lf & Hp & Hps & Hls & _).
        rewrite Hp in Hsw. injection Hsw as <- <- <-. split; [by trans txs0|].
        exists seed, rem, (ss ++ [p]).
        rewrite join_app. simpl. rewrite app_nil_r. split_and!.
        + done.
        + done.
        + by rewrite notes_app.
        + by apply (sweepsTo_snoc ss _ _ txs0). }
    split.
    + intros -> g grp. destruct (decide (Itoa s = g)) as [<-|Hg].
      * rewrite lookup_insert_eq. intros [= <-].
        destruct Hcur' as (seed & rem & ss & -> & Hin & -> & Hss).
        exists seed, rem, ss, []. split_and!; [done..|constructor|].
        by apply (sweepsTo_sublist ss _ _ _ Hss).
      * rewrite lookup_insert_ne by done. apply Hm.
    + intros _. split_and!; [done..|]. by right.
  - intros txs0 wa0 m l s txs' wa' l' Hne (Hsub & Hm & Hcur) Hsw Hlt. simpl in *.
    destruct Hcur as [[-> Hwa]|(seed & rem & ss & -> & Hin & -> & Hss)].
    { destruct txs0 as [|t r]; [done|].
      rewrite (sweep_seed _ _ note_nonempty) in Hsw by done.
      rewrite pick_acc in Hsw.
      destruct (pick hit note r (note wa0 t) [] []) as [[k w0] g0].
      injection Hsw as <- <- <-. simpl in Hlt. lia. }
    rewrite (sweep_resweep _ _ note_nonempty) in Hsw
      by apply (notes_nonempty _ note_nonempty), note_nonempty.
    rewrite pick_acc in Hsw.
    destruct (pick_alone txs0 (notes note (note ∅ seed) (mjoin ss)))
      as (p & lf & Hp & Hps & Hls & Hnil).
    rewrite Hp in Hsw. injection Hsw as <- <- <-.
    assert (p = []) as ->.
    { destruct p; [done|]. simpl in Hlt. rewrite length_app in Hlt. simpl in Hlt. lia. }
    destruct (Hnil eq_refl) as [-> Hno]. rewrite app_nil_r. split; [|simpl; lia].
    intros _. split_and!; [done| |left; by rewrite map_size_empty].
    intros g grp. simpl. destruct (decide (Itoa s = g)) as [<-|Hg].
    + rewrite lookup_insert_eq. intros [= <-].
      exists seed, rem, ss, txs0. split_and!; [done..|].
      by apply (sweepsTo_sublist ss _ _ _ Hss).
    + rewrite lookup_insert_ne by done. apply Hm.
Qed.
End SweepOrderFacts.

(** *** The two instances *)

Lemma insert_size_nonempty (wa : gmap Z Z) k x : size (<[k:=x]> wa) ≠ 0%nat.
Proof. intros Hs. apply map_size_empty_inv in Hs. by apply insert_non_empty in Hs. Qed.

Lemma utxoNote_nonempty wa t : size (utxoNote wa t) ≠ 0%nat.
Proof. apply insert_size_nonempty. Qed.

Lemma selfNote_nonempty wa t : size (selfNote wa t) ≠ 0%nat.
Proof. apply insert_size_nonempty. Qed.

Lemma walletHas_singleton k k' :
  walletHas {[k := k]} k' = true ↔ k' = k ∧ k ≠ 0.
Proof.
  unfold walletHas. destruct (decide (k' = k)) as [->|Hk].
  - rewrite lookup_singleton_eq. simpl.
    rewrite negb_true_iff, Z.eqb_neq. tauto.
  - rewrite lookup_singleton_ne by done. simpl. split; [done | tauto].
Qed.

Lemma selfNote_stable k t :
  selfHit {[k := k]} t = true → selfNote {[k := k]} t = {[k := k]}.
Proof.
  unfold selfHit, selfNote. rewrite walletHas_singleton. intros [-> _].
  apply insert_singleton_eq.
Qed.

(** *** TransferSelf groups keep the order of the input *)

Section SelfOrder.

Variable inp : list Transaction.

Lemma filter_none_hit (wa : gmap Z Z) txs :
  Forall (λ t, selfHit wa t = false) txs →
  filter (λ t, selfHit wa t = true) txs = []
  ∧ filter (λ t, selfHit wa t = false) txs = txs.
Proof.
  induction 1 as [|t r Ht _ [IH1 IH2]]; [done|]. split.
  - rewrite filter_cons_False by (rewrite Ht; done). done.
  - rewrite filter_cons_True by done. by rewrite IH2.
Qed.

Lemma groupTransferSelfTxs_sublist fuel txs wa v v' :
  groupTransferSelfTxs fuel txs wa v = Some v' →
  selfInv inp txs wa v →
  ∀ g grp, TxsGroupMap v' !! g = Some grp → grp `sublist_of` inp.
Proof.
  apply (groupTxs_rule selfHit selfNote (selfInv inp)
           (λ v', ∀ g grp, TxsGroupMap v' !! g = Some grp → grp `sublist_of` inp)).
  - by intros wa0 v0 (_ & Hm & _).
  - intros txs0 wa0 m l s txs' wa' l' Hne (Hsub & Hm & Hcur) Hsw Hlt. simpl in *.
    destruct Hcur as [[-> ->]|(k & -> & Hl & Hno)].
    + destruct txs0 as [|t r]; [done|].
      rewrite (sweep_seed _ _ selfNote_nonempty) in Hsw by by rewrite map_size_empty.
      change (selfNote ∅ t) with (<[KeyID t := KeyID t]> (∅ : gmap Z Z)) in Hsw.
      rewrite insert_empty in Hsw.
      rewrite (pick_stable _ _ _ _ (selfNote_stable _)) in Hsw.
      injection Hsw as <- <- <-. simpl.
      assert ((t :: filter (λ t0, selfHit {[KeyID t := KeyID t]} t0 = true) r)
                `sublist_of` inp) as Hgrp.
      { trans (t :: r); [|done]. apply sublist_skip, sublist_filter. }
      split.
      * intros _ g grp. destruct (decide (Itoa s = g)) as [<-|Hg].
        -- rewrite lookup_insert_eq. by intros [= <-].
        -- rewrite lookup_insert_ne by done. apply Hm.
      * intros _. split_and!; [|done|].
        -- trans (t :: r); [|done]. apply sublist_cons, sublist_filter.
        -- right. exists (KeyID t). split_and!; [done..|].
           apply Forall_forall. by intros x [? _]%list_elem_of_filter.
    + rewrite (sweep_resweep _ _ selfNote_nonempty) in Hsw
        by apply insert_size_nonempty.
      rewrite (pick_stable _ _ _ _ (selfNote_stable _)) in Hsw.
      destruct (filter_none_hit _ _ Hno) as [Hf _]. rewrite Hf in Hsw.
      injection Hsw as <- <- <-. rewrite app_nil_r in Hlt. lia.
  - intros txs0 wa0 m l s txs' wa' l' Hne (Hsub & Hm & Hcur) Hsw Hlt. simpl in *.
    destruct Hcur as [[-> ->]|(k & -> & Hl & Hno)].
    + destruct txs0 as [|t r]; [done|].
      rewrite (sweep_seed _ _ selfNote_nonempty) in Hsw by by rewrite map_size_empty.
      change (selfNote ∅ t) with (<[KeyID t := KeyID t]> (∅ : gmap Z Z)) in Hsw.
      rewrite insert_empty in Hsw.
      rewrite (pick_stable _ _ _ _ (selfNote_stable _)) in Hsw.
      injection Hsw as <- <- <-. simpl in Hlt. lia.
    + rewrite (sweep_resweep _ _ selfNote_nonempty) in Hsw
        by apply insert_size_nonempty.
      rewrite (pick_stable _ _ _ _ (selfNote_stable _)) in Hsw.
      destruct (filter_none_hit _ _ Hno) as [Hf1 Hf2]. rewrite Hf1, Hf2 in Hsw.
      injection Hsw as <- <- <-. rewrite app_nil_r. simpl. split.
      * intros _. split_and!; [done| |by left].
        intros g grp. simpl. destruct (decide (Itoa s = g)) as [<-|Hg].
        -- rewrite lookup_insert_eq. by intros [= <-].
        -- rewrite lookup_insert_ne by done. apply Hm.
      * intros _. split_and!; [done..|]. right. by exists k.
Qed.
End SelfOrder.

(** ** Account sets of groups *)

Section GroupAccounts.

(** The accounts a grouper looks at in a transaction. *)
Variable accounts : Transaction → list Z.

Lemma accountOf_app l1 l2 k :
  accountOf accounts (l1 ++ l2) k ↔ accountOf accounts l1 k ∨ accountOf accounts l2 k.
Proof.
  unfold accountOf. split.
  - intros (t & [Ht|Ht]%elem_of_app & Hk); eauto.
  - intros [(t & Ht & Hk)|(t & Ht & Hk)]; exists t; rewrite elem_of_app; eauto.
Qed.

Lemma accountOf_sublist l1 l2 k :
  l1 `sublist_of` l2 → accountOf accounts l1 k → accountOf accounts l2 k.
Proof.
  intros Hsub (t & Ht & Hk). exists t. split; [|done].
  by eapply elem_of_submseteq; [|apply sublist_submseteq].
Qed.

Lemma accountOf_nil k : ¬ accountOf accounts [] k.
Proof. intros (t & Ht & _). by apply not_elem_of_nil in Ht. Qed.

Lemma pairwiseDisjoint_insert m key new :
  pairwiseDisjoint accounts m →
  (∀ g grp, g ≠ key → m !! g = Some grp → disjointGroups accounts grp new) →
  pairwiseDisjoint accounts (<[key := new]> m).
Proof.
  intros Hm Hnew g g' grp grp' Hne.
  destruct (decide (key = g)) as [<-|Hg];
    destruct (decide (key = g')) as [<-|Hg']; [done|..].
  - rewrite lookup_insert_eq, lookup_insert_ne by done.
    intros [= <-] Hg2 k Hk1 Hk2. by apply (Hnew g' grp' (not_eq_sym Hg') Hg2 k).
  - rewrite lookup_insert_eq, lookup_insert_ne by done.
    intros Hg1 [= <-]. by apply (Hnew g grp).
  - rewrite !lookup_insert_ne by done. by apply Hm.
Qed.

Variable hit : gmap Z Z → Transaction → bool.
Variable note : gmap Z Z → Transaction → gmap Z Z.
Hypothesis note_nonempty : ∀ wa t, size (note wa t) ≠ 0%nat.
Hypothesis hit_spec : ∀ wa t,
  hit wa t = true ↔ ∃ k, k ∈ accounts t ∧ walletHas wa k = true.
Hypothesis note_spec : ∀ wa t k,
  note wa t !! k = if decide (k ∈ accounts t) then Some k else wa !! k.

Lemma notes_lookup_old p : ∀ (wa : gmap Z Z) k,
  wa !! k = Some k → notes note wa p !! k = Some k.
Proof.
  induction p as [|t p IH]; intros wa k Hk; simpl; [done|].
  apply IH. rewrite note_spec. by case_decide.
Qed.

Lemma notes_lookup_new p : ∀ (wa : gmap Z Z) k,
  accountOf accounts p k → notes note wa p !! k = Some k.
Proof.
  induction p as [|t p IH]; intros wa k Hk; simpl.
  - by apply accountOf_nil in Hk.
  - destruct (decide (k ∈ accounts t)) as [Hin|Hin].
    + apply notes_lookup_old. rewrite note_spec. by case_decide.
    + apply IH. destruct Hk as (t' & [->|Ht']%elem_of_cons & Hk); [done|].
      by exists t'.
Qed.

Lemma groupTxs_disjoint fuel txs wa v v' :
  groupTxs hit note fuel txs wa v = Some v' →
  disjInv accounts txs wa v → pairwiseDisjoint accounts (TxsGroupMap v').
Proof.
  apply (groupTxs_rule hit note (disjInv accounts) (λ v', pairwiseDisjoint accounts (TxsGroupMap v'))).
  - by intros wa0 v0 (_ & _ & _ & Hd).
  - intros txs0 wa0 m l s txs' wa' l' Hne (Hcov & Hnz & Hc & Hd) Hsw Hlt.
    destruct (sweep_cases hit note note_nonempty txs0 wa0 l Hne)
      as (p & left & Hsw' & Hp & Hl & Hperm & _ & _).
    rewrite Hsw' in Hsw. injection Hsw as <- <- <-. simpl in *.
    assert (∀ k, accountOf accounts ((l ++ p) ++ left) k → accountOf accounts (l ++ txs0) k) as Hsub.
    { intros k. rewrite !accountOf_app.
      intros [[?|?]|?]; eauto using accountOf_sublist. }
    split.
    + intros _. apply pairwiseDisjoint_insert; [done|].
      intros g grp _ Hg k Hk1 Hk2. apply (Hc g grp Hg k Hk1), Hsub.
      rewrite accountOf_app. by left.
    + intros _. split_and!; simpl.
      * intros k [Hk|Hk]%accountOf_app.
        -- by apply notes_lookup_old, Hcov.
        -- by apply notes_lookup_new.
      * intros k Hk. eapply Hnz, accountOf_sublist; done.
      * intros g grp Hg k Hk1 Hk2. by apply (Hc g grp Hg k Hk1), Hsub.
      * done.
  - intros txs0 wa0 m l s txs' wa' l' Hne (Hcov & Hnz & Hc & Hd) Hsw Hlt.
    destruct (sweep_cases hit note note_nonempty txs0 wa0 l Hne)
      as (p & left & Hsw' & Hp & Hl & Hperm & Hseed & Hre).
    rewrite Hsw' in Hsw. injection Hsw as <- <- <-. simpl in *.
    assert (p = []) as ->.
    { destruct p; [done|]. rewrite length_app in Hlt. simpl in Hlt. lia. }
    rewrite app_nil_r in *.
    destruct (decide (size wa0 = 0%nat)) as [Hwa|Hwa].
    { by destruct (Hseed Hwa) as (? & ? & ? & _ & ? & _). }
    destruct (Hre Hwa eq_refl) as [-> Hno].
    assert (disjointGroups accounts l txs0) as Hltx.
    { intros k Hk1 (t & Ht & Hk2).
      rewrite Forall_forall in Hno. specialize (Hno t Ht).
      assert (hit wa0 t = true) as Hh; [|congruence].
      apply hit_spec. exists k. split; [done|].
      unfold walletHas. rewrite (Hcov k Hk1). simpl.
      apply negb_true_iff, Z.eqb_neq, Hnz. by exists t. }
    split; intros _.
    + split_and!; simpl.
      * intros k Hk. by apply accountOf_nil in Hk.
      * done.
      * intros g grp. destruct (decide (Itoa s = g)) as [<-|Hg].
        -- rewrite lookup_insert_eq. by intros [= <-].
        -- rewrite lookup_insert_ne by done.
           intros Hgrp k Hk1 Hk2. apply (Hc g grp Hgrp k Hk1).
           rewrite accountOf_app. by right.
      * apply pairwiseDisjoint_insert; [done|].
        intros g grp _ Hg k Hk1 Hk2. apply (Hc g grp Hg k Hk1).
        rewrite accountOf_app. by left.
    + by split_and!.
Qed.

(** A call on transactions whose accounts are all different from 0,
    starting from the initial package variables. *)
Lemma groupCall_disjoint txs v' :
  (∀ k, accountOf accounts txs k → k ≠ 0) →
  groupCall hit note txs initGroupVars = Some v' →
  pairwiseDisjoint accounts (TxsGroupMap v').
Proof.
  intros Hnz Hrun. apply (groupTxs_disjoint _ _ _ _ _ Hrun).
  split_and!; simpl; [|done| |].
  - intros k Hk. by apply accountOf_nil in Hk.
  - intros g grp. by rewrite lookup_empty.
  - intros g g' grp grp' _. by rewrite lookup_empty.
Qed.
End GroupAccounts.

Lemma utxoHit_spec wa t :
  utxoHit wa t = true ↔ ∃ k, k ∈ utxoAccounts t ∧ walletHas wa k = true.
Proof.
  unfold utxoHit, utxoAccounts. rewrite orb_true_iff. split.
  - intros [H|H]; eexists; (split; [|exact H]); set_solver.
  - intros (k & Hk & H). set_solver.
Qed.

Lemma utxoNote_spec (wa : gmap Z Z) t k :
  utxoNote wa t !! k = if decide (k ∈ utxoAccounts t) then Some k else wa !! k.
Proof.
  unfold utxoNote, utxoAccounts. case_decide as Hk.
  - destruct (decide (ToID t = k)) as [<-|Hto]; [by rewrite lookup_insert_eq|].
    rewrite lookup_insert_ne by done.
    assert (k = KeyID t) as -> by set_solver. by rewrite lookup_insert_eq.
  - rewrite !lookup_insert_ne; [done|set_solver..].
Qed.

Lemma selfHit_spec wa t :
  selfHit wa t = true ↔ ∃ k, k ∈ selfAccounts t ∧ walletHas wa k = true.
Proof.
  unfold selfHit, selfAccounts. split.
  - intros H. eexists. split; [|exact H]. set_solver.
  - intros (k & Hk & H). set_solver.
Qed.

Lemma selfNote_spec (wa : gmap Z Z) t k :
  selfNote wa t !! k = if decide (k ∈ selfAccounts t) then Some k else wa !! k.
Proof.
  unfold selfNote, selfAccounts. case_decide as Hk.
  - assert (k = KeyID t) as -> by set_solver. by rewrite lookup_insert_eq.
  - rewrite lookup_insert_ne; [done|set_solver].
Qed.

(** ** What a block play adds to the trace *)

Lemma grows_refl P w : grows P w w.
Proof. exists []. by rewrite app_nil_r. Qed.

Lemma grows_trans P w1 w2 w3 : grows P w1 w2 → grows P w2 w3 → grows P w1 w3.
Proof.
  intros (l1 & H1 & F1) (l2 & H2 & F2). exists (l1 ++ l2).
  rewrite H2, H1, <- app_assoc. split; [done|].
  rewrite forallb_app, F1, F2. done.
Qed.

Lemma grows_emit P e w : P e = true → grows P w (emit e w).
Proof. intros He. exists [e]. simpl. by rewrite He. Qed.

Lemma grows_same P w w' : trace w' = trace w → grows P w w'.
Proof. intros H. exists []. by rewrite app_nil_r. Qed.

(** Chains of [emit]s and field updates from [w]. *)
Ltac grows_direct :=
  lazymatch goal with
  | |- grows _ ?w ?w => apply grows_refl
  | |- grows _ ?w (emit _ ?w') =>
      apply (grows_trans _ w w'); [|apply grows_emit; reflexivity]; grows_direct
  | |- grows _ ?w (if ?c then _ else _) => destruct c; grows_direct
  | |- grows _ ?w (match ?c with Some _ => _ | None => _ end) => destruct c; grows_direct
  | |- grows _ ?w (?set _ ?w') =>
      apply (grows_trans _ w w'); [|apply grows_same; reflexivity]; grows_direct
  end.

Section PlayFacts.

Variable env : Env.
Variable b : Block.

Lemma accept_grows t p w : grows playEvent w (accept t p w).
Proof. unfold accept. destruct (tSysUpdate p); case_decide; grows_direct. Qed.

Lemma serialLoop_grows txs : ∀ curTx genBErr w,
  grows playEvent w (serialLoop env b curTx txs genBErr w).2.
Proof.
  induction txs as [|t rest IH]; intros curTx genBErr w; simpl; [apply grows_refl|].
  destruct (Savepoint env _ _); simpl; [grows_direct|].
  destruct (WithOption env _ _); simpl; [grows_direct|].
  destruct (playErr _) as [err|]; simpl.
  - case_decide; simpl; [grows_direct|].
    destruct (RollbackSavepoint env _ _); simpl; [grows_direct|].
    destruct (GenBlock b) eqn:Hgen; simpl.
    + case_bool_decide; simpl.
      * case_decide; simpl; grows_direct.
      * destruct (tSysUpdate _); simpl.
        -- destruct (SysUpdate env _); simpl;
             [destruct (IsSmartContract t); grows_direct|].
           eapply grows_trans; [|apply IH]. destruct (IsSmartContract t); grows_direct.
        -- eapply grows_trans; [|apply IH]. destruct (IsSmartContract t); grows_direct.
    + destruct (tSysUpdate _); simpl.
      * destruct (SysUpdate env _); simpl; destruct (IsSmartContract t); grows_direct.
      * destruct (IsSmartContract t); grows_direct.
  - eapply grows_trans; [|apply IH].
    eapply grows_trans; [|apply accept_grows]. grows_direct.
Qed.

Lemma serialExecuteTxs_grows txs genBErr w :
  grows playEvent w (serialExecuteTxs env b txs genBErr w).2.
Proof. apply serialLoop_grows. Qed.

Lemma unmarshalClass_grows txs : ∀ w,
  grows playEvent w (unmarshalClass env txs w).2.
Proof.
  induction txs as [|x rest IH]; intros w; simpl; [apply grows_refl|].
  destruct (UnmarshallTransaction env _ _) as [t|err [h|]].
  - destruct (unmarshalClass env rest _) as [ts w'] eqn:Hrest. simpl.
    eapply grows_trans; [|by eapply (eq_ind _ (λ r, grows _ _ r.2) (IH _) _ Hrest)].
    grows_direct.
  - eapply grows_trans; [|apply IH]. grows_direct.
  - eapply grows_trans; [|apply IH]. grows_direct.
Qed.

Lemma unmarshalClasses_grows classes : ∀ m w,
  grows playEvent w (unmarshalClasses env classes m w).2.
Proof.
  induction classes as [|[k txs] rest IH]; intros m w; simpl; [apply grows_refl|].
  pose proof (unmarshalClass_grows txs w) as H.
  destruct (unmarshalClass env txs w) as [ts w']. simpl in H.
  eapply grows_trans; [exact H | apply IH].
Qed.

Lemma unmarshalGenesis_grows txs : ∀ w,
  grows playEvent w (unmarshalGenesis env txs w).2.
Proof.
  induction txs as [|x rest IH]; intros w; simpl; [apply grows_refl|].
  destruct (UnmarshallTransaction env _ _) as [t|err [h|]]; simpl; [|grows_direct..].
  pose proof (IH (emit (EvUnmarshallTransaction (FullData x)) w)) as H.
  destruct (unmarshalGenesis env rest _) as [[e|ts] w']; simpl in *;
    (eapply grows_trans; [|exact H]); grows_direct.
Qed.

Lemma runGroups_grows groups : ∀ genBErr w,
  grows playEvent w (runGroups env b groups genBErr w).
Proof.
  induction groups as [|[g txs] rest IH]; intros genBErr w; simpl; [apply grows_refl|].
  pose proof (serialExecuteTxs_grows txs genBErr w) as H.
  destruct (serialExecuteTxs env b txs genBErr w) as [e w']. simpl in H.
  eapply grows_trans; [exact H | apply IH].
Qed.

Lemma serialPhase_grows k genBErr m w :
  grows playEvent w (serialPhase env b k genBErr m w).2.
Proof.
  unfold serialPhase. destruct (decide _); [|apply grows_refl].
  pose proof (serialExecuteTxs_grows (m k) genBErr w) as H.
  by destruct (serialExecuteTxs env b (m k) genBErr w) as [e w'].
Qed.

Lemma genesisPhase_grows genBErr w :
  grows playEvent w (genesisPhase env b genBErr w).2.
Proof.
  unfold genesisPhase. destruct (IsGenesis b); [|apply grows_refl].
  pose proof (unmarshalGenesis_grows (Transactions b) w) as H.
  destruct (unmarshalGenesis env (Transactions b) w) as [[e|ts] w']; simpl in *; [done|].
  eapply grows_trans; [exact H | apply serialExecuteTxs_grows].
Qed.

Lemma transferSelfPhase_grows genBErr m w :
  grows playEvent w (transferSelfPhase env b genBErr m w).2.
Proof.
  unfold transferSelfPhase. destruct (decide _); [|apply grows_refl]. simpl.
  eapply grows_trans; [|apply grows_same; reflexivity].
  eapply grows_trans; [|apply runGroups_grows]. by apply grows_same.
Qed.

Lemma utxoPhase_grows genBErr m w :
  grows playEvent w (utxoPhase env b genBErr m w).2.
Proof.
  unfold utxoPhase. destruct (_ || _); [|apply grows_refl]. simpl.
  eapply grows_trans; [|apply grows_same; reflexivity].
  eapply grows_trans; [|apply runGroups_grows]. by apply grows_same.
Qed.

Lemma processBody_grows genBErr m w :
  grows playEvent w (processBody env b genBErr m w).2.
Proof.
  unfold processBody. destruct (_ && _).
  { destruct (bSysUpdate w); [|apply grows_refl]. simpl.
    destruct (SysUpdate env _); simpl; grows_direct. }
  simpl. destruct (GetTxOutputs env _ _); simpl; [grows_direct|].
  pose proof (serialPhase_grows StopNetworkTxType genBErr m
                (emit EvPutAllOutputsMap (emit (EvGetTxOutputs (map KeyID (Transactions b))) w)))
    as H1.
  destruct (serialPhase _ _ StopNetworkTxType _ _ _) as [[e1 m1] w1]. simpl in H1.
  assert (grows playEvent w w1) as G1 by (eapply grows_trans; [|exact H1]; grows_direct).
  destruct e1; [done|].
  pose proof (genesisPhase_grows genBErr w1) as H2.
  destruct (genesisPhase _ _ _ _) as [e2 w2]. simpl in H2.
  assert (grows playEvent w w2) as G2 by (by eapply grows_trans).
  destruct e2; [done|].
  pose proof (serialPhase_grows DelayTxType genBErr m1 w2) as H3.
  destruct (serialPhase _ _ DelayTxType _ _ _) as [[e3 m3] w3]. simpl in H3.
  assert (grows playEvent w w3) as G3 by (by eapply grows_trans).
  destruct e3; [done|].
  pose proof (transferSelfPhase_grows genBErr m3 w3) as H4.
  destruct (transferSelfPhase _ _ _ _ _) as [m4 w4]. simpl in H4.
  pose proof (utxoPhase_grows genBErr m4 w4) as H5.
  destruct (utxoPhase _ _ _ _ _) as [m5 w5]. simpl in *.
  eapply grows_trans; [exact G3|]. by eapply grows_trans.
Qed.

Lemma processDeferred_grows genBErr r :
  grows playEvent r.2 (processDeferred env b genBErr r).2.
Proof.
  destruct r as [err w]. unfold processDeferred. simpl.
  destruct (AfterPlayTxs env _) as [ea|]; [destruct (match genBErr with Some _ => _ | None => _ end)|];
    simpl; destruct (_ || _), (GenBlock b); grows_direct.
Qed.

Lemma ProcessTxs_grows w : grows playEvent w (ProcessTxs env b w).2.
Proof.
  unfold ProcessTxs, processPrelude.
  pose proof (unmarshalClasses_grows (ClassifyTxsMap b) (λ _, [])
                (setAfters (mkAfterTxs [] [] []) w)) as H1.
  destruct (unmarshalClasses _ _ _ _) as [m w1]. simpl in H1.
  eapply grows_trans; [|apply processDeferred_grows].
  eapply grows_trans; [|apply processBody_grows].
  eapply grows_trans; [|apply grows_same; reflexivity].
  eapply grows_trans; [|exact H1]. by apply grows_same.
Qed.
End PlayFacts.

(** ** One iteration of the executor *)

Lemma emit_emitAll e w : emit e w = emitAll [e] w.
Proof. done. Qed.

Lemma emitAll_emitAll l1 l2 w : emitAll l2 (emitAll l1 w) = emitAll (l1 ++ l2) w.
Proof. unfold emitAll. simpl. by rewrite app_assoc. Qed.

Lemma emitAll_nil w : emitAll [] w = w.
Proof. destruct w. unfold emitAll. simpl. by rewrite app_nil_r. Qed.

Section Steps.

Variable env : Env.
Variable b : Block.

Lemma step_accept curTx t rest genBErr w p :
  reachesPlay env t w p → playErr p = None →
  serialLoop env b curTx (t :: rest) genBErr w
  = serialLoop env b (S curTx) rest genBErr (accept t p (emitAll (enterEvents env t) w)).
Proof.
  intros (H1 & H2 & H3) Hp. simpl. rewrite H1. simpl. rewrite H2. simpl.
  rewrite <- app_assoc. simpl. rewrite H3, Hp.
  by rewrite !emit_emitAll, !emitAll_emitAll.
Qed.

Lemma step_network_stopping curTx t rest genBErr w p :
  reachesPlay env t w p → playErr p = Some ErrNetworkStopping →
  serialLoop env b curTx (t :: rest) genBErr w
  = (Some ErrNetworkStopping, emitAll (enterEvents env t ++ [EvPauseNodeActivity]) w).
Proof.
  intros (H1 & H2 & H3) Hp. simpl. rewrite H1. simpl. rewrite H2. simpl.
  rewrite <- app_assoc. simpl. rewrite H3, Hp.
  destruct (decide (ErrNetworkStopping = ErrNetworkStopping)); [|done].
  by rewrite !emit_emitAll, !emitAll_emitAll.
Qed.


Lemma step_reject_generation curTx t rest genBErr w p err :
  reachesPlay env t w p → playErr p = Some err →
  err ≠ ErrNetworkStopping → Cause err ≠ ErrLimitStop →
  RollbackSavepoint env (savePointName env t) (trace w ++ enterEvents env t) = None →
  (tSysUpdate p = true → ∀ h, SysUpdate env h = None) →
  GenBlock b = true →
  serialLoop env b curTx (t :: rest) genBErr w
  = serialLoop env b (S curTx) rest (Some (normalized env err))
      (emitAll (enterEvents env t ++ [EvRollbackSavepoint (savePointName env t)]
                ++ rejectEvents env t (normalized env err)
                ++ (if tSysUpdate p then [EvSysUpdate] else [])) w).
Proof.
  intros (H1 & H2 & H3) Hp Hn Hc Hr Hsys Hgen. simpl. rewrite H1. simpl. rewrite H2. simpl.
  rewrite <- app_assoc. simpl. rewrite H3, Hp.
  destruct (decide (err = ErrNetworkStopping)) as [|_]; [done|]. simpl.
  rewrite <- !app_assoc. simpl. unfold enterEvents in Hr. rewrite Hr. simpl.
  rewrite Hgen, bool_decide_eq_false_2 by done. simpl.
  fold (normalized env err). unfold rejectEvents.
  destruct (tSysUpdate p) eqn:Hs; simpl.
  - rewrite Hsys by done.
    destruct (IsSmartContract t); simpl;
      by rewrite !emit_emitAll, !emitAll_emitAll.
  - destruct (IsSmartContract t); simpl;
      by rewrite !emit_emitAll, !emitAll_emitAll.
Qed.

(** The value the loop assigns to its parameter [genBErr] is never read. *)
Lemma serialLoop_genBErr_unused txs : ∀ curTx g1 g2 w,
  serialLoop env b curTx txs g1 w = serialLoop env b curTx txs g2 w.
Proof.
  induction txs as [|t rest IH]; intros curTx g1 g2 w; simpl; [done|].
  destruct (Savepoint env _ _); simpl; [done|].
  destruct (WithOption env _ _); simpl; [done|].
  destruct (playErr _); simpl; [|by apply IH].
  case_decide; [done|]. destruct (RollbackSavepoint env _ _); simpl; [done|].
  destruct (_ && _); [done|].
  destruct (tSysUpdate _); simpl; [destruct (SysUpdate env _); simpl|]; done.
Qed.
End Steps.

(** ** The executor on [ErrLimitStop] and [ErrNetworkStopping] *)



Section LimitStop.

Variable env : Env.
Variable b : Block.



End LimitStop.



(** The block of [softStopBlock] is finalized with the transaction that
    was accepted before the limit stop: [PlaySafe] inserts and commits a
    block of that transaction alone, and the transaction after the limit
    stop is not executed. *)
Lemma limit_stop_finalizes_block :
  let r := PlaySafe softStopEnv softStopBlock newWorld in
  r.1 = None
  ∧ bTxFullData r.2 = ["a"]
  ∧ omap (λ e, match e with EvPlay t => Some t | _ => None end) (trace r.2)
    = [okTx; limitTx]
  ∧ (∀ msg, EvMarkTransactionBad "t7" msg ∉ trace r.2)
  ∧ drop 15 (trace r.2) = [EvAfterPlayTxs; EvInsertIntoBlockchain; EvCommit].
Proof.
  simpl. split_and!; [reflexivity..| |reflexivity].
  intros msg Hin. vm_compute in Hin.
  repeat (apply elem_of_cons in Hin as [Hin|Hin]; [discriminate Hin|]).
  by apply not_elem_of_nil in Hin.
Qed.

(** ** The ban pass of PlaySafe *)

Lemma elem_of_banSet k banned : FormatInt k ∈ banSet banned ↔ k ∈ banned.
Proof.
  unfold banSet, FormatInt. rewrite elem_of_list_to_set.
  apply (list_elem_of_fmap_inj (pretty : Z → string)).
Qed.

Lemma bannedBy_elem inputTx : ∀ banned k,
  k ∈ bannedBy banned inputTx
  ↔ k ∈ banned ∨ ∃ t, t ∈ inputTx ∧ IsSmartContract t = true ∧ KeyID t = k.
Proof.
  induction inputTx as [|t rest IH]; intros banned k; simpl.
  - split; [by left|]. intros [?|(t & Ht & _)]; [done|]. by apply not_elem_of_nil in Ht.
  - destruct (IsSmartContract t) eqn:Hsc; simpl.
    + case_bool_decide as Hk; rewrite IH.
      * rewrite elem_of_cons. split.
        -- intros [[->|?]|(t' & Ht' & ?)]; [right|by left|right].
           ++ exists t. by rewrite elem_of_cons; auto.
           ++ exists t'. by rewrite elem_of_cons; auto.
        -- intros [?|(t' & [->|Ht']%elem_of_cons & Hs & <-)]; [by auto|by auto|].
           right. by exists t'.
      * split.
        -- intros [?|(t' & Ht' & ?)]; [by left|right].
           exists t'. by rewrite elem_of_cons; auto.
        -- intros [?|(t' & [->|Ht']%elem_of_cons & Hs & <-)]; [by left| |].
           ++ left. by destruct (decide (KeyID t ∈ banned)).
           ++ right. by exists t'.
    + rewrite IH. split.
      * intros [?|(t' & Ht' & ?)]; [by left|right].
        exists t'. by rewrite elem_of_cons; auto.
      * intros [?|(t' & [->|Ht']%elem_of_cons & Hs & <-)]; [by left|congruence|].
        right. by exists t'.
Qed.

Lemma banPassEvents_length msg inputTx : ∀ banned,
  length (banPassEvents msg banned inputTx) = length inputTx.
Proof.
  induction inputTx as [|t rest IH]; intros banned; simpl; [done|].
  destruct (_ && _); simpl; by rewrite IH.
Qed.

Lemma banPassEvents_lookup msg inputTx : ∀ banned i t,
  inputTx !! i = Some t →
  banPassEvents msg banned inputTx !! i
  = Some (if IsSmartContract t
             && bool_decide (KeyID t ∉ bannedBy banned (take i inputTx))
          then EvBadTxForBan (KeyID t) else EvMarkTransactionBad (Hash t) msg).
Proof.
  induction inputTx as [|t0 rest IH]; intros banned i t Hi; [done|].
  destruct i as [|i]; simpl in *.
  - injection Hi as ->. by destruct (_ && _).
  - destruct (IsSmartContract t0 && bool_decide (KeyID t0 ∉ banned)); simpl; by apply IH.
Qed.

Lemma banPassEvents_first msg inputTx i t :
  inputTx !! i = Some t →
  banPassEvents msg [] inputTx !! i
  = Some (if firstOfSender inputTx i t
          then EvBadTxForBan (KeyID t) else EvMarkTransactionBad (Hash t) msg).
Proof.
  intros Hi. rewrite (banPassEvents_lookup _ _ _ _ _ Hi). unfold firstOfSender.
  destruct (IsSmartContract t); simpl; [|done].
  rewrite (bool_decide_ext (KeyID t ∉ bannedBy [] (take i inputTx))
             (Forall (λ t', ¬ (IsSmartContract t' = true ∧ KeyID t' = KeyID t))
                     (take i inputTx))); [done|].
  rewrite bannedBy_elem, Forall_forall. split.
  - intros Hno t' Ht' [Hs Hk]. apply Hno. right. by exists t'.
  - intros Hall [Hin|(t' & Ht' & Hs & Hk)]; [by apply not_elem_of_nil in Hin|].
    by apply (Hall t' Ht').
Qed.

Lemma bannedKeys_elem msg inputTx : ∀ banned k,
  k ∈ bannedKeys (banPassEvents msg banned inputTx)
  ↔ (k ∉ banned) ∧ ∃ t, t ∈ inputTx ∧ IsSmartContract t = true ∧ KeyID t = k.
Proof.
  unfold bannedKeys.
  induction inputTx as [|t rest IH]; intros banned k; simpl.
  - split; [by intros ?%not_elem_of_nil|]. intros [_ (t & Ht & _)].
    by apply not_elem_of_nil in Ht.
  - destruct (IsSmartContract t) eqn:Hsc; simpl.
    + case_bool_decide as Hk; simpl.
      * rewrite elem_of_cons, IH, not_elem_of_cons. split.
        -- intros [->|((Hne & Hnb) & t' & Ht' & Hs & Hkk)].
           ++ split; [done|]. exists t. by rewrite elem_of_cons; auto.
           ++ split; [done|]. exists t'. by rewrite elem_of_cons; auto.
        -- intros [Hnb (t' & [->|Ht']%elem_of_cons & Hs & Hkk)]; [by left|].
           destruct (decide (k = KeyID t)) as [->|Hne]; [by left|].
           right. split; [done|]. by exists t'.
      * rewrite IH. split.
        -- intros [Hnb (t' & Ht' & Hs & Hkk)]. split; [done|].
           exists t'. by rewrite elem_of_cons; auto.
        -- intros [Hnb (t' & [->|Ht']%elem_of_cons & Hs & Hkk)].
           ++ subst k. by destruct (decide (KeyID t ∈ banned)).
           ++ split; [done|]. by exists t'.
    + rewrite IH. split.
      * intros [Hnb (t' & Ht' & Hs & Hkk)]. split; [done|].
        exists t'. by rewrite elem_of_cons; auto.
      * intros [Hnb (t' & [->|Ht']%elem_of_cons & Hs & Hkk)]; [congruence|].
        split; [done|]. by exists t'.
Qed.

Lemma bannedKeys_NoDup msg inputTx : ∀ banned,
  NoDup (bannedKeys (banPassEvents msg banned inputTx)).
Proof.
  induction inputTx as [|t rest IH]; intros banned; simpl; [constructor|].
  destruct (IsSmartContract t && bool_decide (KeyID t ∉ banned)); simpl; [|apply IH].
  apply NoDup_cons. split; [|apply IH].
  intros [Hn _]%bannedKeys_elem. apply Hn. by left.
Qed.

Section BanPass.

Variable env : Env.

(** While [MarkTransactionBad] succeeds, the loop of the code makes the
    calls of [banPassEvents]. *)
Lemma banLoop_app msg pre : ∀ rest banned w,
  (∀ t h, t ∈ pre → MarkTransactionBad env (Hash t) msg h = None) →
  banLoop env msg (pre ++ rest) (banSet banned) w
  = banLoop env msg rest (banSet (bannedBy banned pre))
            (emitAll (banPassEvents msg banned pre) w).
Proof.
  induction pre as [|t pre IH]; intros rest banned w Hok; simpl.
  - by rewrite emitAll_nil.
  - rewrite (bool_decide_ext (FormatInt (KeyID t) ∉ banSet banned) (KeyID t ∉ banned))
      by (by rewrite elem_of_banSet).
    rewrite andb_comm.
    destruct (IsSmartContract t && bool_decide (KeyID t ∉ banned)) eqn:Hc.
    + change ({[FormatInt (KeyID t)]} ∪ banSet banned) with (banSet (KeyID t :: banned)).
      rewrite IH by (intros; apply Hok; by right).
      by rewrite emit_emitAll, emitAll_emitAll.
    + rewrite Hok by (by left). simpl.
      rewrite IH by (intros; apply Hok; by right).
      by rewrite emit_emitAll, emitAll_emitAll.
Qed.

Lemma banLoop_marks_succeed msg inputTx w :
  (∀ t h, t ∈ inputTx → MarkTransactionBad env (Hash t) msg h = None) →
  banLoop env msg inputTx ∅ w = (None, emitAll (banPassEvents msg [] inputTx) w).
Proof.
  intros Hok. rewrite <- (app_nil_r inputTx) at 1.
  change (∅ : gset string) with (banSet []). by rewrite banLoop_app.
Qed.

End BanPass.

Lemma firstOfSender_bannedBy p1 t p2 :
  firstOfSender (p1 ++ t :: p2) (length p1) t
  = IsSmartContract t && bool_decide (KeyID t ∉ bannedBy [] p1).
Proof.
  unfold firstOfSender. rewrite take_app_length. f_equal.
  apply bool_decide_ext. rewrite bannedBy_elem, Forall_forall. split.
  - intros Hall [Hin|(t' & Ht' & Hs & Hk)]; [by apply not_elem_of_nil in Hin|].
    by apply (Hall t' Ht').
  - intros Hno t' Ht' [Hs Hk]. apply Hno. right. by exists t'.
Qed.

Section BanPassFails.

Variable env : Env.

(** While the [MarkTransactionBad] calls it makes succeed, the loop of
    the code makes the calls of [banPassEvents]. *)
Lemma banLoop_prefix msg pre : ∀ rest banned w,
  (∀ p1 t p2, pre = p1 ++ t :: p2 →
     IsSmartContract t && bool_decide (KeyID t ∉ bannedBy banned p1) = false →
     MarkTransactionBad env (Hash t) msg (trace w ++ banPassEvents msg banned p1) = None) →
  banLoop env msg (pre ++ rest) (banSet banned) w
  = banLoop env msg rest (banSet (bannedBy banned pre))
            (emitAll (banPassEvents msg banned pre) w).
Proof.
  induction pre as [|t pre IH]; intros rest banned w Hok; simpl.
  - by rewrite emitAll_nil.
  - rewrite (bool_decide_ext (FormatInt (KeyID t) ∉ banSet banned) (KeyID t ∉ banned))
      by (by rewrite elem_of_banSet).
    rewrite andb_comm.
    destruct (IsSmartContract t && bool_decide (KeyID t ∉ banned)) eqn:Hc.
    + change ({[FormatInt (KeyID t)]} ∪ banSet banned) with (banSet (KeyID t :: banned)).
      rewrite IH; [by rewrite emit_emitAll, emitAll_emitAll|].
      intros p1 t' p2 -> Hf.
      specialize (Hok (t :: p1) t' p2 eq_refl). simpl in Hok. rewrite Hc in Hok.
      simpl. rewrite <- app_assoc. by apply Hok.
    + specialize (Hok [] t pre eq_refl Hc) as Hmark. simpl in Hmark.
      rewrite app_nil_r in Hmark. rewrite Hmark. simpl.
      rewrite IH; [by rewrite emit_emitAll, emitAll_emitAll|].
      intros p1 t' p2 -> Hf.
      specialize (Hok (t :: p1) t' p2 eq_refl). simpl in Hok. rewrite Hc in Hok.
      simpl. rewrite <- app_assoc. by apply Hok.
Qed.

(** The first failing [MarkTransactionBad] ends the loop. *)
Lemma banLoop_first_failure msg pre t post w e' :
  marksSucceed env msg (trace w) pre →
  firstOfSender (pre ++ t :: post) (length pre) t = false →
  MarkTransactionBad env (Hash t) msg (trace w ++ banPassEvents msg [] pre) = Some e' →
  banLoop env msg (pre ++ t :: post) ∅ w
  = (Some e', emitAll (banPassEvents msg [] pre ++ [EvMarkTransactionBad (Hash t) msg]) w).
Proof.
  intros Hok Hfirst Hfail.
  change (∅ : gset string) with (banSet []). rewrite banLoop_prefix.
  - simpl.
    rewrite (bool_decide_ext (FormatInt (KeyID t) ∉ banSet (bannedBy [] pre))
                             (KeyID t ∉ bannedBy [] pre))
      by (by rewrite elem_of_banSet).
    rewrite firstOfSender_bannedBy in Hfirst. rewrite andb_comm, Hfirst. simpl.
    rewrite Hfail. by rewrite emit_emitAll, emitAll_emitAll.
  - intros p1 t' p2 -> Hf. apply (Hok p1 t' p2 eq_refl).
    by rewrite firstOfSender_bannedBy.
Qed.
End BanPassFails.

(** ** PlaySafe after ProcessTxs *)

Section AfterProcess.

Variable env : Env.
Variable b : Block.

Lemma sendAll_emitAll w : sendAll w = emitAll (EvSend <$> bNotifications w) w.
Proof.
  unfold sendAll.
  assert (∀ l w0, foldl (λ w q, emit (EvSend q) w) w0 l = emitAll (EvSend <$> l) w0) as H.
  { induction l as [|q l IH]; intros w0; simpl; [by rewrite emitAll_nil|].
    by rewrite IH, emit_emitAll, emitAll_emitAll. }
  apply H.
Qed.

Lemma PlaySafe_failed w e w1 :
  StartTransaction env (trace w) = None →
  ProcessTxs env b (emit EvStartTransaction w) = (Some e, w1) →
  PlaySafe env b w
  = if GenBlock b && bool_decide (length (bTxFullData w1) = 0%nat) then
      let '(errMark, w2) :=
        banLoop env (Error (messages env) e) (Transactions b) ∅ (emit EvRollback w1) in
      (Some (default e errMark), w2)
    else (Some e, emit EvRollback w1).
Proof.
  intros Hs Hp. unfold PlaySafe. simpl. rewrite Hs, Hp. simpl.
  destruct (_ && _); [|done].
  by destruct (banLoop _ _ _ _ _) as [[em|] w2].
Qed.

Lemma PlaySafe_processed w w1 :
  StartTransaction env (trace w) = None →
  ProcessTxs env b (emit EvStartTransaction w) = (None, w1) →
  PlaySafe env b w
  = if GenBlock b && bool_decide (length (bTxFullData w1) = 0%nat) then
      (Some ErrEmptyBlock, emitAll [EvCommit] w1)
    else
      match InsertIntoBlockchain env (trace w1) with
      | Some e => (Some e, emitAll [EvInsertIntoBlockchain; EvRollback] w1)
      | None =>
        match Commit env (trace w1 ++ [EvInsertIntoBlockchain]) with
        | Some e => (Some e, emitAll [EvInsertIntoBlockchain; EvCommit] w1)
        | None =>
          (None, emitAll ([EvInsertIntoBlockchain; EvCommit]
                          ++ (EvSend <$> bNotifications w1)) w1)
        end
      end.
Proof.
  intros Hs Hp. unfold PlaySafe. simpl. rewrite Hs, Hp. simpl.
  destruct (_ && _); [done|].
  destruct (InsertIntoBlockchain env _); simpl.
  { by rewrite !emit_emitAll, !emitAll_emitAll. }
  destruct (Commit env _); simpl.
  { by rewrite !emit_emitAll, !emitAll_emitAll. }
  by rewrite sendAll_emitAll, !emit_emitAll, !emitAll_emitAll.
Qed.

(** The calls of a block play up to the end of [ProcessTxs]. *)
Lemma ProcessTxs_events w r w1 :
  ProcessTxs env b (emit EvStartTransaction w) = (r, w1) →
  ∃ l0, trace w1 = trace w ++ EvStartTransaction :: l0 ∧ forallb playEvent l0 = true.
Proof.
  intros Hp. pose proof (ProcessTxs_grows env b (emit EvStartTransaction w)) as (l0 & H & F).
  rewrite Hp in H. simpl in H. exists l0. split; [|done].
  by rewrite H, <- app_assoc.
Qed.
End AfterProcess.

Lemma playEvents_no_send l q : forallb playEvent l = true → EvSend q ∉ l.
Proof.
  intros Hf Hin. rewrite forallb_forall in Hf.
  apply list_elem_of_In in Hin. by specialize (Hf _ Hin).
Qed.

Lemma banLoop_grows env msg inputTx : ∀ banK w,
  grows playEvent w (banLoop env msg inputTx banK w).2.
Proof.
  induction inputTx as [|t rest IH]; intros banK w; simpl; [apply grows_refl|].
  destruct (_ && _).
  - eapply grows_trans; [|apply IH]. grows_direct.
  - destruct (MarkTransactionBad env _ _ _); simpl; [grows_direct|].
    eapply grows_trans; [|apply IH]. grows_direct.
Qed.

(** ** Generation of an empty block *)

(** C6. When a block is being generated, [ProcessTxs] succeeds and
    nothing was accepted, [PlaySafe] commits the outer transaction and
    returns [ErrEmptyBlock]; the commit is its last call, and no
    notification is sent. *)
Theorem empty_generation env b w w1 :
  GenBlock b = true →
  StartTransaction env (trace w) = None →
  ProcessTxs env b (emit EvStartTransaction w) = (None, w1) →
  bTxFullData w1 = [] →
  PlaySafe env b w = (Some ErrEmptyBlock, emit EvCommit w1)
  ∧ (∃ l0, newEvents w (emit EvCommit w1) = EvStartTransaction :: l0 ++ [EvCommit]
           ∧ forallb playEvent l0 = true)
  ∧ ∀ q, EvSend q ∉ newEvents w (emit EvCommit w1).
Proof.
  intros Hgen Hs Hp Hfd.
  assert (∃ l0, newEvents w (emit EvCommit w1) = EvStartTransaction :: l0 ++ [EvCommit]
                ∧ forallb playEvent l0 = true) as Hev.
  { destruct (ProcessTxs_events env b w _ _ Hp) as (l0 & Hl0 & Hf).
    exists l0. split; [|done]. unfold newEvents. simpl.
    rewrite Hl0, <- app_assoc. by rewrite drop_app_length. }
  split_and!; [|done|].
  - rewrite (PlaySafe_processed env b w w1 Hs Hp), Hgen, Hfd. done.
  - intros q. destruct Hev as (l0 & -> & Hf).
    rewrite elem_of_cons, elem_of_app, list_elem_of_singleton.
    intros [?|[Hin|?]]; [done| |done]. by apply (playEvents_no_send l0 q).
Qed.

Lemma empty_generation_witness :
  GenBlock emptyBlock = true
  ∧ PlaySafe (calmEnv [] (λ _, played None)) emptyBlock newWorld
    = (Some ErrEmptyBlock,
       mkWorld [EvStartTransaction; EvGetTxOutputs []; EvPutAllOutputsMap;
                EvAfterPlayTxs; EvCommit]
               [] (Some (mkAfterTxs [] [] [])) false [] (mkAfterTxs [] [] []) []
               initGroupVars initGroupVars).
Proof.
  split; [reflexivity|].
  exact (proj1 (empty_generation (calmEnv [] (λ _, played None)) emptyBlock newWorld
                  (ProcessTxs (calmEnv [] (λ _, played None)) emptyBlock
                              (emit EvStartTransaction newWorld)).2
                  eq_refl eq_refl eq_refl eq_refl)).
Defined.

(** ** Notifications *)

(** C9. A notification is sent only on the path of [PlaySafe] on which
    [ProcessTxs], [InsertIntoBlockchain] and [Commit] all succeeded, and
    then after the commit: the calls of the block play are those of
    [ProcessTxs], the insertion, the commit and the sends, in that
    order. *)
Theorem notification_gating env b w q :
  EvSend q ∈ newEvents w (PlaySafe env b w).2 →
  ∃ w1 l0,
    StartTransaction env (trace w) = None
    ∧ ProcessTxs env b (emit EvStartTransaction w) = (None, w1)
    ∧ InsertIntoBlockchain env (trace w1) = None
    ∧ Commit env (trace w1 ++ [EvInsertIntoBlockchain]) = None
    ∧ (PlaySafe env b w).1 = None
    ∧ newEvents w (PlaySafe env b w).2
      = EvStartTransaction :: l0 ++ [EvInsertIntoBlockchain; EvCommit]
                                  ++ (EvSend <$> bNotifications w1)
    ∧ forallb playEvent l0 = true.
Proof.
  destruct (StartTransaction env (trace w)) as [e0|] eqn:Hs.
  { unfold PlaySafe. simpl. rewrite Hs. unfold newEvents. simpl.
    rewrite drop_app_length. by intros [?|?%not_elem_of_nil]%elem_of_cons. }
  destruct (ProcessTxs env b (emit EvStartTransaction w)) as [r w1] eqn:Hp.
  destruct (ProcessTxs_events env b w _ _ Hp) as (l0 & Hl0 & Hf).
  assert (∀ l, newEvents w (emitAll l w1) = EvStartTransaction :: l0 ++ l) as Hnew.
  { intros l. unfold newEvents. simpl. rewrite Hl0, <- app_assoc.
    by rewrite drop_app_length. }
  destruct r as [e|].
  - rewrite (PlaySafe_failed env b w e w1 Hs Hp).
    assert (EvSend q ∉ newEvents w (emit EvRollback w1)) as Hrb.
    { rewrite emit_emitAll, Hnew, elem_of_cons, elem_of_app, list_elem_of_singleton.
      intros [?|[Hin|?]]; [done| |done]. by apply (playEvents_no_send l0 q). }
    destruct (_ && _); [|done].
    pose proof (banLoop_grows env (Error (messages env) e) (Transactions b) ∅
                  (emit EvRollback w1)) as (l1 & Hl1 & Hf1).
    destruct (banLoop _ _ _ _ _) as [em w2]. simpl in *.
    unfold newEvents. rewrite Hl1, Hl0, <- !app_assoc, drop_app_length. simpl.
    rewrite elem_of_cons, elem_of_app, elem_of_cons.
    intros [?|[Hin|[?|Hin]]]; [done| |done|].
    + by apply (playEvents_no_send l0 q) in Hin.
    + by apply (playEvents_no_send l1 q) in Hin.
  - rewrite (PlaySafe_processed env b w w1 Hs Hp).
    destruct (_ && _).
    { simpl. rewrite Hnew, elem_of_cons, elem_of_app, list_elem_of_singleton.
      intros [?|[Hin|?]]; [done| |done]. by apply (playEvents_no_send l0 q) in Hin. }
    destruct (InsertIntoBlockchain env (trace w1)) as [ei|] eqn:Hi.
    { simpl. rewrite Hnew, elem_of_cons, elem_of_app, !elem_of_cons.
      intros [?|[Hin|[?|[?|?%not_elem_of_nil]]]]; try done.
      by apply (playEvents_no_send l0 q) in Hin. }
    destruct (Commit env _) as [ec|] eqn:Hc.
    { simpl. rewrite Hnew, elem_of_cons, elem_of_app, !elem_of_cons.
      intros [?|[Hin|[?|[?|?%not_elem_of_nil]]]]; try done.
      by apply (playEvents_no_send l0 q) in Hin. }
    intros _. exists w1, l0. simpl. by rewrite Hnew.
Qed.

Lemma notification_gating_witness :
  EvSend ["hello"] ∈ newEvents newWorld (PlaySafe notifyingEnv notifyingBlock newWorld).2
  ∧ (PlaySafe notifyingEnv notifyingBlock newWorld).1 = None.
Proof.
  assert (EvSend ["hello"]
          ∈ newEvents newWorld (PlaySafe notifyingEnv notifyingBlock newWorld).2) as Hin.
  { apply (bool_decide_unpack _). by vm_compute. }
  split; [exact Hin|].
  by destruct (notification_gating notifyingEnv notifyingBlock newWorld ["hello"] Hin)
    as (w1 & l0 & _ & _ & _ & _ & Hr & _).
Defined.

(** ** The ban pass after a failed generation *)

(** C4, as the code has it.  When [ProcessTxs] fails while a block is
    being generated and nothing was accepted, and every
    [MarkTransactionBad] of the pass succeeds, [PlaySafe] rolls back,
    makes exactly one call per transaction of the input, in input order,
    and returns the error of [ProcessTxs].  The call is [BadTxForBan] for
    the first smart-contract transaction of each sender, which is not
    marked bad, and [MarkTransactionBad] with the error message for every
    other transaction.  So every sender of a smart-contract transaction
    is registered exactly once. *)
Theorem ban_pass env b w e w1 :
  GenBlock b = true →
  StartTransaction env (trace w) = None →
  ProcessTxs env b (emit EvStartTransaction w) = (Some e, w1) →
  bTxFullData w1 = [] →
  (∀ t h, t ∈ Transactions b →
          MarkTransactionBad env (Hash t) (Error (messages env) e) h = None) →
  let msg := Error (messages env) e in
  let evs := banPassEvents msg [] (Transactions b) in
  PlaySafe env b w = (Some e, emitAll (EvRollback :: evs) w1)
  ∧ NoDup (bannedKeys evs)
  ∧ (∀ k, k ∈ bannedKeys evs
          ↔ ∃ t, t ∈ Transactions b ∧ IsSmartContract t = true ∧ KeyID t = k)
  ∧ length evs = length (Transactions b)
  ∧ (∀ i t, Transactions b !! i = Some t →
            evs !! i = Some (if firstOfSender (Transactions b) i t
                             then EvBadTxForBan (KeyID t)
                             else EvMarkTransactionBad (Hash t) msg)).
Proof.
  intros Hgen Hs Hp Hfd Hok msg evs. split_and!.
  - rewrite (PlaySafe_failed env b w e w1 Hs Hp), Hgen, Hfd. simpl.
    rewrite (banLoop_marks_succeed env msg (Transactions b)) by done.
    by rewrite emit_emitAll, emitAll_emitAll.
  - apply bannedKeys_NoDup.
  - intros k. unfold evs. rewrite bannedKeys_elem. split; [by intros [_ ?]|].
    intros ?. split; [apply not_elem_of_nil | done].
  - apply banPassEvents_length.
  - intros i t Hi. by apply banPassEvents_first.
Qed.

Lemma ban_pass_witness :
  (PlaySafe (outageEnv threeSenders) outageBlock newWorld).1 = Some (ErrNew "db down")
  ∧ drop 7 (trace (PlaySafe (outageEnv threeSenders) outageBlock newWorld).2)
    = [EvRollback; EvBadTxForBan 7; EvMarkTransactionBad "b" "db down";
       EvMarkTransactionBad "c" "db down"; EvBadTxForBan 8].
Proof.
  pose proof (ban_pass (outageEnv threeSenders) outageBlock newWorld (ErrNew "db down")
                (ProcessTxs (outageEnv threeSenders) outageBlock
                            (emit EvStartTransaction newWorld)).2
                eq_refl eq_refl eq_refl eq_refl (λ _ _ _, eq_refl)) as [-> _].
  split; reflexivity.
Defined.

(** The claim of C4 that every transaction of the input is marked bad
    fails for a block of one smart-contract transaction: its sender is
    registered for banning and the transaction is not marked. *)
Lemma ban_pass_counterexample :
  let r := PlaySafe (outageEnv [sctx "a" 7])
                    (generating [sctx "a" 7] [(SmartContractTxType, ["a"])]) newWorld in
  r.1 = Some (ErrNew "db down")
  ∧ trace r.2 = [EvStartTransaction; EvUnmarshallTransaction "a"; EvGetTxOutputs [7];
                 EvAfterPlayTxs; EvRollback; EvBadTxForBan 7]
  ∧ ∀ msg, EvMarkTransactionBad "a" msg ∉ trace r.2.
Proof.
  simpl. split_and!; [reflexivity..|].
  intros msg Hin. vm_compute in Hin.
  repeat (apply elem_of_cons in Hin as [Hin|Hin]; [discriminate Hin|]).
  by apply not_elem_of_nil in Hin.
Qed.

(** C10. In the ban pass, the first [MarkTransactionBad] that returns an
    error ends [PlaySafe] with that error in place of the error of
    [ProcessTxs]; the call is the last one made, so the transactions
    after it are neither registered for banning nor marked bad. *)
Theorem mark_error_ends_ban_pass env b w e w1 pre t post e' :
  GenBlock b = true →
  StartTransaction env (trace w) = None →
  ProcessTxs env b (emit EvStartTransaction w) = (Some e, w1) →
  bTxFullData w1 = [] →
  Transactions b = pre ++ t :: post →
  let msg := Error (messages env) e in
  marksSucceed env msg (trace w1 ++ [EvRollback]) pre →
  firstOfSender (Transactions b) (length pre) t = false →
  MarkTransactionBad env (Hash t) msg
                     (trace w1 ++ EvRollback :: banPassEvents msg [] pre) = Some e' →
  PlaySafe env b w
  = (Some e',
     emitAll (EvRollback :: banPassEvents msg [] pre ++ [EvMarkTransactionBad (Hash t) msg])
             w1).
Proof.
  intros Hgen Hs Hp Hfd Htx msg Hok Hfirst Hfail.
  rewrite (PlaySafe_failed env b w e w1 Hs Hp), Hgen, Hfd. simpl.
  rewrite Htx in *.
  rewrite (banLoop_first_failure env msg pre t post _ e'); [|done..|].
  - by rewrite emit_emitAll, emitAll_emitAll.
  - simpl. by rewrite <- app_assoc.
Qed.

Lemma mark_error_ends_ban_pass_witness :
  PlaySafe stuckEnv outageBlock newWorld
  = (Some (ErrNew "queue closed"),
     emitAll [EvRollback; EvBadTxForBan 7; EvMarkTransactionBad "b" "db down"]
             (ProcessTxs stuckEnv outageBlock (emit EvStartTransaction newWorld)).2)
  ∧ PlaySafe markOnceEnv outageBlock newWorld
    = (Some (ErrNew "queue closed"),
       emitAll [EvRollback; EvBadTxForBan 7; EvMarkTransactionBad "b" "db down";
                EvMarkTransactionBad "c" "db down"]
               (ProcessTxs markOnceEnv outageBlock (emit EvStartTransaction newWorld)).2).
Proof.
  split.
  - apply (mark_error_ends_ban_pass stuckEnv outageBlock newWorld (ErrNew "db down")
             _ [sctx "a" 7] (plaintx "b" 7) [sctx "c" 7; sctx "d" 8]); try reflexivity.
    intros p1 t p2 Heq Hf. by destruct p1 as [|x [|y p1]]; simplify_eq/=.
  - apply (mark_error_ends_ban_pass markOnceEnv outageBlock newWorld (ErrNew "db down")
             _ [sctx "a" 7; plaintx "b" 7] (sctx "c" 7) [sctx "d" 8]); try reflexivity.
    intros p1 t p2 Heq Hf. by destruct p1 as [|x [|y [|z p1]]]; simplify_eq/=.
Defined.

(** ** A generated block with one failing transaction *)

Lemma trace_accept t p w :
  trace (accept t p w) = trace w ++ [EvUpdateTxInputs (Hash t); EvInsertTxOutputs (Hash t)].
Proof.
  unfold accept. destruct (tSysUpdate p); case_decide; simpl; by rewrite <- app_assoc.
Qed.

Lemma processedTx_accept t p w :
  processedTx (accept t p w) = processedTx w ++ [FullData t].
Proof. unfold accept. by destruct (tSysUpdate p); case_decide. Qed.

Lemma afters_accept t p w :
  afters (accept t p w) = appendAfters t p (afters w).
Proof. unfold accept. by destruct (tSysUpdate p); case_decide. Qed.

Lemma serialPhase_empty env b k genBErr (m : TxsMap) w :
  m k = [] → serialPhase env b k genBErr m w = (None, m, w).
Proof. intros H. unfold serialPhase. by rewrite H. Qed.

Lemma genesisPhase_skipped env b genBErr w :
  IsGenesis b = false → genesisPhase env b genBErr w = (None, w).
Proof. intros H. unfold genesisPhase. by rewrite H. Qed.

Lemma transferSelfPhase_empty env b genBErr (m : TxsMap) w :
  m TransferSelfTxType = [] → transferSelfPhase env b genBErr m w = (m, w).
Proof. intros H. unfold transferSelfPhase. by rewrite H. Qed.

(** The second parallel phase of a block with smart-contract transactions
    and no UTXO transaction, from reset package variables, under a
    schedule that runs each goroutine once: one goroutine, for group 0. *)
Lemma utxoPhase_contracts_only env b genBErr (m : TxsMap) w :
  (∀ l, schedule env l ≡ₚ l) →
  m UtxoTxType = [] → m SmartContractTxType ≠ [] → utxoVars w = initGroupVars →
  (utxoPhase env b genBErr m w).2
  = setUtxoVars initGroupVars
      (serialExecuteTxs env b (m SmartContractTxType) genBErr
         (setUtxoVars (mkGroupVars {[Itoa 0 := m SmartContractTxType]} [] 1) w)).2.
Proof.
  intros Hsched Hu Hs Hv. unfold utxoPhase. rewrite Hu, Hv.
  destruct (m SmartContractTxType) as [|t ts] eqn:Hsc; [done|].
  change (groupUtxoRun [] initGroupVars) with initGroupVars.
  rewrite (bool_decide_eq_true_2 (0 < length (t :: ts))%nat) by (simpl; lia).
  rewrite orb_true_r.
  destruct (decide (0 < length (t :: ts))%nat); [|simpl in *; lia].
  cbn [TxsGroupMap initGroupVars GroupTxsList GroupSerial snd].
  rewrite insert_empty, map_to_list_singleton.
  pose proof (Hsched [(Itoa 0, t :: ts)]) as ->%Permutation_singleton_r.
  simpl. by destruct (serialExecuteTxs _ _ _ _ _).
Qed.

#[local] Arguments accept : simpl never.

#[local] Arguments emitAll : simpl never.

Section GenerationScenario.

Variable env : Env.
Variable b : Block.
Variable w : World.
Variables tx_ok tx_bad tx_ok2 : Transaction.
Variable e : error.

Hypothesis generating_block : GenBlock b = true.
Hypothesis not_genesis : IsGenesis b = false.
Hypothesis block_transactions : Transactions b = [tx_ok; tx_bad; tx_ok2].
Hypothesis block_classes :
  ClassifyTxsMap b
  = [(SmartContractTxType, [FullData tx_ok; FullData tx_bad; FullData tx_ok2])].
Hypothesis bad_is_contract : IsSmartContract tx_bad = true.
Hypothesis groupers_reset : utxoVars w = initGroupVars.
Hypothesis fair_schedule : ∀ l, schedule env l ≡ₚ l.
Hypothesis start_ok : ∀ h, StartTransaction env h = None.
Hypothesis unmarshal_ok : ∀ t h,
  t ∈ [tx_ok; tx_bad; tx_ok2] → UnmarshallTransaction env (FullData t) h = Parsed t.
Hypothesis outputs_ok : ∀ ks h, GetTxOutputs env ks h = None.
Hypothesis savepoint_ok : ∀ n h, Savepoint env n h = None.
Hypothesis rollback_savepoint_ok : ∀ n h, RollbackSavepoint env n h = None.
Hypothesis with_option_ok : ∀ t h, WithOption env t h = None.
Hypothesis ok_plays : ∀ h, playErr (Play env tx_ok h) = None.
Hypothesis ok2_plays : ∀ h, playErr (Play env tx_ok2 h) = None.
Hypothesis bad_fails : ∀ h, playErr (Play env tx_bad h) = Some e.
Hypothesis not_stopping : e ≠ ErrNetworkStopping.
Hypothesis not_limit : Cause e ≠ ErrLimitStop.
Hypothesis sysupdate_ok : ∀ h, SysUpdate env h = None.
Hypothesis after_play_ok : ∀ h, AfterPlayTxs env h = None.
Hypothesis insert_ok : ∀ h, InsertIntoBlockchain env h = None.
Hypothesis commit_ok : ∀ h, Commit env h = None.

Lemma trace_emitAll l w0 : trace (emitAll l w0) = trace w0 ++ l.
Proof. done. Qed.

Lemma processedTx_emitAll l w0 : processedTx (emitAll l w0) = processedTx w0.
Proof. done. Qed.

Lemma afters_emitAll l w0 : afters (emitAll l w0) = afters w0.
Proof. done. Qed.

Lemma scenario_prelude w0 :
  processPrelude env b w0
  = (setKind SmartContractTxType [tx_ok; tx_bad; tx_ok2] (λ _, []),
     setProcessedTx []
       (emitAll [EvUnmarshallTransaction (FullData tx_ok);
                 EvUnmarshallTransaction (FullData tx_bad);
                 EvUnmarshallTransaction (FullData tx_ok2)]
                (setAfters (mkAfterTxs [] [] []) w0))).
Proof.
  unfold processPrelude. rewrite block_classes. simpl.
  rewrite !unmarshal_ok by set_solver. simpl.
  by rewrite !emit_emitAll, !emitAll_emitAll.
Qed.

Lemma scenario_reaches t w0 :
  reachesPlay env t w0
    (Play env t (trace w0 ++ [EvSavepoint (savePointName env t); EvWithOption t])).
Proof. split_and!; [apply savepoint_ok|apply with_option_ok|reflexivity]. Qed.

Lemma scenario_group w0 :
  ∃ sys w3 a1 a2,
  serialExecuteTxs env b [tx_ok; tx_bad; tx_ok2] None w0 = (None, w3)
  ∧ trace w3 = trace w0 ++ enterEvents env tx_ok
       ++ [EvUpdateTxInputs (Hash tx_ok); EvInsertTxOutputs (Hash tx_ok)]
       ++ enterEvents env tx_bad
       ++ [EvRollbackSavepoint (savePointName env tx_bad); EvBadTxForBan (KeyID tx_bad);
           EvMarkTransactionBad (Hash tx_bad) (Error (messages env) (normalized env e))]
       ++ sys ++ enterEvents env tx_ok2
       ++ [EvUpdateTxInputs (Hash tx_ok2); EvInsertTxOutputs (Hash tx_ok2)]
  ∧ (sys = [] ∨ sys = [EvSysUpdate])
  ∧ processedTx w3 = processedTx w0 ++ [FullData tx_ok; FullData tx_ok2]
  ∧ Txs (afters w3) = Txs (afters w0) ++ [a1; a2]
  ∧ UsedTx a1 = Hash tx_ok ∧ UsedTx a2 = Hash tx_ok2.
Proof.
  unfold serialExecuteTxs.
  rewrite (step_accept env b 0 tx_ok _ None w0 _ (scenario_reaches _ _) (ok_plays _)).
  set (p1 := Play env tx_ok _). set (w1 := accept tx_ok p1 _).
  rewrite (step_reject_generation env b 1 tx_bad _ None w1 _ e
             (scenario_reaches _ _) (bad_fails _)); [|done..].
  set (p2 := Play env tx_bad _). set (w2 := emitAll _ w1).
  rewrite (step_accept env b 2 tx_ok2 _ _ w2 _ (scenario_reaches _ _) (ok2_plays _)).
  set (p3 := Play env tx_ok2 _). set (w3 := accept tx_ok2 p3 _).
  exists (if tSysUpdate p2 then [EvSysUpdate] else []), w3,
         (afterOf tx_ok p1), (afterOf tx_ok2 p3).
  split_and!; [done| |destruct (tSysUpdate p2); [by right|by left]| | |done..].
  - unfold w3, w2, w1. rewrite !trace_accept, !trace_emitAll, trace_accept, trace_emitAll.
    unfold rejectEvents. rewrite bad_is_contract. rewrite <- !app_assoc. done.
  - unfold w3, w2, w1.
    rewrite processedTx_accept, !processedTx_emitAll, processedTx_accept,
      processedTx_emitAll. by rewrite <- app_assoc.
  - unfold w3, w2, w1.
    rewrite afters_accept, !afters_emitAll, afters_accept, afters_emitAll.
    simpl. by rewrite <- app_assoc.
Qed.

Lemma scenario_ProcessTxs w0 :
  utxoVars w0 = initGroupVars →
  ∃ sys w1 a,
  ProcessTxs env b w0 = (None, w1)
  ∧ trace w1 = trace w0
       ++ [EvUnmarshallTransaction (FullData tx_ok);
           EvUnmarshallTransaction (FullData tx_bad);
           EvUnmarshallTransaction (FullData tx_ok2);
           EvGetTxOutputs [KeyID tx_ok; KeyID tx_bad; KeyID tx_ok2];
           EvPutAllOutputsMap]
       ++ enterEvents env tx_ok
       ++ [EvUpdateTxInputs (Hash tx_ok); EvInsertTxOutputs (Hash tx_ok)]
       ++ enterEvents env tx_bad
       ++ [EvRollbackSavepoint (savePointName env tx_bad); EvBadTxForBan (KeyID tx_bad);
           EvMarkTransactionBad (Hash tx_bad) (Error (messages env) (normalized env e))]
       ++ sys ++ enterEvents env tx_ok2
       ++ [EvUpdateTxInputs (Hash tx_ok2); EvInsertTxOutputs (Hash tx_ok2);
           EvAfterPlayTxs]
  ∧ (sys = [] ∨ sys = [EvSysUpdate])
  ∧ bTxFullData w1 = [FullData tx_ok; FullData tx_ok2]
  ∧ processedTx w1 = [FullData tx_ok; FullData tx_ok2]
  ∧ bAfterTxs w1 = Some a
  ∧ UsedTx <$> Txs a = [Hash tx_ok; Hash tx_ok2].
Proof.
  intros Hvars. unfold ProcessTxs. rewrite scenario_prelude.
  set (m := setKind SmartContractTxType [tx_ok; tx_bad; tx_ok2] (λ _, [])).
  set (w1 := setProcessedTx [] _).
  unfold processBody. rewrite generating_block, block_transactions.
  cbn [negb andb map]. unfold ask. rewrite outputs_ok.
  rewrite serialPhase_empty by done.
  rewrite genesisPhase_skipped by done.
  rewrite serialPhase_empty by done.
  rewrite transferSelfPhase_empty by done.
  set (w2 := emit EvPutAllOutputsMap _).
  destruct (scenario_group
              (setUtxoVars (mkGroupVars {[Itoa 0 := [tx_ok; tx_bad; tx_ok2]]} [] 1) w2))
    as (sys & w3 & a1 & a2 & Hrun & Htr & Hsys & Hpr & Hafter & Ha1 & Ha2).
  pose proof (utxoPhase_contracts_only env b None m w2 fair_schedule eq_refl
                ltac:(done) Hvars) as Hphase.
  change (m SmartContractTxType) with [tx_ok; tx_bad; tx_ok2] in Hphase.
  rewrite Hrun in Hphase.
  destruct (utxoPhase env b None m w2) as [m' w4]. simpl in Hphase. subst w4.
  unfold processDeferred. rewrite generating_block, not_genesis. cbn [orb snd].
  unfold ask. rewrite after_play_ok.
  eexists sys, _, _. split; [reflexivity|].
  split_and!; [|done| | |reflexivity|].
  - simpl. rewrite Htr. by repeat (rewrite <- app_assoc; simpl).
  - simpl. by rewrite Hpr.
  - simpl. by rewrite Hpr.
  - simpl. rewrite Hafter. simpl. by rewrite Ha1, Ha2.
Qed.

Lemma scenario_PlaySafe :
  ∃ w' sys a,
    PlaySafe env b w = (None, w')
    ∧ newEvents w w' = scenarioEvents env tx_ok tx_bad tx_ok2 e sys (bNotifications w')
    ∧ (sys = [] ∨ sys = [EvSysUpdate])
    ∧ processedTx w' = [FullData tx_ok; FullData tx_ok2]
    ∧ bTxFullData w' = [FullData tx_ok; FullData tx_ok2]
    ∧ bAfterTxs w' = Some a
    ∧ UsedTx <$> Txs a = [Hash tx_ok; Hash tx_ok2].
Proof.
  destruct (scenario_ProcessTxs (emit EvStartTransaction w) groupers_reset)
    as (sys & w1 & a & Hp & Htr & Hsys & Hfd & Hpr & Ha & Hused).
  rewrite (PlaySafe_processed env b w w1 (start_ok _) Hp).
  rewrite Hfd, insert_ok, commit_ok, andb_false_r.
  eexists _, sys, a. split; [reflexivity|]. split_and!; [|done..].
  unfold newEvents, scenarioEvents. rewrite trace_emitAll, Htr. simpl.
  repeat (rewrite <- app_assoc; simpl). by rewrite drop_app_length.
Qed.
End GenerationScenario.

(** C2. A block being generated whose transactions [tx_ok], [tx_bad],
    [tx_ok2] are smart-contract transactions of one class, of which only
    [tx_bad] fails, with an error that is neither [ErrNetworkStopping]
    nor of cause [ErrLimitStop], while every other call succeeds:
    [PlaySafe] returns nil after committing the outer transaction without
    any rollback of it; the accepted list is [tx_ok; tx_ok2]; [tx_bad] is
    marked bad and its sender registered for banning; [AfterTxs.Txs] has
    the two entries of [tx_ok] and [tx_ok2]. *)
Theorem generation_skips_failing_tx env b w tx_ok tx_bad tx_ok2 e :
  GenBlock b = true → IsGenesis b = false →
  Transactions b = [tx_ok; tx_bad; tx_ok2] →
  ClassifyTxsMap b
  = [(SmartContractTxType, [FullData tx_ok; FullData tx_bad; FullData tx_ok2])] →
  IsSmartContract tx_bad = true →
  utxoVars w = initGroupVars →
  (∀ l, schedule env l ≡ₚ l) →
  (∀ h, StartTransaction env h = None) →
  (∀ t h, t ∈ [tx_ok; tx_bad; tx_ok2] →
          UnmarshallTransaction env (FullData t) h = Parsed t) →
  (∀ ks h, GetTxOutputs env ks h = None) →
  (∀ n h, Savepoint env n h = None) →
  (∀ n h, RollbackSavepoint env n h = None) →
  (∀ t h, WithOption env t h = None) →
  (∀ h, playErr (Play env tx_ok h) = None) →
  (∀ h, playErr (Play env tx_ok2 h) = None) →
  (∀ h, playErr (Play env tx_bad h) = Some e) →
  e ≠ ErrNetworkStopping → Cause e ≠ ErrLimitStop →
  (∀ h, SysUpdate env h = None) →
  (∀ h, AfterPlayTxs env h = None) →
  (∀ h, InsertIntoBlockchain env h = None) →
  (∀ h, Commit env h = None) →
  ∃ w' sys a,
    PlaySafe env b w = (None, w')
    ∧ newEvents w w'
      = scenarioEvents env tx_ok tx_bad tx_ok2 e sys (bNotifications w')
    ∧ (sys = [] ∨ sys = [EvSysUpdate])
    ∧ processedTx w' = [FullData tx_ok; FullData tx_ok2]
    ∧ bTxFullData w' = [FullData tx_ok; FullData tx_ok2]
    ∧ bAfterTxs w' = Some a
    ∧ UsedTx <$> Txs a = [Hash tx_ok; Hash tx_ok2].
Proof. intros. by apply scenario_PlaySafe. Qed.

Lemma generation_skips_failing_tx_witness :
  (PlaySafe oneFailingEnv oneFailingBlock newWorld).1 = None
  ∧ bTxFullData (PlaySafe oneFailingEnv oneFailingBlock newWorld).2 = ["a"; "c"].
Proof.
  destruct (generation_skips_failing_tx oneFailingEnv oneFailingBlock newWorld
              okTx badTx ok2Tx (ErrNew "boom"))
    as (w' & sys & a & -> & _ & _ & _ & Hfd & _); try reflexivity; try done.
  intros t h Hin.
  repeat (apply elem_of_cons in Hin as [->|Hin]; [reflexivity|]).
  by apply not_elem_of_nil in Hin.
Defined.

(** ** The generation error *)

(** C1, at an input where the code departs from it.  A block being
    generated has one transaction, in the serially executed Delay class,
    and its [Play] fails with a plain error.  The executor marks it bad
    and assigns the error to its own parameter [genBErr]; the [genBErr] of
    [ProcessTxs] stays nil, so [ProcessTxs] returns nil and [PlaySafe]
    goes on to commit and return [ErrEmptyBlock]. *)
Theorem generation_error_not_returned :
  (ProcessTxs boomEnv boomBlock (emit EvStartTransaction newWorld)).1 = None
  ∧ trace (ProcessTxs boomEnv boomBlock (emit EvStartTransaction newWorld)).2
    = [EvStartTransaction; EvUnmarshallTransaction "x"; EvGetTxOutputs [9];
       EvPutAllOutputsMap; EvSavepoint "block_78"; EvWithOption boomTx; EvPlay boomTx;
       EvRollbackSavepoint "block_78"; EvMarkTransactionBad "x" "boom"; EvAfterPlayTxs]
  ∧ PlaySafe boomEnv boomBlock newWorld
    = (Some ErrEmptyBlock,
       emit EvCommit (ProcessTxs boomEnv boomBlock (emit EvStartTransaction newWorld)).2).
Proof. split_and!; vm_compute; reflexivity. Qed.

(** ** ErrNetworkStopping *)

Lemma banPassEvents_playEvents msg inputTx : ∀ banned,
  forallb playEvent (banPassEvents msg banned inputTx) = true.
Proof.
  induction inputTx as [|t rest IH]; intros banned; simpl; [done|].
  destruct (_ && _); simpl; apply IH.
Qed.

(** [ProcessTxs] after a body that returned an error, when the post-play
    aggregation succeeds. *)
Lemma processDeferred_error env b e w :
  AfterPlayTxs env (trace w) = None →
  ∃ w1, processDeferred env b None (Some e, w) = (Some e, w1)
        ∧ trace w1 = trace w ++ [EvAfterPlayTxs]
        ∧ bTxFullData w1 = (if GenBlock b then processedTx w else bTxFullData w).
Proof.
  intros Ha. unfold processDeferred, ask.
  destruct (IsGenesis b), (GenBlock b); simpl; rewrite Ha; by eexists.
Qed.

(** C7, as the code has it.  A transaction whose [Play] returns
    [ErrNetworkStopping] makes the executor call [PauseNodeActivity] and
    return the error at once: no savepoint rollback, no marking, no
    further transaction of the group.  An error the executor returns in
    the StopNetwork, genesis or Delay phase is the result of the body of
    [ProcessTxs].  When that result is [ErrNetworkStopping], the post-play
    aggregation succeeds and, for a block being generated with nothing
    accepted, no [MarkTransactionBad] of the ban pass fails, [PlaySafe]
    rolls back the outer transaction and returns [ErrNetworkStopping];
    after the rollback it makes the calls of the ban pass only. *)
Theorem network_stopping env b :
  (∀ curTx t rest genBErr w p,
     reachesPlay env t w p → playErr p = Some ErrNetworkStopping →
     serialLoop env b curTx (t :: rest) genBErr w
     = (Some ErrNetworkStopping, emitAll (enterEvents env t ++ [EvPauseNodeActivity]) w))
  ∧ (∀ m w e w',
       negb (GenBlock b) && negb (IsGenesis b) && BlockSyncMethodIsSQLDML env = false →
       GetTxOutputs env (map KeyID (Transactions b)) (trace w) = None →
       let w0 := emit EvPutAllOutputsMap
                      (emit (EvGetTxOutputs (map KeyID (Transactions b))) w) in
       ((∃ m1, serialPhase env b StopNetworkTxType None m w0 = (Some e, m1, w'))
        ∨ (∃ m1 w1, serialPhase env b StopNetworkTxType None m w0 = (None, m1, w1)
                    ∧ genesisPhase env b None w1 = (Some e, w'))
        ∨ (∃ m1 w1 w2 m2,
             serialPhase env b StopNetworkTxType None m w0 = (None, m1, w1)
             ∧ genesisPhase env b None w1 = (None, w2)
             ∧ serialPhase env b DelayTxType None m1 w2 = (Some e, m2, w'))) →
       processBody env b None m w = (Some e, w'))
  ∧ (∀ w m w3 w5,
       StartTransaction env (trace w) = None →
       processPrelude env b (emit EvStartTransaction w) = (m, w3) →
       processBody env b None m w3 = (Some ErrNetworkStopping, w5) →
       AfterPlayTxs env (trace w5) = None →
       (GenBlock b = false ∨ processedTx w5 ≠ []
        ∨ ∀ t h, t ∈ Transactions b →
                 MarkTransactionBad env (Hash t)
                   (Error (messages env) ErrNetworkStopping) h = None) →
       ∃ w' marks,
         PlaySafe env b w = (Some ErrNetworkStopping, w')
         ∧ trace w' = trace w5 ++ [EvAfterPlayTxs; EvRollback] ++ marks
         ∧ forallb playEvent marks = true).
Proof.
  split_and!.
  - intros. by apply step_network_stopping with p.
  - intros m w e w' Hshort Hout w0 Hphase. unfold processBody, ask.
    rewrite Hshort, Hout. fold w0.
    destruct Hphase as [(m1 & ->)|[(m1 & w1 & -> & Hg)|(m1 & w1 & w2 & m2 & -> & Hg & Hd)]].
    + done.
    + by rewrite Hg.
    + by rewrite Hg, Hd.
  - intros w m w3 w5 Hs Hpre Hbody Ha Hmarks.
    destruct (processDeferred_error env b ErrNetworkStopping w5 Ha) as (w1 & Hdef & Htr & Hfd).
    assert (ProcessTxs env b (emit EvStartTransaction w) = (Some ErrNetworkStopping, w1))
      as Hp by (unfold ProcessTxs; by rewrite Hpre, Hbody).
    rewrite (PlaySafe_failed env b w _ w1 Hs Hp), Hfd.
    assert (trace (emit EvRollback w1) = trace w5 ++ [EvAfterPlayTxs; EvRollback] ++ [])
      as Hplain by (simpl; by rewrite Htr, <- app_assoc).
    destruct (GenBlock b) eqn:Hgen; [|by eexists _, []].
    destruct (processedTx w5) as [|x xs] eqn:Hpr; [|by eexists _, []].
    destruct Hmarks as [?|[?|Hmarks]]; [done..|]. simpl.
    rewrite (banLoop_marks_succeed env _ (Transactions b)) by done. simpl.
    eexists _, _. split; [reflexivity|]. split; [|apply banPassEvents_playEvents].
    unfold emitAll. simpl. by rewrite Htr, <- !app_assoc.
Qed.

Lemma network_stopping_witness :
  (PlaySafe (stopEnv None) stopBlock newWorld).1 = Some ErrNetworkStopping
  ∧ EvPauseNodeActivity ∈ trace (PlaySafe (stopEnv None) stopBlock newWorld).2
  ∧ EvRollback ∈ trace (PlaySafe (stopEnv None) stopBlock newWorld).2.
Proof.
  destruct (network_stopping (stopEnv None) stopBlock) as (Hexec & Hbody & Hplay).
  pose (w3 := (processPrelude (stopEnv None) stopBlock (emit EvStartTransaction newWorld)).2).
  pose (m := (processPrelude (stopEnv None) stopBlock (emit EvStartTransaction newWorld)).1).
  pose (w0 := emit EvPutAllOutputsMap (emit (EvGetTxOutputs [4]) w3)).
  pose (w5 := emitAll (enterEvents (stopEnv None) stopTx ++ [EvPauseNodeActivity]) w0).
  assert (serialLoop (stopEnv None) stopBlock 0 [stopTx] None w0
          = (Some ErrNetworkStopping, w5)) as Hrun.
  { apply (Hexec 0%nat stopTx [] None w0 (played (Some ErrNetworkStopping)));
      [by split_and!|done]. }
  assert (processBody (stopEnv None) stopBlock None m w3 = (Some ErrNetworkStopping, w5))
    as Hb.
  { apply Hbody; [reflexivity..|]. left. exists (deleteKind StopNetworkTxType m).
    vm_compute. reflexivity. }
  destruct (Hplay newWorld m w3 w5 eq_refl eq_refl Hb eq_refl (or_introl eq_refl))
    as (w' & marks & -> & Htr & Hmarks).
  split; [reflexivity|]. simpl. rewrite Htr. split.
  - apply elem_of_app. left. apply (bool_decide_unpack _). by vm_compute.
  - apply elem_of_app. right. apply elem_of_app. left.
    apply list_elem_of_further, list_elem_of_here.
Defined.

(** The PlaySafe part of C7 as it was stated fails in two ways.  When the
    post-play aggregation fails too, the error returned is the composed
    one.  When the transaction is run by a goroutine of a parallel phase,
    the error of the executor is dropped: the block is inserted and
    committed, and [PlaySafe] returns nil. *)
Lemma network_stopping_counterexample :
  PlaySafe (stopEnv (Some (ErrNew "disk full"))) stopBlock newWorld
  = (Some (ErrComposed ErrNetworkStopping (ErrNew "disk full")),
     emitAll [EvStartTransaction; EvUnmarshallTransaction "s"; EvGetTxOutputs [4];
              EvPutAllOutputsMap; EvSavepoint "block_73"; EvWithOption stopTx;
              EvPlay stopTx; EvPauseNodeActivity; EvAfterPlayTxs; EvRollback]
             (setProcessedTx [] newWorld))
  ∧ (PlaySafe (stopEnv None)
              (validating [sctx "k" 6] [(SmartContractTxType, ["k"])]) newWorld).1 = None
  ∧ trace (PlaySafe (stopEnv None)
                    (validating [sctx "k" 6] [(SmartContractTxType, ["k"])]) newWorld).2
    = [EvStartTransaction; EvUnmarshallTransaction "k"; EvGetTxOutputs [6];
       EvPutAllOutputsMap; EvSavepoint "block_6b"; EvWithOption (sctx "k" 6);
       EvPlay (sctx "k" 6); EvPauseNodeActivity; EvAfterPlayTxs;
       EvInsertIntoBlockchain; EvCommit].
Proof. split_and!; vm_compute; reflexivity. Qed.

(** ** The groups of the two groupers *)

(** C8, as the code has it.  Both groupers return.  Every group of the
    TransferSelf grouper lists its transactions in input order.  A group
    of the UTXO grouper starts with its seed, which stands in the input
    before every other transaction of the group; after the seed come the
    transactions the successive sweeps picked, sweep after sweep.  A sweep
    goes in input order through the transactions still left after the
    seed and picks those that share a sender or recipient, other than 0,
    with a transaction picked before; so input order is kept within a
    sweep, and a transaction that a later sweep picks follows those of
    the earlier sweeps even where it precedes them in the input. *)
Theorem group_order txs :
  (∃ v, groupTransferSelfCall txs initGroupVars = Some v
        ∧ ∀ g grp, TxsGroupMap v !! g = Some grp → grp `sublist_of` txs)
  ∧ (∃ v, groupUtxoCall txs initGroupVars = Some v
          ∧ ∀ g grp, TxsGroupMap v !! g = Some grp →
              seedFirst txs grp ∧ sweepOrder utxoHit utxoNote txs grp).
Proof.
  split.
  - destruct (groupCall_total selfHit selfNote selfNote_nonempty txs initGroupVars)
      as [v Hv].
    exists v. split; [done|].
    apply (groupTransferSelfTxs_sublist txs _ _ _ _ _ Hv).
    split_and!; [done| |by left]. intros g grp. simpl. by rewrite lookup_empty.
  - destruct (groupCall_total utxoHit utxoNote utxoNote_nonempty txs initGroupVars)
      as [v Hv].
    exists v. split; [done|]. intros g grp Hg. split.
    + apply (groupTxs_seedFirst utxoHit utxoNote utxoNote_nonempty txs _ _ _ _ _ Hv)
        with g; [|done].
      split_and!; [done| |left; by rewrite map_size_empty].
      intros g' grp'. simpl. by rewrite lookup_empty.
    + apply (groupTxs_sweepOrder utxoHit utxoNote utxoNote_nonempty txs _ _ _ _ _ Hv)
        with g; [|done].
      split_and!; [done| |left; by rewrite map_size_empty].
      intros g' grp'. simpl. by rewrite lookup_empty.
Qed.

Lemma group_order_witness :
  [utx "a" 1 0; utx "c" 1 0] `sublist_of` selfInput
  ∧ seedFirst chainInput [utx "a" 1 2; utx "c" 4 2; utx "b" 3 4]
  ∧ sweepOrder utxoHit utxoNote chainInput [utx "a" 1 2; utx "c" 4 2; utx "b" 3 4].
Proof.
  split.
  - destruct (group_order selfInput) as [(v & Hv & Hsub) _].
    vm_compute in Hv. injection Hv as <-. apply (Hsub "1"). vm_compute. reflexivity.
  - destruct (group_order chainInput) as [_ (v & Hv & Hord)].
    vm_compute in Hv. injection Hv as <-. apply (Hord "1"). vm_compute. reflexivity.
Defined.

(** The UTXO grouper puts the third transfer of [chainInput] before the
    second. *)
Lemma group_order_counterexample :
  ∃ v, groupUtxoCall chainInput initGroupVars = Some v
       ∧ TxsGroupMap v !! "1" = Some [utx "a" 1 2; utx "c" 4 2; utx "b" 3 4]
       ∧ ¬ orderPreserved chainInput (TxsGroupMap v).
Proof.
  eexists. split; [vm_compute; reflexivity|].
  split; [vm_compute; reflexivity|].
  intros Hord. specialize (Hord "1" _ ltac:(vm_compute; reflexivity)).
  vm_compute in Hord.
  repeat match goal with
         | H : sublist _ _ |- _ => inversion H; clear H; simplify_eq
         end.
Qed.

(** The input order of [chainInput] is not the order of a group: the
    statement tells the order of the sweeps from the order of the input. *)
Lemma sweepOrder_not_input_order : ¬ sweepOrder utxoHit utxoNote chainInput chainInput.
Proof.
  intros (seed & rem & ss & left & Hg & Hsub & Hss & Hno & _).
  injection Hg as <- Hj.
  assert (∀ ss0 left0,
            sweepsTo utxoHit utxoNote (utxoNote ∅ (utx "a" 1 2)) rem ss0 left0 →
            Forall (λ t, utxoHit (notes utxoNote (utxoNote ∅ (utx "a" 1 2)) (mjoin ss0)) t
                         = false) left0 →
            mjoin ss0 = [utx "b" 3 4; utx "c" 4 2]) as Hdet.
  { intros ss0 left0 H0 Hno0. rewrite Hj.
    by apply (sweepsTo_determined utxoHit utxoNote ss0 (utxoNote ∅ (utx "a" 1 2)) rem ss
                                  left0 left). }
  clear Hss Hno Hj.
  apply sublist_cons_r in Hsub as [Hsub|(rem' & [= <-] & Hsub)].
  { repeat (apply sublist_cons_r in Hsub as [Hsub|(? & [=] & _)]).
    by apply sublist_nil_r in Hsub. }
  apply sublist_cons_r in Hsub as [Hsub|(rem' & -> & Hsub)];
    (apply sublist_cons_r in Hsub as [Hsub|(rem'' & -> & Hsub)]);
    apply sublist_nil_r in Hsub as ->.
  - by specialize (Hdet [] [] eq_refl (Forall_nil_2 _)).
  - specialize (Hdet [[utx "c" 4 2]] []). simpl in Hdet.
    discriminate Hdet; [|constructor]. by eexists.
  - specialize (Hdet [] [utx "b" 3 4] eq_refl). simpl in Hdet.
    discriminate Hdet. by repeat constructor.
  - specialize (Hdet [[utx "c" 4 2]; [utx "b" 3 4]] []). simpl in Hdet.
    discriminate Hdet; [|constructor].
    eexists. split; [reflexivity|]. by eexists.
Qed.

(** C3, at inputs where the code departs from it.  [walletAddress[k] != 0]
    is false for the account 0 even when it was stored, so a transaction
    does not join the group it shares the account 0 with: two transfers
    to the account 0, and two transactions of the sender 0, end in two
    groups, both with the account 0. *)
Theorem zero_account_splits_groups :
  (∃ v, groupUtxoCall [utx "a" 5 0; utx "b" 7 0] initGroupVars = Some v
        ∧ TxsGroupMap v !! "1" = Some [utx "a" 5 0]
        ∧ TxsGroupMap v !! "2" = Some [utx "b" 7 0]
        ∧ ¬ pairwiseDisjoint utxoAccounts (TxsGroupMap v))
  ∧ (∃ v, groupTransferSelfCall [utx "a" 0 0; utx "b" 0 0] initGroupVars = Some v
          ∧ TxsGroupMap v !! "1" = Some [utx "a" 0 0]
          ∧ TxsGroupMap v !! "2" = Some [utx "b" 0 0]
          ∧ ¬ pairwiseDisjoint selfAccounts (TxsGroupMap v)).
Proof.
  split.
  - eexists. split; [vm_compute; reflexivity|].
    split; [vm_compute; reflexivity|]. split; [vm_compute; reflexivity|].
    intros Hd.
    apply (Hd "1" "2" [utx "a" 5 0] [utx "b" 7 0] ltac:(done)
              ltac:(vm_compute; reflexivity) ltac:(vm_compute; reflexivity) 0).
    + exists (utx "a" 5 0). split; [apply list_elem_of_here|].
      apply list_elem_of_further, list_elem_of_here.
    + exists (utx "b" 7 0). split; [apply list_elem_of_here|].
      apply list_elem_of_further, list_elem_of_here.
  - eexists. split; [vm_compute; reflexivity|].
    split; [vm_compute; reflexivity|]. split; [vm_compute; reflexivity|].
    intros Hd.
    apply (Hd "1" "2" [utx "a" 0 0] [utx "b" 0 0] ltac:(done)
              ltac:(vm_compute; reflexivity) ltac:(vm_compute; reflexivity) 0).
    + exists (utx "a" 0 0). split; [apply list_elem_of_here|apply list_elem_of_here].
    + exists (utx "b" 0 0). split; [apply list_elem_of_here|apply list_elem_of_here].
Qed.

(** X4. On transactions none of whose accounts is 0, both groupers
    return groups with pairwise disjoint account sets; this is what holds
    of C3. *)
Theorem groups_disjoint_nonzero txs :
  ((∀ t, t ∈ txs → KeyID t ≠ 0) →
   ∃ v, groupTransferSelfCall txs initGroupVars = Some v
        ∧ pairwiseDisjoint selfAccounts (TxsGroupMap v))
  ∧ ((∀ t, t ∈ txs → KeyID t ≠ 0 ∧ ToID t ≠ 0) →
     ∃ v, groupUtxoCall txs initGroupVars = Some v
          ∧ pairwiseDisjoint utxoAccounts (TxsGroupMap v)).
Proof.
  split; intros Hnz.
  - destruct (groupCall_total selfHit selfNote selfNote_nonempty txs initGroupVars)
      as [v Hv].
    exists v. split; [done|].
    apply (groupCall_disjoint selfAccounts selfHit selfNote selfNote_nonempty
             selfHit_spec selfNote_spec txs v); [|done].
    intros k (t & Ht & Hk). apply list_elem_of_singleton in Hk as ->. by apply Hnz.
  - destruct (groupCall_total utxoHit utxoNote utxoNote_nonempty txs initGroupVars)
      as [v Hv].
    exists v. split; [done|].
    apply (groupCall_disjoint utxoAccounts utxoHit utxoNote utxoNote_nonempty
             utxoHit_spec utxoNote_spec txs v); [|done].
    intros k (t & Ht & Hk). destruct (Hnz t Ht) as [H1 H2].
    apply elem_of_cons in Hk as [->|Hk]; [done|].
    by apply list_elem_of_singleton in Hk as ->.
Qed.

Lemma groups_disjoint_nonzero_witness :
  ∃ v, groupUtxoCall chainInput initGroupVars = Some v
       ∧ pairwiseDisjoint utxoAccounts (TxsGroupMap v).
Proof.
  apply (proj2 (groups_disjoint_nonzero chainInput)).
  intros t Hin.
  repeat (apply elem_of_cons in Hin as [->|Hin]; [by split|]).
  by apply not_elem_of_nil in Hin.
Defined.

(** ** The package variables of the groupers between block plays *)

Lemma keepsVars_refl w : keepsVars w w.
Proof. done. Qed.

Lemma keepsVars_trans w1 w2 w3 : keepsVars w1 w2 → keepsVars w2 w3 → keepsVars w1 w3.
Proof. intros [H1 H2] [H3 H4]. split; congruence. Qed.

Section GroupVarsFacts.

Variable env : Env.
Variable b : Block.

Lemma accept_keepsVars t p w : keepsVars w (accept t p w).
Proof. unfold accept. by destruct (tSysUpdate p); case_decide. Qed.

Lemma serialLoop_keepsVars txs : ∀ curTx genBErr w,
  keepsVars w (serialLoop env b curTx txs genBErr w).2.
Proof.
  induction txs as [|t rest IH]; intros curTx genBErr w; simpl; [done|].
  destruct (Savepoint env _ _); simpl; [done|].
  destruct (WithOption env _ _); simpl; [done|].
  destruct (playErr _) as [err|]; simpl.
  - case_decide; simpl; [done|].
    destruct (RollbackSavepoint env _ _); simpl; [done|].
    destruct (_ && _); [by case_decide|].
    destruct (tSysUpdate _); simpl.
    + destruct (SysUpdate env _); simpl; [by destruct (IsSmartContract t)|].
      destruct (GenBlock b); [|by destruct (IsSmartContract t)].
      eapply keepsVars_trans; [|apply IH]. by destruct (IsSmartContract t).
    + destruct (GenBlock b); [|by destruct (IsSmartContract t)].
      eapply keepsVars_trans; [|apply IH]. by destruct (IsSmartContract t).
  - eapply keepsVars_trans; [|apply IH].
    eapply keepsVars_trans; [|apply accept_keepsVars]. done.
Qed.

Lemma unmarshalClass_keepsVars txs : ∀ w, keepsVars w (unmarshalClass env txs w).2.
Proof.
  induction txs as [|x rest IH]; intros w; simpl; [done|].
  destruct (UnmarshallTransaction env _ _) as [t|err [h|]].
  - pose proof (IH (emit (EvUnmarshallTransaction x) w)) as H.
    by destruct (unmarshalClass env rest _).
  - eapply keepsVars_trans; [|apply IH]. done.
  - eapply keepsVars_trans; [|apply IH]. done.
Qed.

Lemma unmarshalClasses_keepsVars classes : ∀ m w,
  keepsVars w (unmarshalClasses env classes m w).2.
Proof.
  induction classes as [|[k txs] rest IH]; intros m w; simpl; [done|].
  pose proof (unmarshalClass_keepsVars txs w) as H.
  destruct (unmarshalClass env txs w) as [ts w']. simpl in H.
  eapply keepsVars_trans; [exact H | apply IH].
Qed.

Lemma unmarshalGenesis_keepsVars txs : ∀ w, keepsVars w (unmarshalGenesis env txs w).2.
Proof.
  induction txs as [|x rest IH]; intros w; simpl; [done|].
  destruct (UnmarshallTransaction env _ _) as [t|err [h|]]; simpl; [|done..].
  pose proof (IH (emit (EvUnmarshallTransaction (FullData x)) w)) as H.
  by destruct (unmarshalGenesis env rest _) as [[e|ts] w'].
Qed.

Lemma runGroups_keepsVars groups : ∀ genBErr w,
  keepsVars w (runGroups env b groups genBErr w).
Proof.
  induction groups as [|[g txs] rest IH]; intros genBErr w; simpl; [done|].
  pose proof (serialLoop_keepsVars txs 0 genBErr w) as H.
  unfold serialExecuteTxs. destruct (serialLoop env b 0 txs genBErr w) as [e w'].
  eapply keepsVars_trans; [exact H | apply IH].
Qed.

Lemma banLoop_keepsVars msg inputTx : ∀ banK w,
  keepsVars w (banLoop env msg inputTx banK w).2.
Proof.
  induction inputTx as [|t rest IH]; intros banK w; simpl; [done|].
  destruct (_ && _).
  - eapply keepsVars_trans; [|apply IH]. done.
  - destruct (MarkTransactionBad env _ _ _); simpl; [done|].
    eapply keepsVars_trans; [|apply IH]. done.
Qed.

Lemma varsReset_keeps w w' : varsReset w → keepsVars w w' → varsReset w'.
Proof. intros [H1 H2] [H3 H4]. split; congruence. Qed.

Lemma processBody_varsReset genBErr m w :
  varsReset w → varsReset (processBody env b genBErr m w).2.
Proof.
  intros Hw. unfold processBody. destruct (_ && _).
  { destruct (bSysUpdate w); [|done]. simpl. by destruct (SysUpdate env _). }
  simpl. destruct (GetTxOutputs env _ _); simpl; [done|].
  set (w0 := emit EvPutAllOutputsMap _).
  assert (varsReset w0) as H0 by done.
  assert (∀ k m0 w1, varsReset w1 → varsReset (serialPhase env b k genBErr m0 w1).2) as Hser.
  { intros k m0 w1 H1. unfold serialPhase. destruct (decide _); [|done].
    pose proof (serialLoop_keepsVars (m0 k) 0 genBErr w1) as H.
    unfold serialExecuteTxs. destruct (serialLoop env b 0 (m0 k) genBErr w1).
    by eapply varsReset_keeps. }
  pose proof (Hser StopNetworkTxType m w0 H0) as H1.
  destruct (serialPhase _ _ StopNetworkTxType _ _ _) as [[e1 m1] w1]. simpl in H1.
  destruct e1; [done|].
  assert (varsReset (genesisPhase env b genBErr w1).2) as H2.
  { unfold genesisPhase. destruct (IsGenesis b); [|done].
    pose proof (unmarshalGenesis_keepsVars (Transactions b) w1) as H.
    destruct (unmarshalGenesis env (Transactions b) w1) as [[e|ts] w']; simpl in *.
    - by eapply varsReset_keeps.
    - eapply varsReset_keeps; [by eapply varsReset_keeps|].
      apply serialLoop_keepsVars. }
  destruct (genesisPhase _ _ _ _) as [e2 w2]. simpl in H2.
  destruct e2; [done|].
  pose proof (Hser DelayTxType m1 w2 H2) as H3.
  destruct (serialPhase _ _ DelayTxType _ _ _) as [[e3 m3] w3]. simpl in H3.
  destruct e3; [done|].
  assert (varsReset (transferSelfPhase env b genBErr m3 w3).2) as H4.
  { unfold transferSelfPhase. destruct (decide _); [|done]. simpl.
    split; [|done]. simpl.
    destruct (runGroups_keepsVars
                (schedule env (map_to_list (TxsGroupMap
                   (groupTransferSelfRun (m3 TransferSelfTxType) (transferSelfVars w3)))))
                genBErr
                (setTransferSelfVars
                   (groupTransferSelfRun (m3 TransferSelfTxType) (transferSelfVars w3)) w3))
      as [Hu _].
    rewrite Hu. apply H3. }
  destruct (transferSelfPhase _ _ _ _ _) as [m4 w4]. simpl in H4.
  assert (varsReset (utxoPhase env b genBErr m4 w4).2) as H5.
  { unfold utxoPhase. destruct (_ || _); [|done]. simpl. split; [done|]. simpl.
    match goal with
    | |- transferSelfVars (runGroups _ _ ?gs _ ?w0) = _ =>
        destruct (runGroups_keepsVars gs genBErr w0) as [_ Ht]; rewrite Ht
    end.
    apply H4. }
  by destruct (utxoPhase _ _ _ _ _) as [m5 w5].
Qed.

(** A block play that starts with the package variables at their initial
    values ends with them there. *)
Lemma PlaySafe_varsReset w : varsReset w → varsReset (PlaySafe env b w).2.
Proof.
  intros Hw. unfold PlaySafe, ask.
  destruct (StartTransaction env _); simpl; [done|].
  assert (varsReset (ProcessTxs env b (emit EvStartTransaction w)).2) as Hp.
  { unfold ProcessTxs, processPrelude.
    pose proof (unmarshalClasses_keepsVars (ClassifyTxsMap b) (λ _, [])
                  (setAfters (mkAfterTxs [] [] []) (emit EvStartTransaction w))) as H1.
    destruct (unmarshalClasses _ _ _ _) as [m w1]. simpl in H1.
    assert (varsReset (setProcessedTx [] w1)) as H2 by (by eapply varsReset_keeps).
    pose proof (processBody_varsReset None m _ H2) as H3.
    destruct (processBody _ _ _ _ _) as [e w2]. simpl in H3.
    unfold processDeferred, ask.
    destruct (IsGenesis b), (GenBlock b); simpl;
      destruct (AfterPlayTxs env _); simpl; by destruct e. }
  destruct (ProcessTxs env b _) as [[e|] w1]; simpl in *.
  - destruct (_ && _); [|done].
    pose proof (banLoop_keepsVars (Error (messages env) e) (Transactions b) ∅
                  (emit EvRollback w1)) as H.
    destruct (banLoop _ _ _ _ _) as [[em|] w2]; simpl in *;
      by eapply varsReset_keeps.
  - destruct (_ && _); [done|].
    destruct (InsertIntoBlockchain env _); simpl; [done|].
    destruct (Commit env _); simpl; [done|].
    rewrite sendAll_emitAll. done.
Qed.
End GroupVarsFacts.

(** * Further properties *)

(** ** The groupers *)

(** *** The groups are a partition of the input *)

Lemma grouped_insert m k l : m !! k = None → grouped (<[k:=l]> m) ≡ₚ l ++ grouped m.
Proof. intros H. unfold grouped. by rewrite map_to_list_insert. Qed.

Lemma grouped_empty : grouped ∅ = [].
Proof. unfold grouped. by rewrite map_to_list_empty. Qed.

Lemma elem_of_grouped m t : t ∈ grouped m ↔ ∃ g grp, m !! g = Some grp ∧ t ∈ grp.
Proof.
  unfold grouped. rewrite list_elem_of_join. split.
  - intros (grp & Ht & Hin). apply list_elem_of_fmap in Hin as ([g grp'] & -> & Hg).
    apply elem_of_map_to_list in Hg. by exists g, grp'.
  - intros (g & grp & Hg & Ht). exists grp. split; [done|].
    apply list_elem_of_fmap. exists (g, grp). split; [done|].
    by apply elem_of_map_to_list.
Qed.

Lemma keysUpTo_fresh m n s : keysUpTo m n → n < s → m !! Itoa s = None.
Proof.
  intros Hk Hs. apply eq_None_not_Some. intros (s' & Heq & Hr)%Hk.
  apply (inj pretty) in Heq. lia.
Qed.

Lemma keysUpTo_insert m n l :
  0 ≤ n → keysUpTo m n → keysUpTo (<[Itoa (n + 1) := l]> m) (n + 1).
Proof.
  intros Hn Hk g. rewrite lookup_insert_is_Some. split.
  - intros [<-|[_ (s & -> & Hs)%Hk]]; [exists (n + 1)|exists s]; (split; [done|]).
    all: lia.
  - intros (s & -> & Hs). destruct (decide (s = n + 1)) as [->|]; [by left|].
    right. split; [intros Heq; by apply (inj pretty) in Heq|].
    apply Hk. exists s. split; [done|lia].
Qed.

Section Partition.
Variable hit : gmap Z Z → Transaction → bool.
Variable note : gmap Z Z → Transaction → gmap Z Z.
Hypothesis note_nonempty : ∀ wa t, size (note wa t) ≠ 0%nat.
Variable inp : list Transaction.
Hypothesis inp_short : Z.of_nat (length inp) < 65536.

Lemma groupTxs_partitioned fuel txs wa v v' :
  groupTxs hit note fuel txs wa v = Some v' →
  partInv inp txs v → partitioned inp (TxsGroupMap v').
Proof.
  apply (groupTxs_rule hit note (λ txs _ v, partInv inp txs v)
           (λ v', partitioned inp (TxsGroupMap v'))); clear fuel txs wa v v'.
  - intros _ v (Hp & Hk & Hne & Hs & Hb & Hl). rewrite Hl in Hp, Hb by done.
    rewrite !app_nil_r in Hp. simpl in Hb. split; [done|]. split; [|done].
    exists (GroupSerial v - 1). split; [lia|done].
  - intros txs wa m l s txs' wa' l' Htxs (Hp & Hk & Hne & Hs & Hb & Hl) Hsw Hlen.
    simpl in *.
    destruct (sweep_cases hit note note_nonempty txs wa l Htxs)
      as (picked & left & Hsw' & _ & _ & Hperm & _).
    rewrite Hsw in Hsw'. injection Hsw' as -> -> ->.
    rewrite length_app in Hlen.
    assert (Z.of_nat (length txs) = Z.of_nat (length picked) + Z.of_nat (length left))
      as Hcount by (rewrite Hperm, length_app; lia).
    assert (m !! Itoa s = None) as Hfresh by (apply (keysUpTo_fresh m (s - 1)); [done|lia]).
    split.
    + intros ->. split; [|split].
      * rewrite grouped_insert by done. rewrite <- Hp, Hperm, app_nil_r.
        by rewrite (comm (++) _ (grouped m)).
      * exists s. split; [destruct (decide (l = [])); lia|].
        replace s with (s - 1 + 1) at 1 2 by lia. apply keysUpTo_insert; [lia|done].
      * intros g grp [[_ <-]|[_ ?]]%lookup_insert_Some; [|by eapply Hne].
        intros Hn%(f_equal length). rewrite length_app in Hn. simpl in Hn. lia.
    + intros Hleft. split_and!; simpl; [|done..| |done].
      * rewrite <- Hp, Hperm. by rewrite <- !app_assoc.
      * destruct (decide (l ++ picked = [])) as [Hn|_].
        { apply (f_equal length) in Hn. rewrite length_app in Hn. simpl in Hn. lia. }
        destruct (decide (l = [])); lia.
  - intros txs wa m l s txs' wa' l' Htxs (Hp & Hk & Hne & Hs & Hb & Hl) Hsw Hlen.
    simpl in *.
    destruct (sweep_cases hit note note_nonempty txs wa l Htxs)
      as (picked & left & Hsw' & _ & _ & Hperm & _).
    rewrite Hsw in Hsw'. injection Hsw' as -> -> ->.
    rewrite length_app in Hlen.
    assert (picked = []) as -> by (apply length_zero_iff_nil; lia).
    rewrite app_nil_r in *. simpl in Hperm.
    assert (Z.of_nat (length txs) = Z.of_nat (length left)) as Hcount by (by rewrite Hperm).
    assert (0 < Z.of_nat (length txs)) as Hpos by (destruct txs; [done|simpl; lia]).
    split.
    + intros Hl'. assert (l ≠ []) as Hne' by (intros ->; simpl in Hl'; lia).
      rewrite decide_False in Hb by done.
      assert (incSerial s = s + 1) as -> by (unfold incSerial; rewrite Z.mod_small; lia).
      assert (m !! Itoa s = None) as Hfresh
        by (apply (keysUpTo_fresh m (s - 1)); [done|lia]).
      split_and!; simpl.
      * rewrite grouped_insert by done. rewrite <- Hp, Hperm.
        rewrite (comm (++) l (grouped m)). by rewrite <- !app_assoc.
      * replace s with (s - 1 + 1) at 1 by lia.
        replace (s + 1 - 1) with (s - 1 + 1) by lia. apply keysUpTo_insert; [lia|done].
      * intros g grp [[_ <-]|[_ ?]]%lookup_insert_Some; [done|by eapply Hne].
      * lia.
      * lia.
      * done.
    + intros Hl'. assert (l = []) as -> by (apply length_zero_iff_nil; lia).
      split_and!; simpl; [|done..| |done].
      * by rewrite <- Hp, Hperm.
      * simpl in Hb. lia.
Qed.

Lemma groupCall_partitioned :
  ∃ v, groupCall hit note inp initGroupVars = Some v ∧ partitioned inp (TxsGroupMap v).
Proof.
  destruct (groupCall_total hit note note_nonempty inp initGroupVars) as [v Hv].
  exists v. split; [done|]. eapply groupTxs_partitioned; [exact Hv|].
  split_and!; simpl.
  - by rewrite grouped_empty.
  - intros g. rewrite lookup_empty. split; [by intros []|]. intros (s & _ & ?). lia.
  - intros g grp. by rewrite lookup_empty.
  - lia.
  - lia.
  - done.
Qed.
End Partition.

(** *** Every transaction joined its group for a reason *)

Section JoinFacts.
Variable hit : gmap Z Z → Transaction → bool.
Variable note : gmap Z Z → Transaction → gmap Z Z.
Hypothesis note_nonempty : ∀ wa t, size (note wa t) ≠ 0%nat.

Lemma pick_hits rest : ∀ wa grp kept, ∃ picked left,
  pick hit note rest wa grp kept = (kept ++ left, notes note wa picked, grp ++ picked)
  ∧ ∀ pre t post, picked = pre ++ t :: post → hit (notes note wa pre) t = true.
Proof.
  induction rest as [|t r IH]; intros wa grp kept; simpl.
  - exists [], []. rewrite !app_nil_r. split; [done|].
    intros pre t post H. by destruct pre.
  - destruct (hit wa t) eqn:Hhit.
    + destruct (IH (note wa t) (grp ++ [t]) kept) as (picked & left & -> & Hp).
      exists (t :: picked), left. rewrite <- app_assoc. split; [done|].
      intros [|t' pre] x post Heq; simplify_eq/=; [done|]. by eapply Hp.
    + destruct (IH wa grp (kept ++ [t])) as (picked & left & -> & Hp).
      exists picked, (t :: left). rewrite <- app_assoc. by split.
Qed.

Lemma joinedBy_app l picked :
  joinedBy hit note l →
  (∀ pre t post, picked = pre ++ t :: post → l ++ pre ≠ [] →
     hit (notes note ∅ (l ++ pre)) t = true) →
  joinedBy hit note (l ++ picked).
Proof.
  intros Hl Hp pre t post Heq Hpre.
  apply app_eq_inv in Heq as [(k & -> & Hk)|(k & -> & Hk)].
  - destruct k as [|x k]; simplify_eq/=.
    + rewrite app_nil_r in *. specialize (Hp [] t post eq_refl).
      rewrite app_nil_r in Hp. by apply Hp.
    + by eapply Hl.
  - by eapply Hp.
Qed.

Lemma sweep_joined txs wa l txs' wa' l' :
  txs ≠ [] → wa = notes note ∅ l → joinedBy hit note l →
  sweep hit note (length txs) 0 txs wa l = (txs', wa', l') →
  wa' = notes note ∅ l' ∧ joinedBy hit note l'.
Proof.
  intros Htxs -> Hl Hsw. destruct (decide (size (notes note ∅ l) = 0%nat)) as [Hz|Hnz].
  - assert (l = []) as ->.
    { destruct l as [|t l]; [done|]. exfalso. revert Hz. simpl.
      by apply notes_nonempty. }
    destruct txs as [|t r]; [done|].
    rewrite (sweep_seed hit note note_nonempty) in Hsw by done.
    destruct (pick_hits r (note (notes note ∅ []) t) ([] ++ [t]) [])
      as (picked & left & Hpick & Hp).
    rewrite Hsw in Hpick. injection Hpick as -> -> ->. simpl. split; [done|].
    apply (joinedBy_app [t] picked).
    + intros [|x [|y pre]] z post Heq; simplify_eq/=; done.
    + intros pre x post Heq _. simpl. by eapply Hp.
  - rewrite (sweep_resweep hit note note_nonempty) in Hsw by done.
    destruct (pick_hits txs (notes note ∅ l) l []) as (picked & left & Hpick & Hp).
    rewrite Hsw in Hpick. injection Hpick as -> -> ->.
    split; [by rewrite notes_app|].
    apply joinedBy_app; [done|]. intros pre x post Heq _.
    rewrite notes_app. by eapply Hp.
Qed.

Lemma groupTxs_joined fuel txs wa v v' :
  groupTxs hit note fuel txs wa v = Some v' →
  joinInv hit note wa v →
  ∀ g grp, TxsGroupMap v' !! g = Some grp → joinedBy hit note grp.
Proof.
  apply (groupTxs_rule hit note (λ _ wa v, joinInv hit note wa v)
           (λ v', ∀ g grp, TxsGroupMap v' !! g = Some grp → joinedBy hit note grp));
    clear fuel txs wa v v'.
  - by intros wa v (_ & _ & H).
  - intros txs wa m l s txs' wa' l' Htxs (Hwa & Hl & Hm) Hsw _. simpl in *.
    destruct (sweep_joined _ _ _ _ _ _ Htxs Hwa Hl Hsw) as [Hwa' Hl'].
    split; [|done]. intros _ g grp [[_ <-]|[_ ?]]%lookup_insert_Some; [done|by eapply Hm].
  - intros txs wa m l s txs' wa' l' Htxs (Hwa & Hl & Hm) Hsw _. simpl in *.
    destruct (sweep_joined _ _ _ _ _ _ Htxs Hwa Hl Hsw) as [Hwa' Hl'].
    split; [|done]. intros _. split_and!; simpl; [done| |].
    + intros pre t post Heq. by destruct pre.
    + intros g grp [[_ <-]|[_ ?]]%lookup_insert_Some; [done|by eapply Hm].
Qed.

Lemma groupCall_joined txs :
  ∃ v, groupCall hit note txs initGroupVars = Some v
       ∧ ∀ g grp, TxsGroupMap v !! g = Some grp → joinedBy hit note grp.
Proof.
  destruct (groupCall_total hit note note_nonempty txs initGroupVars) as [v Hv].
  exists v. split; [done|]. eapply groupTxs_joined; [exact Hv|].
  split_and!; simpl; [done| |].
  - intros pre t post Heq. by destruct pre.
  - intros g grp. by rewrite lookup_empty.
Qed.

Variable accounts : Transaction → list Z.
Hypothesis hit_spec : ∀ wa t,
  hit wa t = true ↔ ∃ k, k ∈ accounts t ∧ walletHas wa k = true.
Hypothesis note_spec : ∀ wa t k,
  note wa t !! k = if decide (k ∈ accounts t) then Some k else wa !! k.

Lemma notes_lookup_inv p : ∀ (wa : gmap Z Z) k x,
  notes note wa p !! k = Some x →
  wa !! k = Some x ∨ (x = k ∧ accountOf accounts p k).
Proof.
  induction p as [|t p IH]; intros wa k x; simpl; [by left|].
  intros [H|[-> (t' & Ht' & Hk)]]%IH.
  - rewrite note_spec in H. case_decide; [|by left]. simplify_eq. right.
    split; [done|]. exists t. split; [apply elem_of_cons; by left|done].
  - right. split; [done|]. exists t'. split; [apply elem_of_cons; by right|done].
Qed.

Lemma walletHas_Some (wa : gmap Z Z) k :
  walletHas wa k = true ↔ ∃ x, wa !! k = Some x ∧ x ≠ 0.
Proof.
  unfold walletHas. destruct (wa !! k) as [x|]; simpl.
  - rewrite negb_true_iff, Z.eqb_neq. split; [by exists x|]. by intros (? & [= <-] & ?).
  - split; [done|]. by intros (? & ? & ?).
Qed.

Lemma joinedBy_linked grp : joinedBy hit note grp → linked accounts grp.
Proof.
  intros Hj pre t post Heq Hpre.
  specialize (Hj pre t post Heq Hpre). apply hit_spec in Hj as (k & Hk & Hw).
  apply walletHas_Some in Hw as (x & Hx & Hx0).
  apply notes_lookup_inv in Hx as [Hx|[-> Hacc]]; [by rewrite lookup_empty in Hx|].
  by exists k.
Qed.
End JoinFacts.

(** *** Transactions that share an account *)

Section Conflicts.
Variable accounts : Transaction → list Z.
Variable hit : gmap Z Z → Transaction → bool.
Variable note : gmap Z Z → Transaction → gmap Z Z.
Hypothesis note_nonempty : ∀ wa t, size (note wa t) ≠ 0%nat.
Hypothesis hit_spec : ∀ wa t,
  hit wa t = true ↔ ∃ k, k ∈ accounts t ∧ walletHas wa k = true.
Hypothesis note_spec : ∀ wa t k,
  note wa t !! k = if decide (k ∈ accounts t) then Some k else wa !! k.

Lemma groupCall_conflicts txs v t1 t2 k :
  Z.of_nat (length txs) < 65536 →
  (∀ k, accountOf accounts txs k → k ≠ 0) →
  groupCall hit note txs initGroupVars = Some v →
  t1 ∈ txs → t2 ∈ txs → k ∈ accounts t1 → k ∈ accounts t2 →
  ∃ g grp, TxsGroupMap v !! g = Some grp ∧ t1 ∈ grp ∧ t2 ∈ grp.
Proof.
  intros Hshort Hnz Hv H1 H2 Hk1 Hk2.
  destruct (groupCall_partitioned hit note note_nonempty txs Hshort) as (v' & Hv' & Hp & _).
  rewrite Hv in Hv'. injection Hv' as <-.
  pose proof (groupCall_disjoint accounts hit note note_nonempty hit_spec note_spec
                txs v Hnz Hv) as Hd.
  rewrite <- Hp in H1, H2.
  apply elem_of_grouped in H1 as (g1 & grp1 & Hg1 & Hin1).
  apply elem_of_grouped in H2 as (g2 & grp2 & Hg2 & Hin2).
  destruct (decide (g1 = g2)) as [->|Hne].
  - rewrite Hg1 in Hg2. injection Hg2 as <-. by exists g2, grp1.
  - destruct (Hd g1 g2 grp1 grp2 Hne Hg1 Hg2 k); [by exists t1|by exists t2].
Qed.
End Conflicts.

(** *** The groups of the TransferSelf grouper are the senders *)

Lemma linked_one_sender t0 l :
  linked selfAccounts (t0 :: l) →
  Forall (λ t, KeyID t = KeyID t0) l ∧ (l ≠ [] → KeyID t0 ≠ 0).
Proof.
  induction l as [|x l IH] using rev_ind; intros Hl; [by split|].
  destruct IH as [IH1 IH2].
  { intros pre t post Heq. apply (Hl pre t (post ++ [x])).
    by rewrite app_comm_cons, Heq, <- app_assoc. }
  destruct (Hl (t0 :: l) x [] eq_refl ltac:(done)) as (k & Hk0 & Hkx & t' & Ht' & Hkt').
  apply list_elem_of_singleton in Hkx as ->. apply list_elem_of_singleton in Hkt'.
  assert (KeyID t' = KeyID t0) as Heq.
  { apply elem_of_cons in Ht' as [->|Ht']; [done|].
    by apply (proj1 (Forall_forall _ _) IH1). }
  split; [|intros _; congruence].
  apply Forall_app. split; [done|]. apply Forall_singleton. congruence.
Qed.

Lemma sublist_filter_mono {A} (P : A → Prop) `{!∀ x, Decision (P x)} (l1 l2 : list A) :
  l1 `sublist_of` l2 → filter P l1 `sublist_of` filter P l2.
Proof.
  induction 1 as [|x l1 l2 _ IH|x l1 l2 _ IH]; [done| |].
  - rewrite !filter_cons. destruct (decide (P x)); [by constructor|done].
  - rewrite filter_cons. destruct (decide (P x)); [by constructor|done].
Qed.

Lemma sublist_full {A} (l1 l2 : list A) :
  l1 `sublist_of` l2 → (length l2 ≤ length l1)%nat → l1 = l2.
Proof.
  induction 1 as [|x l1 l2 _ IH|x l1 l2 Hs IH]; simpl; intros Hlen; [done| |].
  - f_equal. apply IH. lia.
  - apply sublist_length in Hs. lia.
Qed.

Lemma filter_all {A} (P : A → Prop) `{!∀ x, Decision (P x)} (l : list A) :
  Forall P l → filter P l = l.
Proof.
  induction 1 as [|x l Hx _ IH]; [done|]. rewrite filter_cons, decide_True by done.
  by rewrite IH.
Qed.

Lemma groupTransferSelfCall_one_sender txs v :
  groupTransferSelfCall txs initGroupVars = Some v →
  ∀ g grp, TxsGroupMap v !! g = Some grp →
    ∃ k, Forall (λ t, KeyID t = k) grp ∧ ((1 < length grp)%nat → k ≠ 0).
Proof.
  intros Hv g grp Hg.
  destruct (groupCall_joined selfHit selfNote selfNote_nonempty txs) as (v' & Hv' & Hj).
  unfold groupTransferSelfCall in Hv. rewrite Hv in Hv'. injection Hv' as <-.
  apply Hj, (joinedBy_linked selfHit selfNote selfAccounts selfHit_spec selfNote_spec)
    in Hg.
  destruct grp as [|t0 l]; [exists 0; split; [done|simpl; lia]|].
  apply linked_one_sender in Hg as [Hall Hnz]. exists (KeyID t0). split.
  - by constructor.
  - simpl. intros Hlen. apply Hnz. intros ->. simpl in Hlen. lia.
Qed.

(** *** Theorems on the groupers *)

(** X1. On an input of fewer than 65536 transactions, the groups either
    grouper returns hold every transaction of the input exactly as often
    as the input does: none is lost and none is duplicated. *)
Theorem groups_partition_input txs :
  Z.of_nat (length txs) < 65536 →
  (∃ v, groupTransferSelfCall txs initGroupVars = Some v
        ∧ grouped (TxsGroupMap v) ≡ₚ txs)
  ∧ (∃ v, groupUtxoCall txs initGroupVars = Some v
          ∧ grouped (TxsGroupMap v) ≡ₚ txs).
Proof.
  intros Hlen. split.
  - destruct (groupCall_partitioned selfHit selfNote selfNote_nonempty txs)
      as (v & Hv & Hp & _); [done|]. by exists v.
  - destruct (groupCall_partitioned utxoHit utxoNote utxoNote_nonempty txs)
      as (v & Hv & Hp & _); [done|]. by exists v.
Qed.

Lemma groups_partition_input_witness :
  ∃ v, groupUtxoCall chainInput initGroupVars = Some v
       ∧ grouped (TxsGroupMap v) ≡ₚ chainInput.
Proof. apply (proj2 (groups_partition_input chainInput ltac:(by vm_compute))). Defined.

(** X2. On an input of fewer than 65536 transactions, the keys of the
    groups either grouper returns are the decimal serials 1 to n, for an
    n that is at most the number of transactions; no group is empty, and
    the key 0, under which [ProcessTxs] stores the smart-contract
    transactions, is free. *)
Theorem group_keys_are_serials txs :
  Z.of_nat (length txs) < 65536 →
  (∃ v, groupTransferSelfCall txs initGroupVars = Some v
        ∧ serialKeyed txs (TxsGroupMap v) ∧ TxsGroupMap v !! Itoa 0 = None)
  ∧ (∃ v, groupUtxoCall txs initGroupVars = Some v
          ∧ serialKeyed txs (TxsGroupMap v) ∧ TxsGroupMap v !! Itoa 0 = None).
Proof.
  intros Hlen. split.
  - destruct (groupCall_partitioned selfHit selfNote selfNote_nonempty txs)
      as (v & Hv & _ & Hk); [done|]. exists v. split_and!; [done..|].
    destruct Hk as [(n & Hn & Hk) _]. apply eq_None_not_Some.
    intros (s & Hs%(inj pretty) & ?)%Hk. lia.
  - destruct (groupCall_partitioned utxoHit utxoNote utxoNote_nonempty txs)
      as (v & Hv & _ & Hk); [done|]. exists v. split_and!; [done..|].
    destruct Hk as [(n & Hn & Hk) _]. apply eq_None_not_Some.
    intros (s & Hs%(inj pretty) & ?)%Hk. lia.
Qed.

Lemma group_keys_are_serials_witness :
  ∃ v, groupUtxoCall chainInput initGroupVars = Some v
       ∧ serialKeyed chainInput (TxsGroupMap v) ∧ TxsGroupMap v !! Itoa 0 = None.
Proof. apply (proj2 (group_keys_are_serials chainInput ltac:(by vm_compute))). Defined.

(** X6. In every group the UTXO grouper returns, each transaction but the
    first shares its sender or its recipient, other than 0, with a
    transaction that stands before it in the group: nothing is put into a
    group without a reason. *)
Theorem utxo_groups_linked txs :
  ∃ v, groupUtxoCall txs initGroupVars = Some v
       ∧ ∀ g grp, TxsGroupMap v !! g = Some grp → linked utxoAccounts grp.
Proof.
  destruct (groupCall_joined utxoHit utxoNote utxoNote_nonempty txs) as (v & Hv & Hj).
  exists v. split; [done|]. intros g grp Hg.
  apply (joinedBy_linked utxoHit utxoNote utxoAccounts utxoHit_spec utxoNote_spec).
  by eapply Hj.
Qed.

(** X7. Every group the TransferSelf grouper returns holds transactions
    of one sender only, and a group of more than one transaction is of a
    sender other than 0. *)
Theorem transferSelf_group_one_sender txs :
  ∃ v, groupTransferSelfCall txs initGroupVars = Some v
       ∧ ∀ g grp, TxsGroupMap v !! g = Some grp →
           ∃ k, Forall (λ t, KeyID t = k) grp ∧ ((1 < length grp)%nat → k ≠ 0).
Proof.
  destruct (groupCall_total selfHit selfNote selfNote_nonempty txs initGroupVars)
    as [v Hv].
  exists v. split; [done|]. by apply (groupTransferSelfCall_one_sender txs).
Qed.

(** X5. On an input of fewer than 65536 transactions none of whose
    accounts is 0, two transactions of the input that share an account
    are in one group of the map the grouper returns: for the TransferSelf
    grouper the account is the sender, for the UTXO grouper the sender or
    the recipient. *)
Theorem conflicting_transactions_share_group txs :
  Z.of_nat (length txs) < 65536 →
  ((∀ t, t ∈ txs → KeyID t ≠ 0) →
   ∃ v, groupTransferSelfCall txs initGroupVars = Some v
        ∧ ∀ t1 t2, t1 ∈ txs → t2 ∈ txs → KeyID t1 = KeyID t2 →
            ∃ g grp, TxsGroupMap v !! g = Some grp ∧ t1 ∈ grp ∧ t2 ∈ grp)
  ∧ ((∀ t, t ∈ txs → KeyID t ≠ 0 ∧ ToID t ≠ 0) →
     ∃ v, groupUtxoCall txs initGroupVars = Some v
          ∧ ∀ t1 t2 k, t1 ∈ txs → t2 ∈ txs →
              k ∈ utxoAccounts t1 → k ∈ utxoAccounts t2 →
              ∃ g grp, TxsGroupMap v !! g = Some grp ∧ t1 ∈ grp ∧ t2 ∈ grp).
Proof.
  intros Hlen. split; intros Hnz.
  - destruct (groupCall_total selfHit selfNote selfNote_nonempty txs initGroupVars)
      as [v Hv].
    exists v. split; [done|]. intros t1 t2 H1 H2 Hk.
    apply (groupCall_conflicts selfAccounts selfHit selfNote selfNote_nonempty
             selfHit_spec selfNote_spec txs v t1 t2 (KeyID t1)); try done; [| |].
    + intros k (t & Ht & Hk'). apply list_elem_of_singleton in Hk' as ->. by apply Hnz.
    + by apply list_elem_of_singleton.
    + apply list_elem_of_singleton. done.
  - destruct (groupCall_total utxoHit utxoNote utxoNote_nonempty txs initGroupVars)
      as [v Hv].
    exists v. split; [done|]. intros t1 t2 k H1 H2 Hk1 Hk2.
    apply (groupCall_conflicts utxoAccounts utxoHit utxoNote utxoNote_nonempty
             utxoHit_spec utxoNote_spec txs v t1 t2 k); try done.
    intros k' (t & Ht & Hk'). destruct (Hnz t Ht) as [? ?].
    apply elem_of_cons in Hk' as [->|Hk']; [done|].
    by apply list_elem_of_singleton in Hk' as ->.
Qed.

Lemma conflicting_transactions_share_group_witness :
  ∃ v, groupUtxoCall chainInput initGroupVars = Some v
       ∧ ∀ t1 t2 k, t1 ∈ chainInput → t2 ∈ chainInput →
           k ∈ utxoAccounts t1 → k ∈ utxoAccounts t2 →
           ∃ g grp, TxsGroupMap v !! g = Some grp ∧ t1 ∈ grp ∧ t2 ∈ grp.
Proof.
  apply (proj2 (conflicting_transactions_share_group chainInput ltac:(by vm_compute))).
  intros t Hin.
  repeat (apply elem_of_cons in Hin as [->|Hin]; [by split|]).
  by apply not_elem_of_nil in Hin.
Defined.

(** X8. On an input of fewer than 65536 transactions whose senders are
    all other than 0, the groups of the TransferSelf grouper are the
    senders: every group is the list of the transactions of one sender, in
    input order, and the transactions of every sender are a group. *)
Theorem transferSelf_groups_are_senders txs :
  Z.of_nat (length txs) < 65536 →
  (∀ t, t ∈ txs → KeyID t ≠ 0) →
  ∃ v, groupTransferSelfCall txs initGroupVars = Some v
       ∧ (∀ g grp, TxsGroupMap v !! g = Some grp →
            ∃ t, t ∈ txs ∧ grp = filter (λ t', KeyID t' = KeyID t) txs)
       ∧ (∀ t, t ∈ txs →
            ∃ g, TxsGroupMap v !! g = Some (filter (λ t', KeyID t' = KeyID t) txs)).
Proof.
  intros Hlen Hnz.
  destruct (groupCall_partitioned selfHit selfNote selfNote_nonempty txs)
    as (v & Hv & Hp & _ & Hne); [done|].
  exists v. split; [done|].
  assert (pairwiseDisjoint selfAccounts (TxsGroupMap v)) as Hd.
  { apply (groupCall_disjoint selfAccounts selfHit selfNote selfNote_nonempty
             selfHit_spec selfNote_spec txs v); [|done].
    intros k (t & Ht & Hk). apply list_elem_of_singleton in Hk as ->. by apply Hnz. }
  assert (∀ g grp, TxsGroupMap v !! g = Some grp → grp `sublist_of` txs) as Hsub.
  { apply (groupTransferSelfTxs_sublist txs _ _ _ _ _ Hv).
    split_and!; [done| |by left]. intros g grp. simpl. by rewrite lookup_empty. }
  pose proof (groupTransferSelfCall_one_sender txs v Hv) as Hone.
  assert (∀ g grp t, TxsGroupMap v !! g = Some grp → t ∈ grp →
            grp = filter (λ t', KeyID t' = KeyID t) txs) as Hchar.
  { intros g grp t Hg Ht.
    assert (Forall (λ t', KeyID t' = KeyID t) grp) as Hall.
    { destruct (Hone g grp Hg) as (k & Hk & _). apply Forall_forall. intros t' Ht'.
      rewrite (proj1 (Forall_forall _ _) Hk t Ht).
      by apply (proj1 (Forall_forall _ _) Hk). }
    apply sublist_full.
    - rewrite <- (filter_all (λ t', KeyID t' = KeyID t) grp Hall).
      by apply sublist_filter_mono, (Hsub g).
    - rewrite <- Hp. unfold grouped.
      rewrite <- (map_to_list_delete _ g grp Hg). simpl.
      rewrite filter_app, length_app, (filter_all _ grp Hall).
      replace (filter _ (mjoin _)) with (@nil Transaction); [simpl; lia|].
      symmetry. apply elem_of_nil_inv. intros t' [Hk Hin]%list_elem_of_filter.
      apply (elem_of_grouped (delete g (TxsGroupMap v))) in Hin as (g' & grp' & Hg' & Hin).
      apply lookup_delete_Some in Hg' as [Hgg Hg'].
      apply (Hd g g' grp grp' Hgg Hg Hg' (KeyID t)).
      + exists t. split; [done|]. by apply list_elem_of_singleton.
      + exists t'. split; [done|]. by apply list_elem_of_singleton. }
  split.
  - intros g grp Hg. destruct grp as [|t l] eqn:Hgrp; [by destruct (Hne g [])|].
    exists t. split.
    + apply (sublist_subseteq _ _ (Hsub g _ Hg)), list_elem_of_here.
    + apply (Hchar g); [done|apply list_elem_of_here].
  - intros t Ht. rewrite <- Hp in Ht.
    apply elem_of_grouped in Ht as (g & grp & Hg & Hin).
    exists g. by rewrite <- (Hchar g grp t Hg Hin).
Qed.

Lemma transferSelf_groups_are_senders_witness :
  ∃ v, groupTransferSelfCall selfInput initGroupVars = Some v
       ∧ (∀ g grp, TxsGroupMap v !! g = Some grp →
            ∃ t, t ∈ selfInput ∧ grp = filter (λ t', KeyID t' = KeyID t) selfInput)
       ∧ (∀ t, t ∈ selfInput →
            ∃ g, TxsGroupMap v !! g
                 = Some (filter (λ t', KeyID t' = KeyID t) selfInput)).
Proof.
  apply (transferSelf_groups_are_senders selfInput); [by vm_compute|].
  intros t Hin.
  repeat (apply elem_of_cons in Hin as [->|Hin]; [done|]).
  by apply not_elem_of_nil in Hin.
Defined.

(** X9. The smart-contract transactions, which [ProcessTxs] stores under
    the key 0 of the map the UTXO grouper returned, replace no group: on
    fewer than 65536 UTXO transactions, the groups of the second parallel
    phase hold the smart-contract and the UTXO transactions of the block,
    each exactly once. *)
Theorem contract_group_joins_utxo_groups txs contracts :
  Z.of_nat (length txs) < 65536 →
  ∃ v, groupUtxoCall txs initGroupVars = Some v
       ∧ grouped (<[Itoa 0 := contracts]> (TxsGroupMap v)) ≡ₚ contracts ++ txs.
Proof.
  intros Hlen.
  destruct (groupCall_partitioned utxoHit utxoNote utxoNote_nonempty txs Hlen)
    as (v & Hv & Hp & (n & Hn & Hk) & _).
  exists v. split; [done|]. rewrite grouped_insert, Hp; [done|].
  apply eq_None_not_Some. intros (s & Hs%(inj pretty) & ?)%Hk. lia.
Qed.

Lemma contract_group_joins_utxo_groups_witness :
  ∃ v, groupUtxoCall chainInput initGroupVars = Some v
       ∧ grouped (<[Itoa 0 := [sctx "k" 6]]> (TxsGroupMap v)) ≡ₚ [sctx "k" 6] ++ chainInput.
Proof. apply (contract_group_joins_utxo_groups chainInput [sctx "k" 6]). by vm_compute. Defined.

(** *** Transactions of different senders *)

Lemma no_hit_other_senders k txs :
  k ∉ KeyID <$> txs → Forall (λ t, selfHit {[k := k]} t = false) txs.
Proof.
  intros Hk. apply Forall_forall. intros t Ht.
  destruct (selfHit {[k := k]} t) eqn:Hhit; [|done].
  apply walletHas_singleton in Hhit as [Heq _]. destruct Hk.
  rewrite <- Heq. by apply list_elem_of_fmap_2.
Qed.

Lemma sweep_single k txs l :
  k ≠ 0 → k ∉ KeyID <$> txs →
  pick selfHit selfNote txs {[k := k]} l [] = (txs, {[k := k]}, l).
Proof.
  intros Hk0 Hk. rewrite pick_stable by apply selfNote_stable.
  destruct (filter_none_hit {[k := k]} txs (no_hit_other_senders k txs Hk)) as [-> ->].
  by rewrite app_nil_r.
Qed.

Lemma groupTransferSelfTxs_singles final fuel txs wa v v' :
  groupTransferSelfTxs fuel txs wa v = Some v' →
  singlesInv final txs wa v → TxsGroupMap v' = final.
Proof.
  apply (groupTxs_rule selfHit selfNote (singlesInv final) (λ v', TxsGroupMap v' = final));
    clear fuel txs wa v v'.
  - intros wa v (_ & _ & _ & Hst & Hl). rewrite Hl in Hst by done. done.
  - intros txs wa m l s txs' wa' l' Htxs (Hnd & Hnz & Hst & Hfin & _) Hsw Hlen.
    simpl in *. destruct Hst as [[-> ->]|(t0 & -> & ->)].
    + destruct txs as [|t r]; [done|]. simpl in Hnd, Hnz.
      apply NoDup_cons in Hnd as [Hk Hnd]. apply Forall_cons in Hnz as [Hk0 Hnz].
      rewrite (sweep_seed selfHit selfNote selfNote_nonempty) in Hsw
        by apply map_size_empty.
      change (selfNote ∅ t) with (<[KeyID t := KeyID t]> (∅ : gmap Z Z)) in Hsw.
      rewrite insert_empty, sweep_single in Hsw by done.
      injection Hsw as <- <- <-. split.
      * intros ->. by simpl in Hfin.
      * intros Hr. split_and!; simpl; [by constructor|by constructor| |done|done].
        right. by exists t.
    + rewrite (sweep_resweep selfHit selfNote selfNote_nonempty) in Hsw
        by (rewrite map_size_singleton; lia).
      simpl in Hnd, Hnz. apply NoDup_cons in Hnd as [Hk Hnd].
      apply Forall_cons in Hnz as [Hk0 Hnz].
      rewrite sweep_single in Hsw by done. injection Hsw as <- <- <-.
      simpl in Hlen. lia.
  - intros txs wa m l s txs' wa' l' Htxs (Hnd & Hnz & Hst & Hfin & _) Hsw Hlen.
    simpl in *. destruct Hst as [[-> ->]|(t0 & -> & ->)].
    + destruct txs as [|t r]; [done|]. simpl in Hnd, Hnz.
      apply NoDup_cons in Hnd as [Hk Hnd]. apply Forall_cons in Hnz as [Hk0 Hnz].
      rewrite (sweep_seed selfHit selfNote selfNote_nonempty) in Hsw
        by apply map_size_empty.
      change (selfNote ∅ t) with (<[KeyID t := KeyID t]> (∅ : gmap Z Z)) in Hsw.
      rewrite insert_empty, sweep_single in Hsw by done.
      injection Hsw as <- <- <-. simpl in Hlen. lia.
    + rewrite (sweep_resweep selfHit selfNote selfNote_nonempty) in Hsw
        by (rewrite map_size_singleton; lia).
      simpl in Hnd, Hnz. apply NoDup_cons in Hnd as [Hk Hnd].
      apply Forall_cons in Hnz as [Hk0 Hnz].
      rewrite sweep_single in Hsw by done. injection Hsw as <- <- <-.
      split; [|simpl; lia]. intros _. split_and!; simpl; [done|done|by left|done|done].
Qed.

(** Every key of the result holds what it held before or one of the
    stored transactions. *)
Lemma storeSingles_key r : ∀ s m g,
  storeSingles s r m !! g = m !! g
  ∨ ∃ t, t ∈ r ∧ storeSingles s r m !! g = Some [t].
Proof.
  induction r as [|t r IH]; intros s m g; simpl; [by left|].
  destruct (IH (incSerial s) (<[Itoa s := [t]]> m) g) as [H|(t' & Ht' & H)].
  - rewrite H. destruct (decide (g = Itoa s)) as [->|Hne].
    + right. exists t. rewrite lookup_insert_eq. split; [apply list_elem_of_here|done].
    + left. by rewrite lookup_insert_ne.
  - right. exists t'. split; [by apply list_elem_of_further|done].
Qed.

(** The key of the serial [d] steps after [s] is written when more than
    [d] transactions are stored. *)
Lemma storeSingles_hits d : ∀ s r m,
  0 ≤ s < 65536 → (d < length r)%nat →
  ∃ t, t ∈ r ∧ storeSingles s r m !! Itoa ((s + Z.of_nat d) mod 65536) = Some [t].
Proof.
  induction d as [|d IH]; intros s [|t r] m Hs Hd; simpl in Hd; try lia.
  - rewrite Z.add_0_r, Z.mod_small by done. simpl.
    destruct (storeSingles_key r (incSerial s) (<[Itoa s := [t]]> m) (Itoa s))
      as [H|(t' & Ht' & H)].
    + exists t. split; [apply list_elem_of_here|]. by rewrite H, lookup_insert_eq.
    + exists t'. split; [by apply list_elem_of_further|done].
  - simpl storeSingles.
    destruct (IH (incSerial s) r (<[Itoa s := [t]]> m)) as (t' & Ht' & H).
    { unfold incSerial. by apply Z.mod_pos_bound. }
    { lia. }
    exists t'. split; [by apply list_elem_of_further|].
    rewrite <- H. do 2 f_equal. unfold incSerial.
    rewrite Zplus_mod_idemp_l. f_equal. lia.
Qed.

(** X3. The serial of a group is a uint16, and it wraps around: when the
    TransferSelf grouper is given more than 65536 transactions of
    different senders, none of them 0, the group of the first transaction
    is overwritten, and the first transaction is in none of the groups
    returned. *)
Theorem serial_wraps_after_65535_groups t0 rest :
  NoDup (KeyID <$> t0 :: rest) →
  (∀ t, t ∈ t0 :: rest → KeyID t ≠ 0) →
  65536 ≤ Z.of_nat (length rest) →
  ∃ v, groupTransferSelfCall (t0 :: rest) initGroupVars = Some v
       ∧ t0 ∉ grouped (TxsGroupMap v).
Proof.
  intros Hnd Hnz Hlen.
  destruct (groupCall_total selfHit selfNote selfNote_nonempty (t0 :: rest) initGroupVars)
    as [v Hv].
  exists v. split; [done|].
  assert (TxsGroupMap v = storeSingles 1 (t0 :: rest) ∅) as ->.
  { apply (groupTransferSelfTxs_singles _ _ _ _ _ _ Hv).
    split_and!; simpl; [done|by apply Forall_forall|by left|done|done]. }
  assert (t0 ∉ rest) as Hfresh.
  { intros Hin. apply NoDup_cons in Hnd as [Hk _]. apply Hk.
    by apply list_elem_of_fmap_2. }
  intros (g & grp & Hg & Hin)%elem_of_grouped.
  change (storeSingles 1 (t0 :: rest) ∅)
    with (storeSingles (incSerial 1) rest (<[Itoa 1 := [t0]]> ∅)) in Hg.
  destruct (storeSingles_hits (Z.to_nat 65535) (incSerial 1) rest {[Itoa 1 := [t0]]})
    as (t1 & Ht1 & H1); [done|lia|].
  rewrite Z2Nat.id in H1 by done.
  change (Itoa ((incSerial 1 + 65535) mod 65536)) with (Itoa 1) in H1.
  rewrite insert_empty in Hg.
  destruct (storeSingles_key rest (incSerial 1) {[Itoa 1 := [t0]]} g)
    as [H|(t & Ht & H)]; rewrite H in Hg.
  - apply lookup_singleton_Some in Hg as [<- <-]. rewrite H1 in H.
    rewrite lookup_singleton_eq in H. by simplify_eq.
  - simplify_eq. apply list_elem_of_singleton in Hin. by subst.
Qed.

Lemma serial_wraps_after_65535_groups_witness :
  ∃ v, groupTransferSelfCall
         (utx "" 1 0 :: ((λ k, utx "" k 0) <$> seqZ 2 65536)) initGroupVars = Some v
       ∧ utx "" 1 0 ∉ grouped (TxsGroupMap v).
Proof.
  assert (KeyID <$> ((λ k, utx "" k 0) <$> seqZ 2 65536) = seqZ 2 65536) as Hkeys.
  { rewrite <- list_fmap_compose. apply list_fmap_id. }
  apply (serial_wraps_after_65535_groups (utx "" 1 0) ((λ k, utx "" k 0) <$> seqZ 2 65536)).
  - rewrite fmap_cons, Hkeys. apply NoDup_cons. split; [|apply NoDup_seqZ].
    intros Hin%elem_of_seqZ. change (KeyID (utx "" 1 0)) with 1 in Hin. lia.
  - intros t [->|Hin]%elem_of_cons; [done|].
    apply list_elem_of_fmap in Hin as (k & -> & Hk%elem_of_seqZ).
    change (KeyID (utx "" k 0)) with k. lia.
  - rewrite length_fmap, length_seqZ. lia.
Defined.

(** ** The executor *)

Lemma newEvents_app w w' l : trace w' = trace w ++ l → newEvents w w' = l.
Proof. intros H. unfold newEvents. by rewrite H, drop_app_length. Qed.

(** *** One iteration, case by case *)

Section ExecutorStep.
Variable env : Env.
Variable b : Block.

(** One iteration: it ends the call with an error, or skips the
    transaction of a block being generated, or accepts the transaction. *)
Lemma serialLoop_step curTx t rest genBErr w :
  let r := serialLoop env b curTx (t :: rest) genBErr w in
  (∃ e l, r = (Some e, emitAll l w) ∧ callsOf env t l ∧ l ≠ acceptCalls env t
          ∧ (EvPauseNodeActivity ∈ l → e = ErrNetworkStopping))
  ∨ (∃ tail, GenBlock b = true ∧ forallb markEvent tail = true
       ∧ ((r = (None, emitAll (failCalls env t tail) w) ∧ curTx ≠ 0%nat)
          ∨ ∃ g', r = serialLoop env b (S curTx) rest g'
                        (emitAll (failCalls env t tail) w)))
  ∨ (∃ p, playErr p = None
       ∧ r = serialLoop env b (S curTx) rest genBErr
               (accept t p (emitAll (enterEvents env t) w))).
Proof.
  simpl. unfold ask.
  destruct (Savepoint env _ _) as [e|]; simpl.
  { left. exists e, [EvSavepoint (savePointName env t)].
    split_and!; [by rewrite emit_emitAll|by left|done|].
    intros H. apply list_elem_of_singleton in H. done. }
  destruct (WithOption env _ _) as [e|]; simpl.
  { left. exists e, [EvSavepoint (savePointName env t); EvWithOption t].
    split_and!; [by rewrite !emit_emitAll, !emitAll_emitAll|right; by left|done|].
    intros H. repeat (apply elem_of_cons in H as [H|H]; [done|]).
    by apply not_elem_of_nil in H. }
  destruct (playErr _) as [err|] eqn:Hplay; simpl; last first.
  { right. right. eexists. split; [exact Hplay|].
    by rewrite !emit_emitAll, !emitAll_emitAll. }
  destruct (decide (err = ErrNetworkStopping)) as [->|Hn]; simpl.
  { left. exists ErrNetworkStopping, (enterEvents env t ++ [EvPauseNodeActivity]).
    split_and!; [by rewrite !emit_emitAll, !emitAll_emitAll|do 2 right; by left|done|done]. }
  assert (∀ tail, forallb markEvent tail = true →
            EvPauseNodeActivity ∉ failCalls env t tail) as Hnp.
  { intros tail Hm H. unfold failCalls, enterEvents in H. simpl in H.
    repeat (apply elem_of_cons in H as [H|H]; [done|]).
    apply list_elem_of_In in H. by apply (proj1 (forallb_forall _ _) Hm) in H. }
  assert (∀ tail, failCalls env t tail ≠ acceptCalls env t) as Hna.
  { intros tail H. unfold failCalls, acceptCalls in H. by apply app_inv_head in H. }
  destruct (RollbackSavepoint env _ _) as [er|]; simpl.
  { left. exists (ErrComposed err er), (failCalls env t []).
    split_and!; [by rewrite !emit_emitAll, !emitAll_emitAll| |done|by intros ?%Hnp].
    do 4 right. by exists []. }
  destruct (GenBlock b) eqn:Hgen; simpl.
  - case_bool_decide as Hc; simpl.
    + destruct (decide (curTx = 0%nat)) as [->|H0].
      * left. exists err, (failCalls env t []).
        split_and!; [by rewrite !emit_emitAll, !emitAll_emitAll| |done|by intros ?%Hnp].
        do 4 right. by exists [].
      * right. left. exists []. split_and!; [done..|]. left.
        split; [|done]. by rewrite !emit_emitAll, !emitAll_emitAll.
    + set (err' := if Contains _ _ then _ else _).
      destruct (tSysUpdate _); simpl.
      * destruct (SysUpdate env _) as [es|]; simpl.
        -- left. exists (ErrUpdatingSyspar es),
             (failCalls env t (rejectEvents env t err' ++ [EvSysUpdate])).
           assert (forallb markEvent (rejectEvents env t err' ++ [EvSysUpdate]) = true)
             as Hm by (unfold rejectEvents; by destruct (IsSmartContract t)).
           split_and!; [|do 4 right; by eexists|done|by intros ?%Hnp].
           unfold failCalls, rejectEvents. destruct (IsSmartContract t); simpl;
             by rewrite !emit_emitAll, !emitAll_emitAll.
        -- right. left. exists (rejectEvents env t err' ++ [EvSysUpdate]).
           split_and!; [done|unfold rejectEvents; by destruct (IsSmartContract t)|].
           right. exists (Some err').
           unfold failCalls, rejectEvents. destruct (IsSmartContract t); simpl;
             by rewrite !emit_emitAll, !emitAll_emitAll.
      * right. left. exists (rejectEvents env t err').
        split_and!; [done|unfold rejectEvents; by destruct (IsSmartContract t)|].
        right. exists (Some err').
        unfold failCalls, rejectEvents. destruct (IsSmartContract t); simpl;
          by rewrite !emit_emitAll, !emitAll_emitAll.
  - destruct (tSysUpdate _); simpl.
    + destruct (SysUpdate env _) as [es|]; simpl.
      * left. exists (ErrUpdatingSyspar es),
          (failCalls env t (rejectEvents env t err ++ [EvSysUpdate])).
        assert (forallb markEvent (rejectEvents env t err ++ [EvSysUpdate]) = true)
          as Hm by (unfold rejectEvents; by destruct (IsSmartContract t)).
        split_and!; [|do 4 right; by eexists|done|by intros ?%Hnp].
        unfold failCalls, rejectEvents. destruct (IsSmartContract t); simpl;
          by rewrite !emit_emitAll, !emitAll_emitAll.
      * left. exists err, (failCalls env t (rejectEvents env t err ++ [EvSysUpdate])).
        assert (forallb markEvent (rejectEvents env t err ++ [EvSysUpdate]) = true)
          as Hm by (unfold rejectEvents; by destruct (IsSmartContract t)).
        split_and!; [|do 4 right; by eexists|done|by intros ?%Hnp].
        unfold failCalls, rejectEvents. destruct (IsSmartContract t); simpl;
          by rewrite !emit_emitAll, !emitAll_emitAll.
    + left. exists err, (failCalls env t (rejectEvents env t err)).
      assert (forallb markEvent (rejectEvents env t err) = true)
        as Hm by (unfold rejectEvents; by destruct (IsSmartContract t)).
      split_and!; [|do 4 right; by eexists|done|by intros ?%Hnp].
      unfold failCalls, rejectEvents. destruct (IsSmartContract t); simpl;
        by rewrite !emit_emitAll, !emitAll_emitAll.
Qed.
End ExecutorStep.

(** *** What a call of the executor does *)

Lemma bNotifications_emitAll l w : bNotifications (emitAll l w) = bNotifications w.
Proof. done. Qed.

Lemma bNotifications_accept t p w :
  bNotifications (accept t p w)
  = bNotifications w
    ++ (if decide (0 < length (tNotifications p))%nat then [tNotifications p] else []).
Proof.
  unfold accept. destruct (tSysUpdate p); case_decide; simpl; by rewrite ?app_nil_r.
Qed.

Lemma callsOf_pause env t l :
  callsOf env t l → EvPauseNodeActivity ∈ l → last l = Some EvPauseNodeActivity.
Proof.
  intros [->|[->|[->|[->|(tail & -> & Hm)]]]] H.
  - by apply list_elem_of_singleton in H.
  - repeat (apply elem_of_cons in H as [H|H]; [done|]). by apply not_elem_of_nil in H.
  - done.
  - unfold acceptCalls, enterEvents in H. simpl in H.
    repeat (apply elem_of_cons in H as [H|H]; [done|]). by apply not_elem_of_nil in H.
  - unfold failCalls, enterEvents in H. simpl in H.
    repeat (apply elem_of_cons in H as [H|H]; [done|]).
    apply list_elem_of_In in H. by apply (proj1 (forallb_forall _ _) Hm) in H.
Qed.

Section ExecutorFacts.
Variable env : Env.
Variable b : Block.

Lemma serialLoop_accepted txs : ∀ curTx genBErr w,
  ∃ acc, acc `sublist_of` txs
    ∧ processedTx (serialLoop env b curTx txs genBErr w).2
      = processedTx w ++ (FullData <$> acc)
    ∧ UsedTx <$> Txs (afters (serialLoop env b curTx txs genBErr w).2)
      = (UsedTx <$> Txs (afters w)) ++ (Hash <$> acc)
    ∧ (GenBlock b = false →
         acc `prefix_of` txs
         ∧ ((serialLoop env b curTx txs genBErr w).1 = None ↔ acc = txs)).
Proof.
  induction txs as [|t rest IH]; intros curTx genBErr w.
  { exists []. simpl. by rewrite !app_nil_r. }
  destruct (serialLoop_step env b curTx t rest genBErr w)
    as [(e & l & -> & _)|[(tail & Hgen & _ & [[-> _]|(g' & ->)])|(p & Hp & ->)]].
  - exists []. simpl. rewrite !app_nil_r.
    split_and!; [apply sublist_nil_l|done..|].
    intros _. split; [apply prefix_nil|done].
  - exists []. simpl. rewrite !app_nil_r.
    split_and!; [apply sublist_nil_l|done..|]. by rewrite Hgen.
  - destruct (IH (S curTx) g' (emitAll (failCalls env t tail) w))
      as (acc & Hs & H1 & H2 & _).
    exists acc. split_and!; [by constructor|done..|by rewrite Hgen].
  - destruct (IH (S curTx) genBErr (accept t p (emitAll (enterEvents env t) w)))
      as (acc & Hs & H1 & H2 & H3).
    exists (t :: acc). split_and!; [by constructor| | |].
    + rewrite H1, processedTx_accept. simpl. by rewrite <- app_assoc.
    + rewrite H2, afters_accept. simpl. rewrite fmap_app, <- app_assoc. done.
    + intros Hgen. destruct (H3 Hgen) as [Hpre Hiff].
      split; [by apply prefix_cons|]. rewrite Hiff. split; [by intros ->|by intros [= ->]].
Qed.

Lemma serialLoop_notifications txs : ∀ curTx genBErr w,
  ∃ qs, bNotifications (serialLoop env b curTx txs genBErr w).2 = bNotifications w ++ qs
        ∧ Forall (λ q, q ≠ []) qs.
Proof.
  induction txs as [|t rest IH]; intros curTx genBErr w.
  { exists []. simpl. by rewrite app_nil_r. }
  destruct (serialLoop_step env b curTx t rest genBErr w)
    as [(e & l & -> & _)|[(tail & Hgen & _ & [[-> _]|(g' & ->)])|(p & Hp & ->)]].
  - exists []. simpl. by rewrite app_nil_r.
  - exists []. simpl. by rewrite app_nil_r.
  - apply (IH (S curTx) g' (emitAll (failCalls env t tail) w)).
  - destruct (IH (S curTx) genBErr (accept t p (emitAll (enterEvents env t) w)))
      as (qs & H1 & H2).
    rewrite bNotifications_accept, bNotifications_emitAll in H1.
    eexists. rewrite H1, <- app_assoc. split; [done|].
    apply Forall_app. split; [|done]. case_decide; [|done].
    apply Forall_singleton. intros Hq. rewrite Hq in *. simpl in *. lia.
Qed.

Lemma serialLoop_pause txs : ∀ curTx genBErr w,
  ∃ l, trace (serialLoop env b curTx txs genBErr w).2 = trace w ++ l
       ∧ (EvPauseNodeActivity ∈ l →
            (serialLoop env b curTx txs genBErr w).1 = Some ErrNetworkStopping
            ∧ last l = Some EvPauseNodeActivity).
Proof.
  induction txs as [|t rest IH]; intros curTx genBErr w.
  { exists []. simpl. rewrite app_nil_r. split; [done|]. by intros ?%not_elem_of_nil. }
  assert (∀ tail, forallb markEvent tail = true →
            EvPauseNodeActivity ∉ failCalls env t tail) as Hnp.
  { intros tail Hm H. unfold failCalls, enterEvents in H. simpl in H.
    repeat (apply elem_of_cons in H as [H|H]; [done|]).
    apply list_elem_of_In in H. by apply (proj1 (forallb_forall _ _) Hm) in H. }
  destruct (serialLoop_step env b curTx t rest genBErr w)
    as [(e & l & -> & Hc & _ & He)|[(tail & Hgen & Hm & [[-> _]|(g' & ->)])|(p & Hp & ->)]].
  - exists l. split; [done|]. intros H. simpl. split; [by rewrite He|].
    by apply (callsOf_pause env t).
  - eexists. split; [done|]. by intros ?%Hnp.
  - destruct (IH (S curTx) g' (emitAll (failCalls env t tail) w)) as (l & H1 & H2).
    exists (failCalls env t tail ++ l). rewrite H1, trace_emitAll, <- app_assoc.
    split; [done|]. intros [H|H]%elem_of_app; [by apply Hnp in H|].
    destruct (H2 H) as [Hr Hl]. split; [done|]. by rewrite last_app, Hl.
  - destruct (IH (S curTx) genBErr (accept t p (emitAll (enterEvents env t) w)))
      as (l & H1 & H2).
    exists (acceptCalls env t ++ l).
    rewrite H1, trace_accept, trace_emitAll. unfold acceptCalls. rewrite <- !app_assoc.
    split; [done|]. rewrite !app_assoc. intros [H|H]%elem_of_app.
    { unfold enterEvents in H. simpl in H.
      repeat (apply elem_of_cons in H as [H|H]; [done|]). by apply not_elem_of_nil in H. }
    destruct (H2 H) as [Hr Hl]. split; [done|]. by rewrite last_app, Hl.
Qed.

(** One iteration, with the results that decide its calls. *)
Lemma serialLoop_callsAt curTx t rest genBErr w :
  ∃ l go, callsAt env (trace w) t l go
    ∧ if go then
        ∃ g' w', trace w' = trace w ++ l
                 ∧ serialLoop env b curTx (t :: rest) genBErr w
                   = serialLoop env b (S curTx) rest g' w'
      else ∃ r, serialLoop env b curTx (t :: rest) genBErr w = (r, emitAll l w).
Proof.
  unfold callsAt. simpl. unfold ask.
  destruct (Savepoint env _ _) as [e|]; simpl.
  { exists [EvSavepoint (savePointName env t)], false.
    split; [done|]. exists (Some e). by rewrite emit_emitAll. }
  destruct (WithOption env _ _) as [e|]; simpl.
  { exists [EvSavepoint (savePointName env t); EvWithOption t], false.
    split; [done|]. exists (Some e). by rewrite !emit_emitAll, !emitAll_emitAll. }
  rewrite <- app_assoc. simpl.
  destruct (playErr _) as [err|] eqn:Hplay; simpl; last first.
  { exists (acceptCalls env t), true. split; [done|]. do 2 eexists. split; [|done].
    rewrite trace_accept. simpl. by rewrite <- !app_assoc. }
  destruct (decide (err = ErrNetworkStopping)) as [->|Hn]; simpl.
  { exists (enterEvents env t ++ [EvPauseNodeActivity]), false.
    split; [done|]. exists (Some ErrNetworkStopping).
    by rewrite !emit_emitAll, !emitAll_emitAll. }
  assert (∀ err', forallb markEvent (rejectEvents env t err') = true) as Hrej.
  { intros err'. unfold rejectEvents. by destruct (IsSmartContract t). }
  assert (∀ err', forallb markEvent (rejectEvents env t err' ++ [EvSysUpdate]) = true)
    as Hrejs.
  { intros err'. unfold rejectEvents. by destruct (IsSmartContract t). }
  destruct (RollbackSavepoint env _ _) as [er|]; simpl.
  { exists (failCalls env t []), false. split; [by exists []|].
    exists (Some (ErrComposed err er)). by rewrite !emit_emitAll, !emitAll_emitAll. }
  destruct (GenBlock b) eqn:Hgen; simpl.
  - case_bool_decide as Hc; simpl.
    + exists (failCalls env t []), false. split; [by exists []|].
      destruct (decide (curTx = 0%nat)); eexists;
        by rewrite !emit_emitAll, !emitAll_emitAll.
    + set (err' := if Contains _ _ then _ else _).
      destruct (tSysUpdate _); simpl.
      * destruct (SysUpdate env _) as [es|]; simpl.
        -- exists (failCalls env t (rejectEvents env t err' ++ [EvSysUpdate])), false.
           split; [by eexists|]. exists (Some (ErrUpdatingSyspar es)).
           unfold failCalls, rejectEvents. destruct (IsSmartContract t); simpl;
             by rewrite !emit_emitAll, !emitAll_emitAll.
        -- exists (failCalls env t (rejectEvents env t err' ++ [EvSysUpdate])), true.
           split; [by eexists|]. do 2 eexists. split; [|done].
           unfold failCalls, rejectEvents. destruct (IsSmartContract t); simpl;
             by rewrite <- !app_assoc.
      * exists (failCalls env t (rejectEvents env t err')), true.
        split; [by eexists|]. do 2 eexists. split; [|done].
        unfold failCalls, rejectEvents. destruct (IsSmartContract t); simpl;
          by rewrite <- !app_assoc.
  - destruct (tSysUpdate _); simpl.
    + exists (failCalls env t (rejectEvents env t err ++ [EvSysUpdate])), false.
      split; [by eexists|].
      destruct (SysUpdate env _) as [es|]; simpl; eexists;
        unfold failCalls, rejectEvents; destruct (IsSmartContract t); simpl;
        by rewrite !emit_emitAll, !emitAll_emitAll.
    + exists (failCalls env t (rejectEvents env t err)), false.
      split; [by eexists|]. eexists.
      unfold failCalls, rejectEvents. destruct (IsSmartContract t); simpl;
        by rewrite !emit_emitAll, !emitAll_emitAll.
Qed.

Lemma serialLoop_callsFrom txs : ∀ curTx genBErr w,
  ∃ ls, trace (serialLoop env b curTx txs genBErr w).2 = trace w ++ mjoin ls
        ∧ callsFrom env (trace w) txs ls.
Proof.
  induction txs as [|t rest IH]; intros curTx genBErr w.
  { exists []. simpl. by rewrite app_nil_r. }
  destruct (serialLoop_callsAt curTx t rest genBErr w) as (l & [|] & Hat & Hrun).
  - destruct Hrun as (g' & w' & Hw' & ->).
    destruct (IH (S curTx) g' w') as (ls & Hls & Hfrom).
    exists (l :: ls). split.
    + by rewrite Hls, Hw', <- app_assoc.
    + exists true. split; [done|]. by rewrite <- Hw'.
  - destruct Hrun as (r & ->). exists [l]. split.
    + simpl. by rewrite app_nil_r.
    + by exists false.
Qed.
End ExecutorFacts.

(** *** Savepoint names *)

Lemma hexDigit_inj (n m : N) :
  (n < 16)%N → (m < 16)%N → hexDigit n = hexDigit m → n = m.
Proof.
  intros Hn Hm H.
  destruct n as [|p]; [|do 4 (try destruct p as [p|p|]); try lia];
    (destruct m as [|q]; [|do 4 (try destruct q as [q|q|]); try lia]);
    simpl in H; congruence.
Qed.

Lemma EncodeToString_inj s1 : ∀ s2, EncodeToString s1 = EncodeToString s2 → s1 = s2.
Proof.
  induction s1 as [|c1 s1 IH]; intros [|c2 s2] H; simpl in H; try done.
  injection H as H1 H2 H3.
  apply hexDigit_inj in H1; [|apply N.Div0.div_lt_upper_bound; apply (N_ascii_bounded _)..].
  apply hexDigit_inj in H2; [|by apply N.mod_lt..].
  f_equal; [|by apply IH].
  rewrite <- (ascii_N_embedding c1), <- (ascii_N_embedding c2). f_equal.
  rewrite (N.div_mod (N_of_ascii c1) 16), (N.div_mod (N_of_ascii c2) 16) by done.
  by rewrite H1, H2.
Qed.

(** *** Theorems on the executor *)

(** X11. What a call of the executor accepts is a subsequence of its
    transactions: their raw bytes are appended to [processedTx] and their
    entries to [afters.Txs], in the same order.  When the block is being
    validated the accepted transactions are a prefix of the list, and the
    call returns nil exactly when it accepted them all. *)
Theorem executor_accepts_in_order env b txs genBErr w :
  ∃ acc, acc `sublist_of` txs
    ∧ processedTx (serialExecuteTxs env b txs genBErr w).2
      = processedTx w ++ (FullData <$> acc)
    ∧ UsedTx <$> Txs (afters (serialExecuteTxs env b txs genBErr w).2)
      = (UsedTx <$> Txs (afters w)) ++ (Hash <$> acc)
    ∧ (GenBlock b = false →
         acc `prefix_of` txs
         ∧ ((serialExecuteTxs env b txs genBErr w).1 = None ↔ acc = txs)).
Proof. unfold serialExecuteTxs. apply serialLoop_accepted. Qed.

(** X13. The executor pauses the node only for a transaction whose [Play]
    returned [ErrNetworkStopping] itself: [PauseNodeActivity] is then the
    last call of the executor, which returns [ErrNetworkStopping]. *)
Theorem pause_means_network_stopping env b txs genBErr w :
  EvPauseNodeActivity ∈ newEvents w (serialExecuteTxs env b txs genBErr w).2 →
  (serialExecuteTxs env b txs genBErr w).1 = Some ErrNetworkStopping
  ∧ last (trace (serialExecuteTxs env b txs genBErr w).2) = Some EvPauseNodeActivity.
Proof.
  unfold serialExecuteTxs.
  destruct (serialLoop_pause env b txs 0 genBErr w) as (l & Hl & Hp).
  rewrite (newEvents_app _ _ _ Hl). intros [Hr Hlast]%Hp. split; [done|].
  by rewrite Hl, last_app, Hlast.
Qed.

Lemma pause_means_network_stopping_witness :
  (serialExecuteTxs (stopEnv None) stopBlock [stopTx; sctx "k" 6] None newWorld).1
  = Some ErrNetworkStopping
  ∧ last (trace (serialExecuteTxs (stopEnv None) stopBlock [stopTx; sctx "k" 6]
                                  None newWorld).2)
    = Some EvPauseNodeActivity.
Proof.
  apply (pause_means_network_stopping (stopEnv None) stopBlock [stopTx; sctx "k" 6]
           None newWorld).
  apply (bool_decide_unpack _). by vm_compute.
Defined.

(** X10. The calls of the executor come transaction by transaction, in list
    order, and the results of the calls decide them.  For each
    transaction the loop gets to: [Savepoint], which ends the call when
    it fails; then [WithOption], which ends the call when it fails; then
    [Play].  When [Play] succeeds, [UpdateTxInputs] and [InsertTxOutputs]
    follow and the loop goes on with the next transaction.  When [Play]
    returns [ErrNetworkStopping], [PauseNodeActivity] follows and ends
    the call.  On any other error of [Play] the rollback to the savepoint
    of the transaction follows, and after it nothing but [BadTxForBan],
    [MarkTransactionBad] and [SysUpdate]; the call then ends or goes on
    with the next transaction. *)
Theorem executor_calls_by_transaction env b txs genBErr w :
  ∃ ls, newEvents w (serialExecuteTxs env b txs genBErr w).2 = mjoin ls
        ∧ callsFrom env (trace w) txs ls.
Proof.
  unfold serialExecuteTxs.
  destruct (serialLoop_callsFrom env b txs 0 genBErr w) as (ls & Hl & Hc).
  exists ls. split; [by apply newEvents_app|done].
Qed.

(** X14. The parameter [genBErr] of the executor is write-only: whatever
    error is passed for it, the executor makes the same calls, leaves the
    same state and returns the same error. *)
Theorem genBErr_is_write_only env b txs g1 g2 w :
  serialExecuteTxs env b txs g1 w = serialExecuteTxs env b txs g2 w.
Proof. unfold serialExecuteTxs. apply serialLoop_genBErr_unused. Qed.

(** X15. Two transactions get the same savepoint name only when they have
    the same hash, provided [SetSavePointMarkBlock] maps different
    strings to different names: the hexadecimal encoding of the hash
    loses nothing. *)
Theorem savepoint_names_distinct env t1 t2 :
  (∀ s1 s2, SetSavePointMarkBlock env s1 = SetSavePointMarkBlock env s2 → s1 = s2) →
  savePointName env t1 = savePointName env t2 → Hash t1 = Hash t2.
Proof. intros Hinj H%Hinj. by apply EncodeToString_inj. Qed.

Lemma savepoint_names_distinct_witness : Hash (sctx "a" 1) = Hash (sctx "a" 2).
Proof.
  apply (savepoint_names_distinct limitEnv (sctx "a" 1) (sctx "a" 2)); [|reflexivity].
  by intros s1 s2 [=].
Defined.

(** *** The executor while a block is generated *)

Section Generation.
Variable env : Env.
Variable b : Block.
Variable plays : Transaction → option error.
Hypothesis generating_block : GenBlock b = true.
Hypothesis savepoint_ok : ∀ n h, Savepoint env n h = None.
Hypothesis with_option_ok : ∀ t h, WithOption env t h = None.
Hypothesis rollback_savepoint_ok : ∀ n h, RollbackSavepoint env n h = None.
Hypothesis sysupdate_ok : ∀ h, SysUpdate env h = None.

Lemma serialLoop_generation txs : ∀ curTx genBErr w,
  (∀ t h, t ∈ txs → playErr (Play env t h) = plays t) →
  (∀ t err, t ∈ txs → plays t = Some err →
            err ≠ ErrNetworkStopping ∧ Cause err ≠ ErrLimitStop) →
  ∃ l, trace (serialLoop env b curTx txs genBErr w).2 = trace w ++ l
       ∧ (serialLoop env b curTx txs genBErr w).1 = None
       ∧ processedTx (serialLoop env b curTx txs genBErr w).2
         = processedTx w ++ (FullData <$> filter (λ t, plays t = None) txs)
       ∧ omap playedTx l = txs
       ∧ omap markedHash l = Hash <$> filter (λ t, plays t ≠ None) txs.
Proof.
  induction txs as [|t rest IH]; intros curTx genBErr w Hplays Herr.
  { exists []. simpl. by rewrite !app_nil_r. }
  assert (∀ t h, t ∈ rest → playErr (Play env t h) = plays t) as Hplays'.
  { intros t' h Hin. apply Hplays. by apply list_elem_of_further. }
  assert (∀ t err, t ∈ rest → plays t = Some err →
                   err ≠ ErrNetworkStopping ∧ Cause err ≠ ErrLimitStop) as Herr'.
  { intros t' err Hin. apply Herr. by apply list_elem_of_further. }
  set (p := Play env t (trace w ++ [EvSavepoint (savePointName env t); EvWithOption t])).
  assert (reachesPlay env t w p) as Hreach by (by split_and!).
  assert (playErr p = plays t) as Hp by apply Hplays, list_elem_of_here.
  rewrite !filter_cons.
  destruct (plays t) as [err|] eqn:Hpt.
  - destruct (Herr t err (list_elem_of_here _ _) Hpt) as [Hn Hc].
    rewrite (step_reject_generation env b curTx t rest genBErr w p err) by done.
    match goal with
    | |- context [serialLoop env b (S curTx) rest ?g (emitAll ?l0 w)] =>
        destruct (IH (S curTx) g (emitAll l0 w) Hplays' Herr')
          as (l & Hl & Hr & Hpr & Hpl & Hm); exists (l0 ++ l)
    end.
    rewrite decide_False, decide_True by done.
    split_and!; [by rewrite Hl, trace_emitAll, <- app_assoc|done|done|..].
    + rewrite !omap_app, Hpl. unfold rejectEvents.
      by destruct (IsSmartContract t), (tSysUpdate p).
    + rewrite !omap_app, Hm. unfold rejectEvents.
      by destruct (IsSmartContract t), (tSysUpdate p).
  - rewrite (step_accept env b curTx t rest genBErr w p) by done.
    destruct (IH (S curTx) genBErr (accept t p (emitAll (enterEvents env t) w))
                Hplays' Herr') as (l & Hl & Hr & Hpr & Hpl & Hm).
    exists (acceptCalls env t ++ l).
    rewrite decide_True by done. rewrite decide_False by (by intros ?).
    split_and!; [|done|..].
    + rewrite Hl, trace_accept, trace_emitAll. unfold acceptCalls.
      by rewrite <- !app_assoc.
    + rewrite Hpr, processedTx_accept. simpl. by rewrite <- app_assoc.
    + by rewrite omap_app, Hpl.
    + by rewrite omap_app, Hm.
Qed.
End Generation.

(** X12. While a block is being generated, with savepoints, [WithOption]
    and [SysUpdate] working and no [Play] returning [ErrNetworkStopping]
    or an error of cause [ErrLimitStop], the executor plays every
    transaction of its list once, in order, and returns nil; it keeps
    exactly the transactions whose [Play] succeeds and marks every other
    one bad.  Stated for a [Play] whose error on the transactions of the
    list is given by [plays]. *)
Theorem generation_keeps_what_plays env b txs genBErr w plays :
  GenBlock b = true →
  (∀ n h, Savepoint env n h = None) →
  (∀ t h, WithOption env t h = None) →
  (∀ n h, RollbackSavepoint env n h = None) →
  (∀ h, SysUpdate env h = None) →
  (∀ t h, t ∈ txs → playErr (Play env t h) = plays t) →
  (∀ t err, t ∈ txs → plays t = Some err →
            err ≠ ErrNetworkStopping ∧ Cause err ≠ ErrLimitStop) →
  (serialExecuteTxs env b txs genBErr w).1 = None
  ∧ processedTx (serialExecuteTxs env b txs genBErr w).2
    = processedTx w ++ (FullData <$> filter (λ t, plays t = None) txs)
  ∧ omap playedTx (newEvents w (serialExecuteTxs env b txs genBErr w).2) = txs
  ∧ omap markedHash (newEvents w (serialExecuteTxs env b txs genBErr w).2)
    = Hash <$> filter (λ t, plays t ≠ None) txs.
Proof.
  intros Hgen Hs Hw Hr Hsys Hplays Herr. unfold serialExecuteTxs.
  destruct (serialLoop_generation env b plays Hgen Hs Hw Hr Hsys txs 0 genBErr w
              Hplays Herr) as (l & Hl & H1 & H2 & H3 & H4).
  by rewrite (newEvents_app _ _ _ Hl).
Qed.

Lemma generation_keeps_what_plays_witness :
  (serialExecuteTxs oneFailingEnv oneFailingBlock [okTx; badTx; ok2Tx] None newWorld).1
  = None
  ∧ processedTx (serialExecuteTxs oneFailingEnv oneFailingBlock [okTx; badTx; ok2Tx]
                                  None newWorld).2
    = ["a"; "c"].
Proof.
  destruct (generation_keeps_what_plays oneFailingEnv oneFailingBlock
              [okTx; badTx; ok2Tx] None newWorld
              (λ t, if decide (t = badTx) then Some (ErrNew "boom") else None))
    as (H1 & H2 & _); try reflexivity.
  - intros t h Hin. simpl. by destruct (decide (t = badTx)).
  - intros t err _ Hp. destruct (decide (t = badTx)); by simplify_eq.
  - split; [exact H1|exact H2].
Defined.

(** ** ProcessTxs *)

(** *** The prelude and the body *)

Lemma bodyStep_refl w : bodyStep w w.
Proof.
  split_and!; [apply grows_refl|done..|]. exists []. by rewrite app_nil_r.
Qed.

Lemma bodyStep_trans w1 w2 w3 : bodyStep w1 w2 → bodyStep w2 w3 → bodyStep w1 w3.
Proof.
  intros (G1 & F1 & A1 & qs1 & N1 & Q1) (G2 & F2 & A2 & qs2 & N2 & Q2).
  split_and!; [by eapply grows_trans|congruence..|].
  exists (qs1 ++ qs2). rewrite N2, N1, <- app_assoc. split; [done|by apply Forall_app].
Qed.

Lemma bodyStep_same w w' :
  trace w' = trace w → bTxFullData w' = bTxFullData w → bAfterTxs w' = bAfterTxs w →
  bNotifications w' = bNotifications w → bodyStep w w'.
Proof.
  intros H1 H2 H3 H4. split_and!; [by apply grows_same|done..|].
  exists []. by rewrite app_nil_r.
Qed.

Lemma bodyStep_emitAll l w : forallb execEvent l = true → bodyStep w (emitAll l w).
Proof.
  intros Hl. split_and!; [by exists l|done..|]. exists []. by rewrite app_nil_r.
Qed.

Lemma bodyStep_emit e w : execEvent e = true → bodyStep w (emit e w).
Proof. intros He. rewrite emit_emitAll. apply bodyStep_emitAll. simpl. by rewrite He. Qed.

Lemma bodyStep_accept t p w : bodyStep w (accept t p w).
Proof.
  split_and!.
  - exists [EvUpdateTxInputs (Hash t); EvInsertTxOutputs (Hash t)].
    by rewrite trace_accept.
  - unfold accept. by destruct (tSysUpdate p); case_decide.
  - unfold accept. by destruct (tSysUpdate p); case_decide.
  - eexists. split; [apply bNotifications_accept|]. case_decide; [|done].
    apply Forall_singleton. intros Hq. rewrite Hq in *. simpl in *. lia.
Qed.

(** Chains of [emit]s and updates of other fields from [w]. *)
Ltac bodyStep_direct :=
  lazymatch goal with
  | |- bodyStep ?w ?w => apply bodyStep_refl
  | |- bodyStep ?w (emit _ ?w') =>
      apply (bodyStep_trans w w'); [|apply bodyStep_emit; reflexivity]; bodyStep_direct
  | |- bodyStep ?w (if ?c then _ else _) => destruct c; bodyStep_direct
  | |- bodyStep ?w (match ?c with Some _ => _ | None => _ end) =>
      destruct c; bodyStep_direct
  | |- bodyStep ?w (?set _ ?w') =>
      apply (bodyStep_trans w w'); [|apply bodyStep_same; reflexivity]; bodyStep_direct
  end.

Lemma callsOf_execEvents env t l : callsOf env t l → forallb execEvent l = true.
Proof.
  intros [->|[->|[->|[->|(tail & -> & Hm)]]]]; [done..|].
  unfold failCalls. rewrite forallb_app. simpl.
  apply forallb_forall. intros e He. apply (proj1 (forallb_forall _ _) Hm) in He.
  by destruct e.
Qed.

Section BodyFacts.
Variable env : Env.
Variable b : Block.

Lemma serialLoop_bodyStep txs : ∀ curTx genBErr w,
  bodyStep w (serialLoop env b curTx txs genBErr w).2.
Proof.
  induction txs as [|t rest IH]; intros curTx genBErr w; [apply bodyStep_refl|].
  assert (∀ tail, forallb markEvent tail = true →
            bodyStep w (emitAll (failCalls env t tail) w)) as Hfail.
  { intros tail Hm. apply bodyStep_emitAll, (callsOf_execEvents env t).
    do 4 right. by exists tail. }
  destruct (serialLoop_step env b curTx t rest genBErr w)
    as [(e & l & -> & Hc & _)|[(tail & Hgen & Hm & [[-> _]|(g' & ->)])|(p & Hp & ->)]].
  - by apply bodyStep_emitAll, (callsOf_execEvents env t).
  - by apply Hfail.
  - eapply bodyStep_trans; [by apply Hfail|apply IH].
  - eapply bodyStep_trans; [|apply IH].
    eapply bodyStep_trans; [|apply bodyStep_accept]. by apply bodyStep_emitAll.
Qed.

Lemma unmarshalClass_bodyStep txs : ∀ w, bodyStep w (unmarshalClass env txs w).2.
Proof.
  induction txs as [|x rest IH]; intros w; simpl; [apply bodyStep_refl|].
  destruct (UnmarshallTransaction env _ _) as [t|err [h|]].
  - destruct (unmarshalClass env rest _) as [ts w'] eqn:Hrest. simpl.
    eapply bodyStep_trans; [|by eapply (eq_ind _ (λ r, bodyStep _ r.2) (IH _) _ Hrest)].
    bodyStep_direct.
  - eapply bodyStep_trans; [|apply IH]. bodyStep_direct.
  - eapply bodyStep_trans; [|apply IH]. bodyStep_direct.
Qed.

Lemma unmarshalClasses_bodyStep classes : ∀ m w,
  bodyStep w (unmarshalClasses env classes m w).2.
Proof.
  induction classes as [|[k txs] rest IH]; intros m w; simpl; [apply bodyStep_refl|].
  pose proof (unmarshalClass_bodyStep txs w) as H.
  destruct (unmarshalClass env txs w) as [ts w']. simpl in H.
  eapply bodyStep_trans; [exact H | apply IH].
Qed.

Lemma unmarshalGenesis_bodyStep txs : ∀ w, bodyStep w (unmarshalGenesis env txs w).2.
Proof.
  induction txs as [|x rest IH]; intros w; simpl; [apply bodyStep_refl|].
  destruct (UnmarshallTransaction env _ _) as [t|err [h|]]; simpl; [|bodyStep_direct..].
  pose proof (IH (emit (EvUnmarshallTransaction (FullData x)) w)) as H.
  destruct (unmarshalGenesis env rest _) as [[e|ts] w']; simpl in *;
    (eapply bodyStep_trans; [|exact H]); bodyStep_direct.
Qed.

Lemma runGroups_bodyStep groups : ∀ genBErr w,
  bodyStep w (runGroups env b groups genBErr w).
Proof.
  induction groups as [|[g txs] rest IH]; intros genBErr w; simpl; [apply bodyStep_refl|].
  pose proof (serialLoop_bodyStep txs 0 genBErr w) as H. unfold serialExecuteTxs.
  destruct (serialLoop env b 0 txs genBErr w) as [e w']. simpl in H.
  eapply bodyStep_trans; [exact H | apply IH].
Qed.

Lemma serialPhase_bodyStep k genBErr m w :
  bodyStep w (serialPhase env b k genBErr m w).2.
Proof.
  unfold serialPhase. destruct (decide _); [|apply bodyStep_refl].
  pose proof (serialLoop_bodyStep (m k) 0 genBErr w) as H. unfold serialExecuteTxs.
  by destruct (serialLoop env b 0 (m k) genBErr w) as [e w'].
Qed.

Lemma genesisPhase_bodyStep genBErr w :
  bodyStep w (genesisPhase env b genBErr w).2.
Proof.
  unfold genesisPhase. destruct (IsGenesis b); [|apply bodyStep_refl].
  pose proof (unmarshalGenesis_bodyStep (Transactions b) w) as H.
  destruct (unmarshalGenesis env (Transactions b) w) as [[e|ts] w']; simpl in *; [done|].
  eapply bodyStep_trans; [exact H | apply serialLoop_bodyStep].
Qed.

Lemma transferSelfPhase_bodyStep genBErr m w :
  bodyStep w (transferSelfPhase env b genBErr m w).2.
Proof.
  unfold transferSelfPhase. destruct (decide _); [|apply bodyStep_refl]. simpl.
  eapply bodyStep_trans; [|apply bodyStep_same; reflexivity].
  eapply bodyStep_trans; [|apply runGroups_bodyStep]. by apply bodyStep_same.
Qed.

Lemma utxoPhase_bodyStep genBErr m w :
  bodyStep w (utxoPhase env b genBErr m w).2.
Proof.
  unfold utxoPhase. destruct (_ || _); [|apply bodyStep_refl]. simpl.
  eapply bodyStep_trans; [|apply bodyStep_same; reflexivity].
  eapply bodyStep_trans; [|apply runGroups_bodyStep]. by apply bodyStep_same.
Qed.

Lemma processBody_bodyStep genBErr m w :
  bodyStep w (processBody env b genBErr m w).2.
Proof.
  unfold processBody. destruct (_ && _).
  { destruct (bSysUpdate w); [|apply bodyStep_refl]. simpl.
    destruct (SysUpdate env _); simpl; bodyStep_direct. }
  simpl. destruct (GetTxOutputs env _ _); simpl; [bodyStep_direct|].
  pose proof (serialPhase_bodyStep StopNetworkTxType genBErr m
                (emit EvPutAllOutputsMap (emit (EvGetTxOutputs (map KeyID (Transactions b))) w)))
    as H1.
  destruct (serialPhase _ _ StopNetworkTxType _ _ _) as [[e1 m1] w1]. simpl in H1.
  assert (bodyStep w w1) as G1 by (eapply bodyStep_trans; [|exact H1]; bodyStep_direct).
  destruct e1; [done|].
  pose proof (genesisPhase_bodyStep genBErr w1) as H2.
  destruct (genesisPhase _ _ _ _) as [e2 w2]. simpl in H2.
  assert (bodyStep w w2) as G2 by (by eapply bodyStep_trans).
  destruct e2; [done|].
  pose proof (serialPhase_bodyStep DelayTxType genBErr m1 w2) as H3.
  destruct (serialPhase _ _ DelayTxType _ _ _) as [[e3 m3] w3]. simpl in H3.
  assert (bodyStep w w3) as G3 by (by eapply bodyStep_trans).
  destruct e3; [done|].
  pose proof (transferSelfPhase_bodyStep genBErr m3 w3) as H4.
  destruct (transferSelfPhase _ _ _ _ _) as [m4 w4]. simpl in H4.
  pose proof (utxoPhase_bodyStep genBErr m4 w4) as H5.
  destruct (utxoPhase _ _ _ _ _) as [m5 w5]. simpl in *.
  eapply bodyStep_trans; [exact G3|]. by eapply bodyStep_trans.
Qed.

Lemma processPrelude_bodyStep w : bodyStep w (processPrelude env b w).2.
Proof.
  unfold processPrelude.
  pose proof (unmarshalClasses_bodyStep (ClassifyTxsMap b) (λ _, [])
                (setAfters (mkAfterTxs [] [] []) w)) as H1.
  destruct (unmarshalClasses _ _ _ _) as [m w1]. simpl in *.
  eapply bodyStep_trans; [|by apply bodyStep_same].
  eapply bodyStep_trans; [|exact H1]. by apply bodyStep_same.
Qed.
End BodyFacts.

Lemma playEvents_no_close l :
  forallb playEvent l = true → List.filter closeEvent l = [].
Proof.
  induction l as [|e l IH]; simpl; [done|]. intros [He Hl]%andb_prop.
  rewrite IH by done. by destruct e.
Qed.

Lemma sends_no_close (sends : list Queue) : List.filter closeEvent (EvSend <$> sends) = [].
Proof. induction sends as [|q l IH]; simpl; done. Qed.

Lemma execEvents_playEvents l : forallb execEvent l = true → forallb playEvent l = true.
Proof.
  intros H. apply forallb_forall. intros e He.
  apply (proj1 (forallb_forall _ _) H) in He. by destruct e.
Qed.

Lemma execEvents_no_after l : forallb execEvent l = true → EvAfterPlayTxs ∉ l.
Proof.
  intros H Hin. apply list_elem_of_In in Hin.
  by apply (proj1 (forallb_forall _ _) H) in Hin.
Qed.

(** *** The deferred function *)

Section ProcessFacts.
Variable env : Env.
Variable b : Block.

(** [ProcessTxs] is its deferred function applied to what the prelude
    and the body leave. *)
Lemma ProcessTxs_split w :
  ∃ r0 w2, bodyStep w w2
    ∧ ProcessTxs env b w = processDeferred env b None (r0, w2).
Proof.
  unfold ProcessTxs.
  pose proof (processPrelude_bodyStep env b w) as H1.
  destruct (processPrelude env b w) as [m w1]. simpl in H1.
  pose proof (processBody_bodyStep env b None m w1) as H2.
  destruct (processBody env b None m w1) as [r0 w2]. simpl in H2.
  exists r0, w2. split; [by eapply bodyStep_trans|done].
Qed.

Lemma ProcessTxs_body w :
  bodyStep w (bodyOf env b w).2
  ∧ ProcessTxs env b w = processDeferred env b None (bodyOf env b w).
Proof.
  unfold ProcessTxs, bodyOf.
  pose proof (processPrelude_bodyStep env b w) as H1.
  destruct (processPrelude env b w) as [m w1]. simpl in H1.
  pose proof (processBody_bodyStep env b None m w1) as H2.
  split; [by eapply bodyStep_trans|done].
Qed.

Lemma processDeferred_trace r0 w2 :
  trace (processDeferred env b None (r0, w2)).2 = trace w2 ++ [EvAfterPlayTxs].
Proof.
  unfold processDeferred, ask.
  destruct (IsGenesis b), (GenBlock b); simpl;
    destruct (AfterPlayTxs env _); simpl; by destruct r0.
Qed.

Lemma processDeferred_result r0 w2 :
  (processDeferred env b None (r0, w2)).1
  = match AfterPlayTxs env (trace w2), r0 with
    | None, _ => r0
    | Some errA, None => Some errA
    | Some errA, Some e => Some (ErrComposed e errA)
    end.
Proof.
  unfold processDeferred, ask.
  destruct (IsGenesis b), (GenBlock b); simpl;
    destruct (AfterPlayTxs env _); simpl; by destruct r0.
Qed.

Lemma processDeferred_fields r0 w2 :
  let w' := (processDeferred env b None (r0, w2)).2 in
  bTxFullData w' = (if GenBlock b then processedTx w' else bTxFullData w2)
  ∧ bAfterTxs w' = (if IsGenesis b || GenBlock b then Some (afters w') else bAfterTxs w2)
  ∧ bNotifications w' = bNotifications w2.
Proof.
  unfold processDeferred, ask.
  destruct (IsGenesis b), (GenBlock b); simpl;
    destruct (AfterPlayTxs env _); simpl; by destruct r0.
Qed.

Lemma ProcessTxs_notifications w :
  ∃ qs, bNotifications (ProcessTxs env b w).2 = bNotifications w ++ qs
        ∧ Forall (λ q, q ≠ []) qs.
Proof.
  destruct (ProcessTxs_split w) as (r0 & w2 & (_ & _ & _ & qs & Hq & Hne) & ->).
  destruct (processDeferred_fields r0 w2) as (_ & _ & ->). by exists qs.
Qed.
End ProcessFacts.

(** X22. [ProcessTxs] calls [AfterPlayTxs] exactly once, as its last call,
    on every path: after the calls [l] of its body, none of which is
    [AfterPlayTxs].  When that call succeeds, [ProcessTxs] returns what
    its body returned; when it fails, [ProcessTxs] returns its error,
    alone if the body returned nil and otherwise composed after the
    error of the body. *)
Theorem after_play_runs_last env b w :
  ∃ l,
    trace (bodyOf env b w).2 = trace w ++ l
    ∧ (EvAfterPlayTxs ∉ l)
    ∧ newEvents w (ProcessTxs env b w).2 = l ++ [EvAfterPlayTxs]
    ∧ (ProcessTxs env b w).1
      = match AfterPlayTxs env (trace w ++ l), (bodyOf env b w).1 with
        | None, r => r
        | Some errA, None => Some errA
        | Some errA, Some e => Some (ErrComposed e errA)
        end.
Proof.
  destruct (ProcessTxs_body env b w) as [((l & Hl & Hex) & _) Heq].
  exists l. rewrite Heq. destruct (bodyOf env b w) as [r0 w2]. cbn [fst snd] in *.
  split_and!.
  - done.
  - by apply execEvents_no_after.
  - apply newEvents_app. by rewrite processDeferred_trace, Hl, <- app_assoc.
  - by rewrite processDeferred_result, Hl.
Qed.

(** X23. What [ProcessTxs] writes to the block: [TxFullData] is set, to the
    accepted raw transactions, exactly when the block is being generated,
    and [AfterTxs] exactly when the block is being generated or is the
    genesis block, on every path; otherwise they are left as they were. *)
Theorem ProcessTxs_block_fields env b w :
  bTxFullData (ProcessTxs env b w).2
  = (if GenBlock b then processedTx (ProcessTxs env b w).2 else bTxFullData w)
  ∧ bAfterTxs (ProcessTxs env b w).2
    = (if IsGenesis b || GenBlock b then Some (afters (ProcessTxs env b w).2)
       else bAfterTxs w).
Proof.
  destruct (ProcessTxs_split env b w) as (r0 & w2 & (_ & Hf & Ha & _) & ->).
  destruct (processDeferred_fields env b r0 w2) as (-> & -> & _).
  by rewrite Hf, Ha.
Qed.

(** *** Unmarshalling *)

Section Unmarshal.
Variable env : Env.

Lemma unmarshalClass_parse parse txs : ∀ w,
  (∀ d h, d ∈ txs → UnmarshallTransaction env d h = parse d) →
  unmarshalClass env txs w
  = (omap (λ d, parsed (parse d)) txs,
     emitAll (txs ≫= λ d, parseCalls env (parse d) d) w).
Proof.
  induction txs as [|d rest IH]; intros w Hp; simpl; [by rewrite emitAll_nil|].
  unfold ask. rewrite (Hp d) by apply list_elem_of_here.
  assert (∀ d h, d ∈ rest → UnmarshallTransaction env d h = parse d) as Hrest.
  { intros d' h Hd'. apply Hp. by apply list_elem_of_further. }
  unfold parseCalls at 1. destruct (parse d) as [t|err [h|]]; simpl.
  - rewrite IH by done. by rewrite emit_emitAll, emitAll_emitAll.
  - rewrite IH by done. by rewrite !emit_emitAll, !emitAll_emitAll.
  - rewrite IH by done. by rewrite emit_emitAll, emitAll_emitAll.
Qed.

Lemma unmarshalGenesis_fails parse pre tx post err hash : ∀ w,
  (∀ t h, t ∈ pre ++ [tx] → UnmarshallTransaction env (FullData t) h = parse (FullData t)) →
  Forall (λ t, is_Some (parsed (parse (FullData t)))) pre →
  parse (FullData tx) = ParseFailed err hash →
  unmarshalGenesis env (pre ++ tx :: post) w
  = (inl (ErrParseTransaction err),
     emitAll ((pre ++ [tx]) ≫= λ t, parseCalls env (parse (FullData t)) (FullData t)) w).
Proof.
  induction pre as [|t pre IH]; intros w Hp Hpre Htx; simpl.
  - unfold ask. rewrite (Hp tx) by apply list_elem_of_here. rewrite Htx.
    destruct hash as [h|]; simpl; by rewrite !emit_emitAll, ?emitAll_emitAll.
  - unfold ask. rewrite (Hp t) by apply list_elem_of_here.
    apply Forall_cons in Hpre as [[t' Ht'] Hpre].
    destruct (parse (FullData t)) as [t''|] eqn:Hpt; [|done]. simpl.
    rewrite IH; [|intros; apply Hp; by apply list_elem_of_further|done..].
    by rewrite emit_emitAll, emitAll_emitAll.
Qed.

Lemma unmarshalClass_parseStep txs : ∀ w, parseStep w (unmarshalClass env txs w).2.
Proof.
  induction txs as [|x rest IH]; intros w; simpl; [split; [apply grows_refl|done]|].
  destruct (UnmarshallTransaction env _ _) as [t|err [h|]].
  - destruct (unmarshalClass env rest _) as [ts w'] eqn:Hrest. simpl.
    pose proof (IH (emit (EvUnmarshallTransaction x) w)) as [H1 H2].
    rewrite Hrest in H1, H2. simpl in *. split; [|done].
    eapply grows_trans; [|exact H1]. grows_direct.
  - destruct (IH (emit (EvMarkTransactionBad h (Error (messages env) err))
                       (emit (EvUnmarshallTransaction x) w))) as [H1 H2].
    split; [|done]. eapply grows_trans; [|exact H1]. grows_direct.
  - destruct (IH (emit (EvUnmarshallTransaction x) w)) as [H1 H2].
    split; [|done]. eapply grows_trans; [|exact H1]. grows_direct.
Qed.

Lemma unmarshalClasses_parseStep classes : ∀ m w,
  parseStep w (unmarshalClasses env classes m w).2.
Proof.
  induction classes as [|[k txs] rest IH]; intros m w; simpl;
    [split; [apply grows_refl|done]|].
  pose proof (unmarshalClass_parseStep txs w) as [H1 H2].
  destruct (unmarshalClass env txs w) as [ts w']. simpl in *.
  destruct (IH (setKind k ts m) w') as [H3 H4].
  split; [by eapply grows_trans|congruence].
Qed.

Lemma unmarshalClasses_absent classes k : ∀ m w,
  (∀ txs, (k, txs) ∉ classes) →
  (unmarshalClasses env classes m w).1 k = m k.
Proof.
  induction classes as [|[k' txs] rest IH]; intros m w Hk; simpl; [done|].
  destruct (unmarshalClass env txs w) as [ts w']. rewrite IH.
  - unfold setKind. destruct (decide (k = k')) as [->|]; [|done].
    destruct (Hk txs). apply list_elem_of_here.
  - intros txs' Hin. apply (Hk txs'). by apply list_elem_of_further.
Qed.
End Unmarshal.

(** *** The phases *)

Section PhaseFacts.
Variable env : Env.
Variable b : Block.

Lemma serialLoop_first_call curTx t rest genBErr w :
  ∃ l, trace (serialLoop env b curTx (t :: rest) genBErr w).2
       = trace w ++ EvSavepoint (savePointName env t) :: l.
Proof.
  assert (∀ l, callsOf env t l → ∃ l', l = EvSavepoint (savePointName env t) :: l') as Hc.
  { intros l [->|[->|[->|[->|(tail & -> & _)]]]]; by eexists. }
  destruct (serialLoop_step env b curTx t rest genBErr w)
    as [(e & l & -> & (l' & ->)%Hc & _)|[(tail & Hgen & Hm & [[-> _]|(g' & ->)])
                                        |(p & Hp & ->)]].
  - by exists l'.
  - by eexists.
  - destruct (serialLoop_grows env b rest (S curTx) g' (emitAll (failCalls env t tail) w))
      as (l & -> & _).
    rewrite trace_emitAll, <- app_assoc. by eexists.
  - destruct (serialLoop_grows env b rest (S curTx) genBErr
                (accept t p (emitAll (enterEvents env t) w))) as (l & -> & _).
    rewrite trace_accept, trace_emitAll, <- !app_assoc. by eexists.
Qed.

Lemma runGroups_starts groups : ∀ genBErr w g t ts,
  (g, t :: ts) ∈ groups →
  ∃ l1 l2, trace (runGroups env b groups genBErr w)
           = trace w ++ l1 ++ EvSavepoint (savePointName env t) :: l2.
Proof.
  induction groups as [|[g' txs] rest IH]; intros genBErr w g t ts Hin;
    [by apply not_elem_of_nil in Hin|].
  simpl. unfold serialExecuteTxs.
  apply elem_of_cons in Hin as [[= <- <-]|Hin].
  - destruct (serialLoop_first_call 0 t ts genBErr w) as (l & Hl).
    destruct (serialLoop env b 0 (t :: ts) genBErr w) as [e w']. simpl in Hl.
    destruct (runGroups_grows env b rest genBErr w') as (l' & -> & _).
    exists [], (l ++ l'). rewrite Hl. by rewrite <- app_assoc.
  - pose proof (serialLoop_grows env b txs 0 genBErr w) as (l & Hl & _).
    destruct (serialLoop env b 0 txs genBErr w) as [e w']. simpl in Hl.
    destruct (IH genBErr w' g t ts Hin) as (l1 & l2 & ->).
    exists (l ++ l1), l2. rewrite Hl. by rewrite <- !app_assoc.
Qed.

Lemma serialPhase_same k genBErr (m m' : TxsMap) w :
  k ≠ FirstBlockTxType → sameButFirstBlock m m' →
  ∃ e m1 m1' w', serialPhase env b k genBErr m w = (e, m1, w')
                 ∧ serialPhase env b k genBErr m' w = (e, m1', w')
                 ∧ sameButFirstBlock m1 m1'.
Proof.
  intros Hk Hm. unfold serialPhase. rewrite <- (Hm k Hk).
  destruct (decide _); [|by eexists _, _, _, _].
  destruct (serialExecuteTxs env b (m k) genBErr w) as [e w'].
  eexists _, _, _, _. split_and!; [done..|].
  intros k' Hk'. unfold deleteKind, setKind. case_decide; [done|by apply Hm].
Qed.

Lemma processBody_same genBErr (m m' : TxsMap) w :
  sameButFirstBlock m m' →
  processBody env b genBErr m w = processBody env b genBErr m' w.
Proof.
  intros Hm. unfold processBody. destruct (_ && _); [done|].
  destruct (ask _ _ _) as [[e|] w0]; [done|].
  destruct (serialPhase_same StopNetworkTxType genBErr m m' (emit EvPutAllOutputsMap w0))
    as (e1 & m1 & m1' & w1 & -> & -> & Hm1); [done..|].
  destruct e1; [done|]. destruct (genesisPhase env b genBErr w1) as [[e2|] w2]; [done|].
  destruct (serialPhase_same DelayTxType genBErr m1 m1' w2)
    as (e3 & m3 & m3' & w3 & -> & -> & Hm3); [done..|].
  destruct e3; [done|].
  unfold transferSelfPhase. rewrite <- (Hm3 TransferSelfTxType) by done.
  destruct (decide _); simpl.
  - unfold utxoPhase. unfold deleteKind, setKind. simpl.
    rewrite <- !(Hm3 UtxoTxType), <- !(Hm3 SmartContractTxType) by done.
    by destruct (_ || _).
  - unfold utxoPhase.
    rewrite <- !(Hm3 UtxoTxType), <- !(Hm3 SmartContractTxType) by done.
    by destruct (_ || _).
Qed.
End PhaseFacts.

(** *** Theorems on ProcessTxs *)

(** X16. A class of [ClassifyTxsMap] is unmarshalled entry by entry, in
    order; an entry that does not unmarshal is left out of the class, and
    marked bad when its hash could be read, and the loop goes on with the
    next entry.  Stated for an [UnmarshallTransaction] whose result on the
    entries of the class is given by [parse]. *)
Theorem class_unmarshal_skips_failures env parse txs w :
  (∀ d h, d ∈ txs → UnmarshallTransaction env d h = parse d) →
  unmarshalClass env txs w
  = (omap (λ d, parsed (parse d)) txs,
     emitAll (txs ≫= λ d, parseCalls env (parse d) d) w).
Proof. intros Hp. by apply unmarshalClass_parse. Qed.

Lemma class_unmarshal_skips_failures_witness :
  unmarshalClass (calmEnv [sctx "a" 1; sctx "c" 3] (λ _, played None))
                 ["a"; "b"; "c"] newWorld
  = ([sctx "a" 1; sctx "c" 3],
     emitAll [EvUnmarshallTransaction "a"; EvUnmarshallTransaction "b";
              EvUnmarshallTransaction "c"] newWorld).
Proof.
  apply (class_unmarshal_skips_failures
           (calmEnv [sctx "a" 1; sctx "c" 3] (λ _, played None))
           (unmarshalKnown [sctx "a" 1; sctx "c" 3]) ["a"; "b"; "c"] newWorld).
  reflexivity.
Defined.

(** X17. In the genesis phase the transactions of the block are
    unmarshalled in order, and the first one that does not unmarshal ends
    the phase with the error "parse transaction error(...)": it is marked
    bad when its hash could be read, the transactions after it are not
    unmarshalled, and no transaction of the block is executed. *)
Theorem genesis_unmarshal_failure env b genBErr w parse pre tx post err hash :
  IsGenesis b = true →
  Transactions b = pre ++ tx :: post →
  (∀ t h, t ∈ pre ++ [tx] → UnmarshallTransaction env (FullData t) h = parse (FullData t)) →
  Forall (λ t, is_Some (parsed (parse (FullData t)))) pre →
  parse (FullData tx) = ParseFailed err hash →
  genesisPhase env b genBErr w
  = (Some (ErrParseTransaction err),
     emitAll ((pre ++ [tx]) ≫= λ t, parseCalls env (parse (FullData t)) (FullData t)) w).
Proof.
  intros Hg Htxs Hp Hpre Htx. unfold genesisPhase. rewrite Hg, Htxs.
  by rewrite (unmarshalGenesis_fails env parse pre tx post err hash).
Qed.

Lemma genesis_unmarshal_failure_witness :
  genesisPhase (calmEnv [plaintx "g" 1; plaintx "i" 3] (λ _, played None))
               brokenGenesis None newWorld
  = (Some (ErrParseTransaction (ErrNew "malformed transaction")),
     emitAll [EvUnmarshallTransaction "g"; EvUnmarshallTransaction "h"] newWorld).
Proof.
  apply (genesis_unmarshal_failure
           (calmEnv [plaintx "g" 1; plaintx "i" 3] (λ _, played None)) brokenGenesis
           None newWorld (unmarshalKnown [plaintx "g" 1; plaintx "i" 3])
           [plaintx "g" 1] (plaintx "h" 2) [plaintx "i" 3]
           (ErrNew "malformed transaction") None); try reflexivity.
  apply Forall_singleton. by eexists.
Defined.

(** X19. The goroutines of a parallel phase do not stop each other: every
    group that holds a transaction gets the savepoint of its first
    transaction set, whatever the executor returned for the groups that
    ran before it. *)
Theorem every_group_is_started env b groups genBErr w g t ts :
  (g, t :: ts) ∈ groups →
  EvSavepoint (savePointName env t) ∈ newEvents w (runGroups env b groups genBErr w).
Proof.
  intros Hin.
  destruct (runGroups_starts env b groups genBErr w g t ts Hin) as (l1 & l2 & Hl).
  rewrite (newEvents_app _ _ _ Hl). apply elem_of_app. right. apply list_elem_of_here.
Qed.

Lemma every_group_is_started_witness :
  EvSavepoint "block_6b"
  ∈ newEvents newWorld
      (runGroups (stopEnv None) stopBlock [("1", [stopTx]); ("2", [sctx "k" 6])]
                 None newWorld).
Proof.
  apply (every_group_is_started (stopEnv None) stopBlock
           [("1", [stopTx]); ("2", [sctx "k" 6])] None newWorld "2" (sctx "k" 6) []).
  apply list_elem_of_further, list_elem_of_here.
Defined.

(** X18. What the body of [ProcessTxs] does and returns does not depend on
    the class [FirstBlockTxType] of the class map: the transactions of
    the genesis phase are taken from [b.Transactions]. *)
Theorem first_block_class_not_executed env b genBErr (m m' : TxsMap) w :
  sameButFirstBlock m m' →
  processBody env b genBErr m w = processBody env b genBErr m' w.
Proof. intros Hm. by apply processBody_same. Qed.

Lemma first_block_class_not_executed_witness :
  processBody boomEnv boomBlock None (setKind FirstBlockTxType [boomTx] (λ _, [])) newWorld
  = processBody boomEnv boomBlock None (λ _, []) newWorld.
Proof.
  apply (first_block_class_not_executed boomEnv boomBlock None).
  intros k Hk. unfold setKind. by destruct (decide (k = FirstBlockTxType)).
Defined.

(** X20. An error of the executor in a parallel phase is never returned:
    for a block other than the genesis block whose classes are all among
    TransferSelf, UTXO and SmartContract, [ProcessTxs] returns nil
    whenever [GetTxOutputs] and [AfterPlayTxs] succeed, whatever the
    transactions do.  So when such a block is validated, [PlaySafe]
    returns nil whenever the database calls of its own succeed too. *)
Theorem parallel_phase_errors_not_returned env b w :
  IsGenesis b = false →
  GenBlock b = true ∨ BlockSyncMethodIsSQLDML env = false →
  (∀ k txs, (k, txs) ∈ ClassifyTxsMap b →
            k ∈ [TransferSelfTxType; UtxoTxType; SmartContractTxType]) →
  (∀ ks h, GetTxOutputs env ks h = None) →
  (∀ h, AfterPlayTxs env h = None) →
  (∀ w0, (ProcessTxs env b w0).1 = None)
  ∧ (GenBlock b = false →
     (∀ h, StartTransaction env h = None) →
     (∀ h, InsertIntoBlockchain env h = None) →
     (∀ h, Commit env h = None) →
     (PlaySafe env b w).1 = None
     ∧ List.filter closeEvent (newEvents w (PlaySafe env b w).2) = [EvCommit]).
Proof.
  intros Hg Hmode Hcl Hout Hafter.
  assert (∀ w0, (ProcessTxs env b w0).1 = None) as Hprocess.
  { intros w0. unfold ProcessTxs, processPrelude.
    assert (∀ k, k = StopNetworkTxType ∨ k = DelayTxType →
              ∀ w1, (unmarshalClasses env (ClassifyTxsMap b) (λ _, []) w1).1 k = [])
      as Hk.
    { intros k Hk w1. rewrite unmarshalClasses_absent; [done|].
      intros txs Hin%Hcl.
      repeat (apply elem_of_cons in Hin as [->|Hin]; [by destruct Hk|]).
      by apply not_elem_of_nil in Hin. }
    pose proof (Hk StopNetworkTxType (or_introl eq_refl)
                  (setAfters (mkAfterTxs [] [] []) w0)) as H1.
    pose proof (Hk DelayTxType (or_intror eq_refl)
                  (setAfters (mkAfterTxs [] [] []) w0)) as H2.
    destruct (unmarshalClasses _ _ _ _) as [m w1]. simpl in H1, H2.
    assert (∃ w2, processBody env b None m (setProcessedTx [] w1) = (None, w2))
      as [w2 ->].
    { unfold processBody, ask. rewrite Hg.
      assert (negb (GenBlock b) && negb false && BlockSyncMethodIsSQLDML env = false)
        as ->.
      { destruct Hmode as [->| ->]; [done|]. by rewrite andb_false_r. }
      rewrite Hout. rewrite serialPhase_empty by done.
      rewrite genesisPhase_skipped by done. rewrite serialPhase_empty by done.
      destruct (transferSelfPhase _ _ _ _ _) as [m4 w4].
      destruct (utxoPhase _ _ _ _ _) as [m5 w5]. by eexists. }
    by rewrite processDeferred_result, Hafter. }
  split; [done|]. intros Hgen Hstart Hins Hcom.
  pose proof (Hprocess (emit EvStartTransaction w)) as Hp.
  destruct (ProcessTxs env b (emit EvStartTransaction w)) as [r w1] eqn:Heq.
  simpl in Hp. subst r.
  destruct (ProcessTxs_events env b w None w1 Heq) as (l0 & Hl0 & Hf).
  rewrite (PlaySafe_processed env b w w1 (Hstart _) Heq). rewrite Hgen, Hins, Hcom.
  simpl. split; [done|].
  erewrite (newEvents_app w); last first.
  { rewrite trace_emitAll, Hl0. repeat (rewrite <- app_assoc; simpl). reflexivity. }
  simpl. rewrite List.filter_app, playEvents_no_close by done. simpl.
  by rewrite sends_no_close.
Qed.

Lemma parallel_phase_errors_not_returned_witness :
  (PlaySafe (stopEnv None) (validating [sctx "k" 6] [(SmartContractTxType, ["k"])])
            newWorld).1 = None
  ∧ List.filter closeEvent
      (newEvents newWorld
         (PlaySafe (stopEnv None)
                   (validating [sctx "k" 6] [(SmartContractTxType, ["k"])]) newWorld).2)
    = [EvCommit].
Proof.
  assert (∀ k txs, (k, txs) ∈ [(SmartContractTxType, ["k"])] →
                   k ∈ [TransferSelfTxType; UtxoTxType; SmartContractTxType]) as Hcl.
  { intros k txs [[= -> ->]|Hin%not_elem_of_nil]%elem_of_cons; [|done].
    apply list_elem_of_further, list_elem_of_further, list_elem_of_here. }
  destruct (parallel_phase_errors_not_returned (stopEnv None)
              (validating [sctx "k" 6] [(SmartContractTxType, ["k"])]) newWorld
              eq_refl (or_intror eq_refl) Hcl (λ _ _, eq_refl) (λ _, eq_refl)) as [_ H].
  by apply H.
Defined.

(** X21. When a block other than the genesis block is validated on a node
    that synchronises blocks by SQL DML, [ProcessTxs] executes no
    transaction: after unmarshalling the classes it calls [SysUpdate] when
    [b.SysUpdate] is set, and then [AfterPlayTxs]. *)
Theorem sqldml_validation_runs_no_transaction env b w :
  GenBlock b = false → IsGenesis b = false → BlockSyncMethodIsSQLDML env = true →
  ∃ l, newEvents w (ProcessTxs env b w).2
       = l ++ (if bSysUpdate w then [EvSysUpdate] else []) ++ [EvAfterPlayTxs]
       ∧ forallb parseEvent l = true.
Proof.
  intros Hgen Hg Hsql. unfold ProcessTxs, processPrelude.
  pose proof (unmarshalClasses_parseStep env (ClassifyTxsMap b) (λ _, [])
                (setAfters (mkAfterTxs [] [] []) w)) as [(l & Hl & Hf) Hs].
  destruct (unmarshalClasses _ _ _ _) as [m w1]. simpl in Hl, Hs.
  exists l. split; [|done]. apply newEvents_app.
  unfold processBody, ask. rewrite Hgen, Hg, Hsql.
  change (bSysUpdate (setProcessedTx [] w1)) with (bSysUpdate w1). rewrite Hs.
  change (negb false && negb false && true) with true. cbv iota.
  destruct (bSysUpdate w); [destruct (SysUpdate env _)|];
    rewrite processDeferred_trace; simpl; by rewrite Hl, <- !app_assoc.
Qed.

Lemma sqldml_validation_runs_no_transaction_witness :
  ∃ l, newEvents newWorld
         (ProcessTxs (sqldmlEnv [sctx "n" 5] (λ _, played None)) notifyingBlock newWorld).2
       = l ++ [] ++ [EvAfterPlayTxs]
       ∧ forallb parseEvent l = true.
Proof.
  apply (sqldml_validation_runs_no_transaction
           (sqldmlEnv [sctx "n" 5] (λ _, played None)) notifyingBlock newWorld);
    reflexivity.
Defined.

(** X24. Between block plays the package variables of the two groupers are
    at their initial values: [ProcessTxs], and so [PlaySafe], started with
    them there ends with them there on every path, the paths that return
    an error included. *)
Theorem groupers_reset_after_block_play env b w :
  varsReset w → varsReset (ProcessTxs env b w).2 ∧ varsReset (PlaySafe env b w).2.
Proof.
  intros Hw. split; [|by apply PlaySafe_varsReset].
  unfold ProcessTxs, processPrelude.
  pose proof (unmarshalClasses_keepsVars env (ClassifyTxsMap b) (λ _, [])
                (setAfters (mkAfterTxs [] [] []) w)) as H1.
  destruct (unmarshalClasses _ _ _ _) as [m w1]. simpl in H1.
  assert (varsReset (setProcessedTx [] w1)) as H2 by (by eapply varsReset_keeps).
  pose proof (processBody_varsReset env b None m _ H2) as H3.
  destruct (processBody _ _ _ _ _) as [e w2]. simpl in H3.
  unfold processDeferred, ask.
  destruct (IsGenesis b), (GenBlock b); simpl;
    destruct (AfterPlayTxs env _); simpl; by destruct e.
Qed.

Lemma groupers_reset_after_block_play_witness :
  varsReset (ProcessTxs oneFailingEnv oneFailingBlock newWorld).2
  ∧ varsReset (PlaySafe oneFailingEnv oneFailingBlock newWorld).2.
Proof.
  apply (groupers_reset_after_block_play oneFailingEnv oneFailingBlock newWorld).
  by split.
Defined.

(** ** PlaySafe *)

(** *** The paths of PlaySafe *)

Lemma PlaySafe_paths env b w :
  StartTransaction env (trace w) = None →
  ∃ l0 tail,
    newEvents w (PlaySafe env b w).2 = EvStartTransaction :: l0 ++ tail
    ∧ forallb playEvent l0 = true
    ∧ playSafeTail (bNotifications (ProcessTxs env b (emit EvStartTransaction w)).2)
                   tail (PlaySafe env b w).1.
Proof.
  intros Hs.
  destruct (ProcessTxs env b (emit EvStartTransaction w)) as [r w1] eqn:Hp.
  destruct (ProcessTxs_events env b w r w1 Hp) as (l0 & Hl0 & Hf).
  exists l0. destruct r as [e|]; simpl.
  - rewrite (PlaySafe_failed env b w e w1 Hs Hp). destruct (_ && _).
    + pose proof (banLoop_grows env (Error (messages env) e) (Transactions b) ∅
                    (emit EvRollback w1)) as (marks & Hm & Hfm).
      destruct (banLoop _ _ _ _ _) as [em w2]. simpl in *.
      exists (EvRollback :: marks). split_and!; [|done|].
      * apply newEvents_app. rewrite Hm, Hl0. by rewrite <- !app_assoc.
      * left. by exists marks.
    + exists [EvRollback]. split_and!; [|done|].
      * apply newEvents_app. simpl. rewrite Hl0. by rewrite <- !app_assoc.
      * left. by exists [].
  - rewrite (PlaySafe_processed env b w w1 Hs Hp). destruct (_ && _).
    { exists [EvCommit]. split_and!; [|done|right; by left].
      apply newEvents_app. simpl. rewrite ?trace_emitAll, Hl0. by rewrite <- !app_assoc. }
    destruct (InsertIntoBlockchain env _).
    { exists [EvInsertIntoBlockchain; EvRollback].
      split_and!; [|done|do 2 right; by left].
      apply newEvents_app. simpl. rewrite ?trace_emitAll, Hl0. by rewrite <- !app_assoc. }
    destruct (Commit env _).
    { exists [EvInsertIntoBlockchain; EvCommit].
      split_and!; [|done|do 3 right; by left].
      apply newEvents_app. simpl. rewrite ?trace_emitAll, Hl0. by rewrite <- !app_assoc. }
    exists ([EvInsertIntoBlockchain; EvCommit] ++ (EvSend <$> bNotifications w1)).
    split_and!; [|done|by do 4 right].
    apply newEvents_app. simpl. rewrite ?trace_emitAll, Hl0. by rewrite <- !app_assoc.
Qed.

(** *** Theorems on PlaySafe *)

(** X25. The outer database transaction is closed exactly once: when
    [StartTransaction] fails, [PlaySafe] returns its error and makes no
    other call; otherwise, whatever happens, it makes exactly one call
    that is a [Rollback] or a [Commit]. *)
Theorem outer_transaction_closed_once env b w :
  match StartTransaction env (trace w) with
  | Some e => PlaySafe env b w = (Some e, emit EvStartTransaction w)
  | None =>
    length (List.filter closeEvent (newEvents w (PlaySafe env b w).2)) = 1%nat
  end.
Proof.
  destruct (StartTransaction env (trace w)) as [e|] eqn:Hs.
  { unfold PlaySafe, ask. by rewrite Hs. }
  destruct (PlaySafe_paths env b w Hs) as (l0 & tail & -> & Hf & Ht).
  simpl. rewrite List.filter_app, playEvents_no_close by done. simpl.
  destruct Ht as [(marks & -> & Hm & _)|[[-> _]|[[-> _]|[[-> _]|[-> _]]]]];
    simpl; [by rewrite playEvents_no_close|done..|].
  by rewrite sends_no_close.
Qed.

(** X26. [PlaySafe] returns nil only after [ProcessTxs],
    [InsertIntoBlockchain] and [Commit], in that order and with no
    [Rollback]: its calls are then those of [ProcessTxs], the insertion,
    the commit and the sends. *)
Theorem nil_means_inserted_and_committed env b w :
  (PlaySafe env b w).1 = None →
  ∃ l0 sends,
    newEvents w (PlaySafe env b w).2
    = EvStartTransaction :: l0 ++ [EvInsertIntoBlockchain; EvCommit] ++ (EvSend <$> sends)
    ∧ forallb playEvent l0 = true.
Proof.
  intros Hr. destruct (StartTransaction env (trace w)) as [e|] eqn:Hs.
  { unfold PlaySafe, ask in Hr. by rewrite Hs in Hr. }
  destruct (PlaySafe_paths env b w Hs) as (l0 & tail & Hev & Hf & Ht).
  destruct Ht as [(marks & _ & _ & ?)|[[_ ?]|[[_ ?]|[[_ ?]|[-> _]]]]];
    try congruence.
  by eexists l0, _.
Qed.

Lemma nil_means_inserted_and_committed_witness :
  ∃ l0 sends,
    newEvents newWorld (PlaySafe notifyingEnv notifyingBlock newWorld).2
    = EvStartTransaction :: l0 ++ [EvInsertIntoBlockchain; EvCommit] ++ (EvSend <$> sends)
    ∧ forallb playEvent l0 = true.
Proof.
  apply (nil_means_inserted_and_committed notifyingEnv notifyingBlock newWorld).
  by vm_compute.
Defined.

(** X27. Every queue [PlaySafe] sends was in [b.Notifications] before the
    call or is not empty: the executor keeps the queue of an accepted
    transaction only when it holds a notification. *)
Theorem sent_queues_not_empty env b w q :
  EvSend q ∈ newEvents w (PlaySafe env b w).2 → q ∈ bNotifications w ∨ q ≠ [].
Proof.
  intros Hq. destruct (StartTransaction env (trace w)) as [e|] eqn:Hs.
  { unfold PlaySafe, ask in Hq. rewrite Hs in Hq. simpl in Hq.
    rewrite (newEvents_app w _ [EvStartTransaction]) in Hq by done.
    by apply list_elem_of_singleton in Hq. }
  destruct (PlaySafe_paths env b w Hs) as (l0 & tail & Hev & Hf & Ht).
  rewrite Hev in Hq. apply elem_of_cons in Hq as [?|Hq]; [done|].
  apply elem_of_app in Hq as [Hq|Hq]; [by apply playEvents_no_send in Hq|].
  assert (q ∈ bNotifications (ProcessTxs env b (emit EvStartTransaction w)).2) as Hin.
  { destruct Ht as [(marks & -> & Hm & _)|[[-> _]|[[-> _]|[[-> _]|[-> _]]]]].
    - apply elem_of_cons in Hq as [?|Hq]; [done|]. by apply playEvents_no_send in Hq.
    - by apply list_elem_of_singleton in Hq.
    - repeat (apply elem_of_cons in Hq as [?|Hq]; [done|]). by apply not_elem_of_nil in Hq.
    - repeat (apply elem_of_cons in Hq as [?|Hq]; [done|]). by apply not_elem_of_nil in Hq.
    - simpl in Hq. repeat (apply elem_of_cons in Hq as [?|Hq]; [done|]).
      apply list_elem_of_fmap in Hq as (q' & [= ->] & Hq). done. }
  destruct (ProcessTxs_notifications env b (emit EvStartTransaction w))
    as (qs & Hn & Hne).
  rewrite Hn in Hin. simpl in Hin.
  apply elem_of_app in Hin as [Hin|Hin]; [by left|right].
  by apply (proj1 (Forall_forall _ _) Hne).
Qed.

Lemma sent_queues_not_empty_witness : ["hello"] ∈ bNotifications newWorld ∨ ["hello"] ≠ [].
Proof.
  apply (sent_queues_not_empty notifyingEnv notifyingBlock newWorld ["hello"]).
  apply (bool_decide_unpack _). by vm_compute.
Defined.

(** *** Generation of a block of smart-contract transactions *)

Lemma unmarshalClass_all env txs : ∀ w,
  (∀ t h, t ∈ txs → UnmarshallTransaction env (FullData t) h = Parsed t) →
  unmarshalClass env (FullData <$> txs) w
  = (txs, emitAll ((λ t, EvUnmarshallTransaction (FullData t)) <$> txs) w).
Proof.
  induction txs as [|t rest IH]; intros w Hu; simpl; [by rewrite emitAll_nil|].
  unfold ask. rewrite (Hu t) by apply list_elem_of_here.
  rewrite IH by (intros; apply Hu; by apply list_elem_of_further).
  by rewrite emit_emitAll, emitAll_emitAll.
Qed.

Lemma omap_none {A B} (f : A → option B) (l : list A) :
  Forall (λ x, f x = None) l → omap f l = [].
Proof. induction 1 as [|x l Hx _ IH]; simpl; [done|]. by rewrite Hx. Qed.

Section ContractBlock.
Variable env : Env.
Variable b : Block.
Variable txs : list Transaction.
Variable plays : Transaction → option error.
Hypothesis generating_block : GenBlock b = true.
Hypothesis not_genesis : IsGenesis b = false.
Hypothesis block_transactions : Transactions b = txs.
Hypothesis block_classes : ClassifyTxsMap b = [(SmartContractTxType, FullData <$> txs)].
Hypothesis fair_schedule : ∀ l, schedule env l ≡ₚ l.
Hypothesis unmarshal_ok : ∀ t h,
  t ∈ txs → UnmarshallTransaction env (FullData t) h = Parsed t.
Hypothesis outputs_ok : ∀ ks h, GetTxOutputs env ks h = None.
Hypothesis savepoint_ok : ∀ n h, Savepoint env n h = None.
Hypothesis with_option_ok : ∀ t h, WithOption env t h = None.
Hypothesis rollback_savepoint_ok : ∀ n h, RollbackSavepoint env n h = None.
Hypothesis sysupdate_ok : ∀ h, SysUpdate env h = None.
Hypothesis after_play_ok : ∀ h, AfterPlayTxs env h = None.
Hypothesis plays_spec : ∀ t h, t ∈ txs → playErr (Play env t h) = plays t.
Hypothesis plays_errors : ∀ t err,
  t ∈ txs → plays t = Some err → err ≠ ErrNetworkStopping ∧ Cause err ≠ ErrLimitStop.

Lemma contract_block_ProcessTxs w0 :
  utxoVars w0 = initGroupVars →
  ∃ l w1,
    ProcessTxs env b w0 = (None, w1)
    ∧ trace w1 = trace w0 ++ l ++ [EvAfterPlayTxs]
    ∧ forallb playEvent l = true
    ∧ omap playedTx l = txs
    ∧ omap markedHash l = Hash <$> filter (λ t, plays t ≠ None) txs
    ∧ bTxFullData w1 = FullData <$> filter (λ t, plays t = None) txs.
Proof.
  intros Hvars. unfold ProcessTxs, processPrelude. rewrite block_classes. simpl.
  rewrite unmarshalClass_all by done.
  set (unm := (λ t, EvUnmarshallTransaction (FullData t)) <$> txs).
  set (m := setKind SmartContractTxType txs (λ _, [])).
  assert (omap playedTx unm = [] ∧ omap markedHash unm = []
          ∧ forallb playEvent unm = true) as (Hu1 & Hu2 & Hu3).
  { unfold unm. clear. induction txs as [|t l IH]; [done|]. simpl. apply IH. }
  unfold processBody. rewrite generating_block, block_transactions.
  cbn [negb andb]. unfold ask. rewrite outputs_ok.
  rewrite serialPhase_empty by done.
  rewrite genesisPhase_skipped by done.
  rewrite serialPhase_empty by done.
  rewrite transferSelfPhase_empty by done.
  set (w2 := emit EvPutAllOutputsMap _).
  assert (trace w2 = trace w0 ++ unm ++ [EvGetTxOutputs (map KeyID txs); EvPutAllOutputsMap])
    as Hw2.
  { unfold w2. simpl. by rewrite <- !app_assoc. }
  assert (∃ l w3, (utxoPhase env b None m w2).2 = w3
                  ∧ trace w3 = trace w2 ++ l ∧ forallb playEvent l = true
                  ∧ omap playedTx l = txs
                  ∧ omap markedHash l = Hash <$> filter (λ t, plays t ≠ None) txs
                  ∧ processedTx w3 = FullData <$> filter (λ t, plays t = None) txs)
    as (l & w3 & Hphase & Hl & Hfl & Hpl & Hml & Hpr).
  { destruct (decide (txs = [])) as [Hnil|Hne].
    - exists [], w2. unfold utxoPhase. subst m. rewrite Hnil. simpl.
      by rewrite app_nil_r.
    - rewrite (utxoPhase_contracts_only env b None m w2 fair_schedule eq_refl
                 ltac:(done) Hvars).
      change (m SmartContractTxType) with txs. unfold serialExecuteTxs.
      destruct (serialLoop_generation env b plays generating_block savepoint_ok
                  with_option_ok rollback_savepoint_ok sysupdate_ok txs 0 None
                  (setUtxoVars (mkGroupVars {[Itoa 0 := txs]} [] 1) w2)
                  plays_spec plays_errors) as (l & Hl & Hr & Hpr & Hpl & Hml).
      pose proof (serialLoop_grows env b txs 0 None
                    (setUtxoVars (mkGroupVars {[Itoa 0 := txs]} [] 1) w2))
        as (l' & Hl' & Hfl).
      rewrite Hl in Hl'. apply app_inv_head in Hl'. subst l'.
      eexists l, _. split; [reflexivity|]. by split_and!. }
  destruct (utxoPhase env b None m w2) as [m' w4]. simpl in Hphase. subst w4.
  unfold processDeferred. rewrite generating_block, not_genesis. cbn [orb snd].
  unfold ask. rewrite after_play_ok.
  eexists (unm ++ [EvGetTxOutputs (map KeyID txs); EvPutAllOutputsMap] ++ l), _.
  split; [reflexivity|]. simpl. split_and!.
  - rewrite Hl, Hw2. by repeat (rewrite <- app_assoc; simpl).
  - rewrite !forallb_app, Hu3. by simpl.
  - rewrite !omap_app, Hu1. by simpl.
  - rewrite !omap_app, Hu2. by simpl.
  - done.
Qed.
End ContractBlock.

(** X28. Generation of a block of smart-contract transactions, end to end.
    When every call into the database succeeds, the transactions
    unmarshal and no [Play] returns [ErrNetworkStopping] or an error of
    cause [ErrLimitStop], [PlaySafe] plays every transaction of the block
    once, in order, marks bad exactly those whose [Play] fails, leaves in
    [b.TxFullData] exactly those whose [Play] succeeds, and commits the
    outer transaction; it returns nil, or [ErrEmptyBlock] when no
    transaction is left.  Stated for a [Play] whose error on the
    transactions of the block is given by [plays]. *)
Theorem generation_of_contract_block env b w txs plays :
  GenBlock b = true → IsGenesis b = false →
  Transactions b = txs →
  ClassifyTxsMap b = [(SmartContractTxType, FullData <$> txs)] →
  utxoVars w = initGroupVars →
  (∀ l, schedule env l ≡ₚ l) →
  (∀ h, StartTransaction env h = None) →
  (∀ t h, t ∈ txs → UnmarshallTransaction env (FullData t) h = Parsed t) →
  (∀ ks h, GetTxOutputs env ks h = None) →
  (∀ n h, Savepoint env n h = None) →
  (∀ t h, WithOption env t h = None) →
  (∀ n h, RollbackSavepoint env n h = None) →
  (∀ h, SysUpdate env h = None) →
  (∀ h, AfterPlayTxs env h = None) →
  (∀ h, InsertIntoBlockchain env h = None) →
  (∀ h, Commit env h = None) →
  (∀ t h, t ∈ txs → playErr (Play env t h) = plays t) →
  (∀ t err, t ∈ txs → plays t = Some err →
            err ≠ ErrNetworkStopping ∧ Cause err ≠ ErrLimitStop) →
  (PlaySafe env b w).1
  = (if decide (filter (λ t, plays t = None) txs = []) then Some ErrEmptyBlock else None)
  ∧ bTxFullData (PlaySafe env b w).2 = FullData <$> filter (λ t, plays t = None) txs
  ∧ omap playedTx (newEvents w (PlaySafe env b w).2) = txs
  ∧ omap markedHash (newEvents w (PlaySafe env b w).2)
    = Hash <$> filter (λ t, plays t ≠ None) txs
  ∧ List.filter closeEvent (newEvents w (PlaySafe env b w).2) = [EvCommit].
Proof.
  intros Hgen Hg Htxs Hcl Hvars Hsched Hstart Hun Hout Hsp Hwo Hrb Hsys Hafter Hins Hcom
         Hplays Herr.
  destruct (contract_block_ProcessTxs env b txs plays Hgen Hg Htxs Hcl Hsched Hun Hout
              Hsp Hwo Hrb Hsys Hafter Hplays Herr (emit EvStartTransaction w) Hvars)
    as (l & w1 & Hp & Htr & Hfl & Hpl & Hml & Hfd).
  rewrite (PlaySafe_processed env b w w1 (Hstart _) Hp). rewrite Hgen, Hins, Hcom. simpl.
  assert (omap playedTx (EvSend <$> bNotifications w1) = []
          ∧ omap markedHash (EvSend <$> bNotifications w1) = []
          ∧ List.filter closeEvent (EvSend <$> bNotifications w1) = []) as (Hs1 & Hs2 & Hs3).
  { by induction (bNotifications w1). }
  assert (List.filter closeEvent l = []) as Hcl0 by (by apply playEvents_no_close).
  simpl in Htr. rewrite <- app_assoc in Htr.
  case_bool_decide as Hempty.
  - rewrite Hfd in Hempty. apply length_zero_iff_nil, fmap_nil_inv in Hempty.
    rewrite decide_True by done. simpl.
    rewrite (newEvents_app w _ ([EvStartTransaction] ++ l ++ [EvAfterPlayTxs; EvCommit]))
      by (rewrite trace_emitAll, Htr; by repeat (rewrite <- app_assoc; simpl)).
    split_and!; [done..| | |].
    + rewrite !omap_app, Hpl. simpl. by rewrite app_nil_r.
    + rewrite !omap_app, Hml. simpl. by rewrite app_nil_r.
    + by rewrite !List.filter_app, Hcl0.
  - rewrite decide_False; last first.
    { intros Hnil. apply Hempty. by rewrite Hfd, Hnil. }
    simpl.
    rewrite (newEvents_app w _
               ([EvStartTransaction] ++ l
                ++ [EvAfterPlayTxs; EvInsertIntoBlockchain; EvCommit]
                ++ (EvSend <$> bNotifications w1)))
      by (rewrite trace_emitAll, Htr; by repeat (rewrite <- app_assoc; simpl)).
    split_and!; [done..| | |].
    + rewrite !omap_app, Hpl, Hs1. simpl. by rewrite app_nil_r.
    + rewrite !omap_app, Hml, Hs2. simpl. by rewrite app_nil_r.
    + by rewrite !List.filter_app, Hcl0, Hs3.
Qed.

Lemma generation_of_contract_block_witness :
  (PlaySafe oneFailingEnv oneFailingBlock newWorld).1 = None
  ∧ bTxFullData (PlaySafe oneFailingEnv oneFailingBlock newWorld).2 = ["a"; "c"].
Proof.
  destruct (generation_of_contract_block oneFailingEnv oneFailingBlock newWorld
              [okTx; badTx; ok2Tx]
              (λ t, if decide (t = badTx) then Some (ErrNew "boom") else None))
    as (H1 & H2 & _); try reflexivity.
  - intros t h Hin.
    repeat (apply elem_of_cons in Hin as [->|Hin]; [reflexivity|]).
    by apply not_elem_of_nil in Hin.
  - intros t h Hin. simpl. by destruct (decide (t = badTx)).
  - intros t err _ Hp. destruct (decide (t = badTx)); by simplify_eq.
  - split; [exact H1|exact H2].
Defined.
